(** * Visual Content Mapper: persistence, comparison, export, shortcuts and
      orchestration, embedded in Rocq

    The development follows the TypeScript sources:
    - [types.ts]: the data model;
    - [utils/storageUtils.ts]: history, brand voice, preferences, recent
      keywords and audiences, export and import, [compareAnalyses],
      [getAnalysisStatistics];
    - [utils/exportUtils.ts]: [exportToCSV] and [exportToJSON];
    - [utils/keyboardShortcuts.ts]: the key handler of
      [useKeyboardShortcuts], [formatShortcut], [getDefaultShortcuts];
    - [services/geminiServiceEnhanced.ts]: [actionBatchAnalyze],
      [actionCompetitorComparison], [generateCompetitiveInsights] and
      [actionAnalyzeScreenshotEnhanced];
    - [components/HistoryPanel.tsx]: the search field.

    Modelling conventions.
    - A [number] of the data model is an integer ([Z]): a score, a count,
      a percentage or an instant in milliseconds.  What a JSON text
      carries as a number is a decimal, a significand with a power of
      ten, so that every number literal has a value.  Where the code is
      about any number that an object may hold, the JSON export, a
      number is a double, and the values in memory are those of the
      module [Memory].  The progress fraction of the batch orchestrator
      is a rational ([Q]), and so is the average score of the
      statistics.
    - An object is the list of its properties in insertion order, the
      order in which JavaScript enumerates names that are not array
      indices; none of the property names of the data model is one.
    - A string is a [string] of bytes (the UTF-8 text); case conversion and
      trimming are those of strings of ASCII characters.
    - [localStorage] is a finite map from keys to strings; the storage API
      itself does not fail (no quota, no security error), so the [catch]
      blocks of the persistence layer are reached through [JSON.parse] and
      through type errors only.
    - The model provider and the single-image analysis are operations of
      an abstract world; every call is recorded, with its outcome, in a
      log, and so is what is written with [console.error]. *)

From Stdlib Require Import ZArith List String Ascii Lia Bool QArith.
From Stdlib Require Import DecimalFacts DecimalPos DecimalZ.
From stdpp Require Import gmap strings.
Import ListNotations.

Local Open Scope Z_scope.

(** * JavaScript values *)

Module JS.

Definition dquote : ascii := "034"%char.
Definition backslash : ascii := "\"%char.
Definition newline : ascii := "010"%char.
Definition space : ascii := " "%char.

Definition chars (s : string) : list ascii := list_ascii_of_string s.
Definition text (l : list ascii) : string := string_of_list_ascii l.

(** The values that JSON carries.  [VNum m e] is the number [m * 10^e];
    an integer [n] is [VNum n 0]. *)
Unset Elimination Schemes.
Inductive value : Type :=
| VNull
| VBool (b : bool)
| VNum (m e : Z)
| VStr (s : string)
| VArr (elems : list value)
| VObj (props : list (string * value)).
Set Elimination Schemes.

Definition VInt (n : Z) : value := VNum n 0.

(** Insertion-ordered association lists: the own properties of an object,
    the entries of a [Map].  Setting a key that is present replaces its
    value where it stands; a new key goes to the end. *)
Fixpoint assoc_get {V} (k : string) (ps : list (string * V)) : option V :=
  match ps with
  | [] => None
  | (k', v) :: r => if String.eqb k k' then Some v else assoc_get k r
  end.

Fixpoint assoc_set {V} (k : string) (v : V) (ps : list (string * V))
  : list (string * V) :=
  match ps with
  | [] => [(k, v)]
  | (k', v') :: r =>
      if String.eqb k k' then (k, v) :: r else (k', v') :: assoc_set k v r
  end.

Definition assoc_has {V} (k : string) (ps : list (string * V)) : bool :=
  match assoc_get k ps with Some _ => true | None => false end.

(* new Map(entries), Object.assign(target, src), { ...target, ...src } *)
Definition assoc_assign {V} (target src : list (string * V))
  : list (string * V) :=
  fold_left (fun o kv => assoc_set (fst kv) (snd kv) o) src target.

(** An object literal: a property whose value is [undefined] is as good as
    absent, and is left out. *)
Fixpoint present (fields : list (string * option value))
  : list (string * value) :=
  match fields with
  | [] => []
  | (k, Some v) :: r => (k, v) :: present r
  | (_, None) :: r => present r
  end.

Definition obj (fields : list (string * option value)) : value :=
  VObj (present fields).

(** Decimal digits of an integer: [Number.prototype.toString] on the
    integers (below 10^21, where JavaScript switches to exponents). *)
Fixpoint digits_of_uint (d : Decimal.uint) : list ascii :=
  match d with
  | Decimal.Nil => []
  | Decimal.D0 d => "0"%char :: digits_of_uint d
  | Decimal.D1 d => "1"%char :: digits_of_uint d
  | Decimal.D2 d => "2"%char :: digits_of_uint d
  | Decimal.D3 d => "3"%char :: digits_of_uint d
  | Decimal.D4 d => "4"%char :: digits_of_uint d
  | Decimal.D5 d => "5"%char :: digits_of_uint d
  | Decimal.D6 d => "6"%char :: digits_of_uint d
  | Decimal.D7 d => "7"%char :: digits_of_uint d
  | Decimal.D8 d => "8"%char :: digits_of_uint d
  | Decimal.D9 d => "9"%char :: digits_of_uint d
  end.

Definition print_int (z : Z) : list ascii :=
  match Z.to_int z with
  | Decimal.Pos d => digits_of_uint d
  | Decimal.Neg d => "-"%char :: digits_of_uint d
  end.

Definition Number_toString (n : Z) : string := text (print_int n).

(** ToBoolean on a property that may be missing ([None] is [undefined]). *)
Definition truthy (v : option value) : bool :=
  match v with
  | None => false
  | Some VNull => false
  | Some (VBool b) => b
  | Some (VNum m _) => negb (Z.eqb m 0)
  | Some (VStr s) => negb (String.eqb s "")
  | Some (VArr _) => true
  | Some (VObj _) => true
  end.

(** [v.k] for a property name [k] that no prototype defines: reading a
    property of [null] throws a TypeError (the outer [None]); an object
    answers with its own property; anything else answers [undefined]. *)
Definition get_prop (v : value) (k : string) : option (option value) :=
  match v with
  | VNull => None
  | VObj ps => Some (assoc_get k ps)
  | _ => Some None
  end.

(** The own enumerable properties that [{ ...v }] copies. *)
Definition own_props (v : value) : list (string * value) :=
  match v with
  | VObj ps => ps
  | VArr l => imap (fun i x => (Number_toString (Z.of_nat i), x)) l
  | VStr s =>
      imap (fun i c => (Number_toString (Z.of_nat i), VStr (String c "")))
        (chars s)
  | _ => []
  end.

(** String.prototype.toLowerCase, trim, replace(/c/g, by) on ASCII. *)
Definition lower_char (c : ascii) : ascii :=
  let n := nat_of_ascii c in
  if (Nat.leb 65 n && Nat.leb n 90)%bool then ascii_of_nat (n + 32) else c.

Fixpoint toLowerCase (s : string) : string :=
  match s with
  | EmptyString => EmptyString
  | String c r => String (lower_char c) (toLowerCase r)
  end.

Definition is_space (c : ascii) : bool :=
  let n := nat_of_ascii c in
  (Nat.eqb n 32 || (Nat.leb 9 n && Nat.leb n 13))%bool.

Fixpoint trim_start (l : list ascii) : list ascii :=
  match l with
  | c :: r => if is_space c then trim_start r else l
  | [] => []
  end.

Definition trim (s : string) : string :=
  text (rev (trim_start (rev (trim_start (chars s))))).

Fixpoint replace_all (c : ascii) (by_ : string) (s : string) : string :=
  match s with
  | EmptyString => EmptyString
  | String x r =>
      if Ascii.eqb x c then by_ +:+ replace_all c by_ r
      else String x (replace_all c by_ r)
  end.

(* Array.prototype.join *)
Definition join (sep : string) (parts : list string) : string :=
  String.concat sep parts.

End JS.

Export JS.

(** * JSON.stringify and JSON.parse *)

Module JSON.

Definition is_nil {A} (l : list A) : bool :=
  match l with [] => true | _ => false end.

(** ** Serialisation (SerializeJSONProperty) *)

Definition hex_digit (n : nat) : ascii :=
  match n with
  | 0 => "0" | 1 => "1" | 2 => "2" | 3 => "3" | 4 => "4" | 5 => "5"
  | 6 => "6" | 7 => "7" | 8 => "8" | 9 => "9" | 10 => "a" | 11 => "b"
  | 12 => "c" | 13 => "d" | 14 => "e" | _ => "f"
  end%char%nat.

(* QuoteJSONString, one code unit *)
Definition quote_char (c : ascii) : list ascii :=
  let n := nat_of_ascii c in
  if Ascii.eqb c dquote then [backslash; dquote]
  else if Ascii.eqb c backslash then [backslash; backslash]
  else if Nat.eqb n 8 then [backslash; "b"%char]
  else if Nat.eqb n 9 then [backslash; "t"%char]
  else if Nat.eqb n 10 then [backslash; "n"%char]
  else if Nat.eqb n 12 then [backslash; "f"%char]
  else if Nat.eqb n 13 then [backslash; "r"%char]
  else if Nat.ltb n 32 then
    [backslash; "u"; "0"; "0";
     hex_digit (Nat.div n 16); hex_digit (Nat.modulo n 16)]%char
  else [c].

Definition quote (s : string) : list ascii :=
  dquote :: flat_map quote_char (chars s) ++ [dquote].

(** [Number::toString] on a positive number that is not an integer below
    10^21, from its decimal digits [s] and the place [n] of the decimal
    point, counted from the first digit: up to 21 places the digits with
    the point among them; down to six places before the first digit the
    digits behind zeros; beyond that the first digit, the others as
    fraction, and the exponent with its sign. *)
Definition print_decimal (s : list ascii) (n : Z) : list ascii :=
  if ((0 <? n) && (n <=? 21))%bool then
    take (Z.to_nat n) s ++ "."%char :: drop (Z.to_nat n) s
  else if ((-6 <? n) && (n <=? 0))%bool then
    "0"%char :: "."%char :: replicate (Z.to_nat (- n)) "0"%char ++ s
  else
    match s with
    | [] => []
    | d :: others =>
        d :: (if is_nil others then [] else "."%char :: others)
        ++ "e"%char :: (if n - 1 <? 0 then "-"%char else "+"%char)
        :: print_int (Z.abs (n - 1))
    end.

(** The pairs, other than the integers, from which [Number::toString]
    works: the digits [m] do not end in 0, and the number [m * 10^e] is
    not an integer below 10^21. *)
Definition shortest (m e : Z) : bool :=
  negb (m mod 10 =? 0)
  && ((e <? 0) || (21 <? Z.of_nat (length (print_int (Z.abs m))) + e)).

(** An integer is written in decimal, any other number of the form above
    as [Number::toString] writes it.  A pair of another form (the parser
    makes one from a text such as 1.50 or 2e3, which [JSON.stringify] does
    not write) is kept as it is: significand, [e], exponent. *)
Definition print_number (m e : Z) : list ascii :=
  if Z.eqb e 0 then print_int m
  else if shortest m e then
    let s := print_int (Z.abs m) in
    (if m <? 0 then ["-"%char] else [])
    ++ print_decimal s (Z.of_nat (length s) + e)
  else print_int m ++ "e"%char :: print_int e.

Fixpoint join (sep : list ascii) (parts : list (list ascii)) : list ascii :=
  match parts with
  | [] => []
  | [p] => p
  | p :: ps => p ++ sep ++ join sep ps
  end.

(* The brackets of SerializeJSONArray and SerializeJSONObject around the
   serialised members: with an empty [gap] the members are joined by
   commas; otherwise every member sits on a line of its own, one [gap]
   deeper than the closing bracket. *)
Definition enclose (gap stepback : list ascii) (open close : ascii)
    (parts : list (list ascii)) : list ascii :=
  let indent := stepback ++ gap in
  let opening := if is_nil gap then [] else newline :: indent in
  let closing := if is_nil gap then [] else newline :: stepback in
  if is_nil parts then [open; close]
  else open :: opening ++ join (","%char :: opening) parts
         ++ closing ++ [close].

Definition print_member (sp : list ascii) (pr : value -> list ascii)
    (kv : string * value) : list ascii :=
  quote (fst kv) ++ ":"%char :: sp ++ pr (snd kv).

Fixpoint print (gap indent : list ascii) (v : value) : list ascii :=
  match v with
  | VNull => chars "null"
  | VBool true => chars "true"
  | VBool false => chars "false"
  | VNum m e => print_number m e
  | VStr s => quote s
  | VArr l =>
      enclose gap indent "["%char "]"%char (map (print gap (indent ++ gap)) l)
  | VObj ps =>
      enclose gap indent "{"%char "}"%char
        (map (print_member (if is_nil gap then [] else [space])
                (print gap (indent ++ gap))) ps)
  end.

(* JSON.stringify(v) *)
Definition stringify (v : value) : string := text (print [] [] v).

(* JSON.stringify(v, null, 2) *)
Definition stringify_indent2 (v : value) : string :=
  text (print [space; space] [] v).

(** ** Parsing *)

Definition is_ws (c : ascii) : bool :=
  let n := nat_of_ascii c in
  (Nat.eqb n 32 || Nat.eqb n 9 || Nat.eqb n 10 || Nat.eqb n 13)%bool.

Fixpoint skip_ws (s : list ascii) : list ascii :=
  match s with
  | c :: r => if is_ws c then skip_ws r else s
  | [] => []
  end.

Definition is_digit (c : ascii) : bool :=
  let n := nat_of_ascii c in (Nat.leb 48 n && Nat.leb n 57)%bool.

Fixpoint span_digits (s : list ascii) : list ascii * list ascii :=
  match s with
  | c :: r =>
      if is_digit c then let '(ds, r') := span_digits r in (c :: ds, r')
      else ([], s)
  | [] => ([], [])
  end.

Fixpoint uint_of_digits (ds : list ascii) : Decimal.uint :=
  match ds with
  | [] => Decimal.Nil
  | c :: r =>
      let d := uint_of_digits r in
      match Nat.sub (nat_of_ascii c) 48 with
      | 0 => Decimal.D0 d | 1 => Decimal.D1 d | 2 => Decimal.D2 d
      | 3 => Decimal.D3 d | 4 => Decimal.D4 d | 5 => Decimal.D5 d
      | 6 => Decimal.D6 d | 7 => Decimal.D7 d | 8 => Decimal.D8 d
      | _ => Decimal.D9 d
      end%nat
  end.

Definition hex_val (c : ascii) : option nat :=
  let n := nat_of_ascii c in
  if (Nat.leb 48 n && Nat.leb n 57)%bool then Some (n - 48)%nat
  else if (Nat.leb 97 n && Nat.leb n 102)%bool then Some (n - 87)%nat
  else if (Nat.leb 65 n && Nat.leb n 70)%bool then Some (n - 55)%nat
  else None.

Definition hex4 (a b c d : ascii) : option nat :=
  match hex_val a, hex_val b, hex_val c, hex_val d with
  | Some x, Some y, Some z, Some w =>
      Some (((x * 16 + y) * 16 + z) * 16 + w)%nat
  | _, _, _, _ => None
  end.

(* The bytes of one escaped code unit. *)
Definition utf8 (n : nat) : list ascii :=
  if Nat.ltb n 128 then [ascii_of_nat n]
  else if Nat.ltb n 2048 then
    [ascii_of_nat (192 + Nat.div n 64); ascii_of_nat (128 + Nat.modulo n 64)]
  else
    [ascii_of_nat (224 + Nat.div n 4096);
     ascii_of_nat (128 + Nat.modulo (Nat.div n 64) 64);
     ascii_of_nat (128 + Nat.modulo n 64)].

Definition prepend (pre : list ascii) (r : option (list ascii * list ascii))
  : option (list ascii * list ascii) :=
  match r with
  | Some (s, rest) => Some (pre ++ s, rest)
  | None => None
  end.

(* The characters of a string literal, after its opening quote. *)
Fixpoint parse_chars (s : list ascii) : option (list ascii * list ascii) :=
  match s with
  | [] => None
  | c :: r =>
      if Ascii.eqb c dquote then Some ([], r)
      else if Ascii.eqb c backslash then
        match r with
        | [] => None
        | x :: r1 =>
            if Ascii.eqb x dquote then prepend [dquote] (parse_chars r1)
            else if Ascii.eqb x backslash then prepend [backslash] (parse_chars r1)
            else if Ascii.eqb x "/" then prepend ["/"%char] (parse_chars r1)
            else if Ascii.eqb x "b" then prepend [ascii_of_nat 8] (parse_chars r1)
            else if Ascii.eqb x "f" then prepend [ascii_of_nat 12] (parse_chars r1)
            else if Ascii.eqb x "n" then prepend [ascii_of_nat 10] (parse_chars r1)
            else if Ascii.eqb x "r" then prepend [ascii_of_nat 13] (parse_chars r1)
            else if Ascii.eqb x "t" then prepend [ascii_of_nat 9] (parse_chars r1)
            else if Ascii.eqb x "u" then
              match r1 with
              | h1 :: h2 :: h3 :: h4 :: r2 =>
                  match hex4 h1 h2 h3 h4 with
                  | Some n => prepend (utf8 n) (parse_chars r2)
                  | None => None
                  end
              | _ => None
              end
            else None
        end
      else if Nat.ltb (nat_of_ascii c) 32 then None
      else prepend [c] (parse_chars r)
  end.

Definition parse_string (s : list ascii) : option (string * list ascii) :=
  match parse_chars s with
  | Some (cs, rest) => Some (text cs, rest)
  | None => None
  end.

(* int = "0" | digit1-9 digit* *)
Definition int_part_ok (ds : list ascii) : bool :=
  match ds with
  | [] => false
  | [_] => true
  | c :: _ => negb (Ascii.eqb c "0")
  end.

Definition parse_fraction (s : list ascii)
  : option (list ascii * list ascii) :=
  match s with
  | c :: r =>
      if Ascii.eqb c "." then
        let '(fs, s') := span_digits r in
        if is_nil fs then None else Some (fs, s')
      else Some ([], s)
  | [] => Some ([], s)
  end.

Definition parse_exponent (s : list ascii) : option (Z * list ascii) :=
  match s with
  | c :: r =>
      if (Ascii.eqb c "e" || Ascii.eqb c "E")%bool then
        let '(neg, r1) :=
          match r with
          | x :: r' =>
              if Ascii.eqb x "-" then (true, r')
              else if Ascii.eqb x "+" then (false, r')
              else (false, r)
          | [] => (false, r)
          end in
        let '(ds, r2) := span_digits r1 in
        if is_nil ds then None
        else
          let n := Z.of_uint (uint_of_digits ds) in
          Some (if neg : bool then - n else n, r2)
      else Some (0, s)
  | [] => Some (0, s)
  end.

Definition parse_sign (s : list ascii) : bool * list ascii :=
  match s with
  | c :: r => if Ascii.eqb c "-" then (true, r) else (false, s)
  | [] => (false, s)
  end.

Definition parse_number (s : list ascii) : option (value * list ascii) :=
  let '(neg, s1) := parse_sign s in
  let '(ds, s2) := span_digits s1 in
  if negb (int_part_ok ds) then None
  else
    match parse_fraction s2 with
    | None => None
    | Some (fs, s3) =>
        match parse_exponent s3 with
        | None => None
        | Some (ex, s4) =>
            let n := Z.of_uint (uint_of_digits (ds ++ fs)) in
            Some (VNum (if neg : bool then - n else n)
                       (ex - Z.of_nat (length fs)), s4)
        end
    end.

Fixpoint expect (word : list ascii) (s : list ascii) : option (list ascii) :=
  match word with
  | [] => Some s
  | w :: word' =>
      match s with
      | c :: r => if Ascii.eqb c w then expect word' r else None
      | [] => None
      end
  end.

(* A repeated member name keeps its first place and takes the last value. *)
Definition obj_of_members (ms : list (string * value))
  : list (string * value) :=
  assoc_assign [] ms.

Fixpoint parse_value (fuel : nat) (s : list ascii) {struct fuel}
  : option (value * list ascii) :=
  match fuel with
  | O => None
  | S fuel' =>
      match skip_ws s with
      | [] => None
      | c :: r =>
          if Ascii.eqb c "n" then
            match expect (chars "ull") r with
            | Some r' => Some (VNull, r') | None => None end
          else if Ascii.eqb c "t" then
            match expect (chars "rue") r with
            | Some r' => Some (VBool true, r') | None => None end
          else if Ascii.eqb c "f" then
            match expect (chars "alse") r with
            | Some r' => Some (VBool false, r') | None => None end
          else if Ascii.eqb c dquote then
            match parse_string r with
            | Some (str, r') => Some (VStr str, r') | None => None end
          else if Ascii.eqb c "[" then
            match skip_ws r with
            | c' :: r' =>
                if Ascii.eqb c' "]" then Some (VArr [], r')
                else
                  match parse_elements fuel' r with
                  | Some (vs, r'') => Some (VArr vs, r'') | None => None end
            | [] => None
            end
          else if Ascii.eqb c "{" then
            match skip_ws r with
            | c' :: r' =>
                if Ascii.eqb c' "}" then Some (VObj [], r')
                else
                  match parse_members fuel' r with
                  | Some (ms, r'') => Some (VObj (obj_of_members ms), r'')
                  | None => None end
            | [] => None
            end
          else parse_number (c :: r)
      end
  end
with parse_elements (fuel : nat) (s : list ascii) {struct fuel}
  : option (list value * list ascii) :=
  match fuel with
  | O => None
  | S fuel' =>
      match parse_value fuel' s with
      | None => None
      | Some (v, r) =>
          match skip_ws r with
          | c :: r' =>
              if Ascii.eqb c "," then
                match parse_elements fuel' r' with
                | Some (vs, r'') => Some (v :: vs, r'') | None => None end
              else if Ascii.eqb c "]" then Some ([v], r')
              else None
          | [] => None
          end
      end
  end
with parse_members (fuel : nat) (s : list ascii) {struct fuel}
  : option (list (string * value) * list ascii) :=
  match fuel with
  | O => None
  | S fuel' =>
      match skip_ws s with
      | q :: r0 =>
          if Ascii.eqb q dquote then
            match parse_string r0 with
            | None => None
            | Some (k, r1) =>
                match skip_ws r1 with
                | c1 :: r2 =>
                    if Ascii.eqb c1 ":" then
                      match parse_value fuel' r2 with
                      | None => None
                      | Some (v, r3) =>
                          match skip_ws r3 with
                          | c :: r4 =>
                              if Ascii.eqb c "," then
                                match parse_members fuel' r4 with
                                | Some (ms, r5) => Some ((k, v) :: ms, r5)
                                | None => None end
                              else if Ascii.eqb c "}" then Some ([(k, v)], r4)
                              else None
                          | [] => None
                          end
                      end
                    else None
                | [] => None
                end
            end
          else None
      | [] => None
      end
  end.

(* JSON.parse(s); [None] is the SyntaxError.  One step of fuel per
   character is more than the descent needs. *)
Definition parse (s : string) : option value :=
  match parse_value (S (String.length s)) (chars s) with
  | Some (v, r) => if is_nil (skip_ws r) then Some v else None
  | None => None
  end.

(** A value is well formed when no object defines a property twice; these
    are the values of JavaScript objects. *)
Fixpoint wf (v : value) : Prop :=
  match v with
  | VArr l => (fix all (l : list value) : Prop :=
                 match l with [] => True | x :: r => wf x /\ all r end) l
  | VObj ps =>
      NoDup (map fst ps) /\
      (fix all (ps : list (string * value)) : Prop :=
         match ps with [] => True | kv :: r => wf (snd kv) /\ all r end) ps
  | _ => True
  end.

End JSON.


(** * Values in memory

    [JSON.stringify] is given a value in memory, and [JSON.parse] builds
    one.  A value in memory is not always what a JSON text can carry: a
    number in memory is a double, and the doubles [NaN], [Infinity],
    [-Infinity] and [-0] have no text of their own; a property or an
    element may hold [undefined]. *)

Module Memory.

(** A number in memory.  A finite number other than [-0] is given by the
    digits [m] and the exponent [e] of the shortest decimal [m * 10^e]
    that denotes it among the doubles: [Number::toString] writes the
    number from these, and the text that it writes is read back as the
    same number.  An integer below 10^21 has all its digits in [m], and
    [e] is 0; in every other number [m] does not end in 0. *)
Inductive Number :=
| NaN
| Infinity
| NegativeInfinity
| NegativeZero
| Finite (m e : Z).

Definition proper (m e : Z) : bool :=
  if e =? 0 then Z.abs m <? 10 ^ 21 else JSON.shortest m e.

Unset Elimination Schemes.
Inductive Value : Type :=
| Undefined
| Null
| Boolean (b : bool)
| Num (x : Number)
| Str (s : string)
| Array (elems : list Value)
| Object (props : list (string * Value)).
Set Elimination Schemes.

(** SerializeJSONProperty: what [JSON.stringify] makes of a value.  A
    number that is not finite is written as [null], and [-0] as 0.
    [undefined] has no text ([None]): as an element of an array it is
    written as [null], and a property that holds it is left out. *)
Definition carried_number (x : Number) : value :=
  match x with
  | Finite m e => VNum m e
  | NegativeZero => VNum 0 0
  | NaN | Infinity | NegativeInfinity => VNull
  end.

Fixpoint carried (v : Value) : option value :=
  match v with
  | Undefined => None
  | Null => Some VNull
  | Boolean b => Some (VBool b)
  | Num x => Some (carried_number x)
  | Str s => Some (VStr s)
  | Array elems =>
      Some (VArr (map (fun x => match carried x with
                                | Some c => c
                                | None => VNull
                                end) elems))
  | Object props =>
      Some (VObj ((fix members (props : list (string * Value)) :=
                     match props with
                     | [] => []
                     | (k, x) :: rest =>
                         match carried x with
                         | Some c => (k, c) :: members rest
                         | None => members rest
                         end
                     end) props))
  end.

(* The element of an array, the properties of an object. *)
Definition carried_element (x : Value) : value :=
  match carried x with
  | Some c => c
  | None => VNull
  end.

Fixpoint carried_members (props : list (string * Value))
  : list (string * value) :=
  match props with
  | [] => []
  | (k, x) :: rest =>
      match carried x with
      | Some c => (k, c) :: carried_members rest
      | None => carried_members rest
      end
  end.

(** The doubles end below 2^1024.  A decimal at or beyond the middle
    between the largest double and 2^1024 is read as an infinity, and a
    decimal at or below the half of the smallest double, 2^-1075, as a
    zero. *)
Definition overflows (m e : Z) : bool :=
  if 0 <=? e then 2 ^ 1024 - 2 ^ 970 <=? Z.abs m * 10 ^ e
  else (2 ^ 1024 - 2 ^ 970) * 10 ^ (- e) <=? Z.abs m.

Definition underflows (m e : Z) : bool :=
  if 0 <=? e then m =? 0 else Z.abs m * 2 ^ 1075 <=? 10 ^ (- e).

(** The number of a literal with the digits [m] and the exponent [e]: the
    double nearest to [m * 10^e].  Between the two ends it is given here
    by the digits and the exponent of the literal themselves; they are
    its own when the text was written by [JSON.stringify]. *)
Definition built_number (m e : Z) : Number :=
  if overflows m e then (if m <? 0 then NegativeInfinity else Infinity)
  else if underflows m e then (if m <? 0 then NegativeZero else Finite 0 0)
  else Finite m e.

(** What [JSON.parse] builds from what a text carries. *)
Fixpoint built (v : value) : Value :=
  match v with
  | VNull => Null
  | VBool b => Boolean b
  | VNum m e => Num (built_number m e)
  | VStr s => Str s
  | VArr elems => Array (map built elems)
  | VObj props => Object (map (fun kv => (fst kv, built (snd kv))) props)
  end.

(* JSON.parse(text), in memory; [None] is the SyntaxError. *)
Definition parse (text : string) : option Value :=
  option_map built (JSON.parse text).

End Memory.
(** * The data model ([types.ts]) *)

Module Types.

Definition number := Z.

Inductive SectionType :=
| hero | subheading | features | cta_button | body_text
| footer | navigation | testimonial | pricing | form.

Definition SectionType_name (t : SectionType) : string :=
  match t with
  | hero => "hero" | subheading => "subheading" | features => "features"
  | cta_button => "cta_button" | body_text => "body_text"
  | footer => "footer" | navigation => "navigation"
  | testimonial => "testimonial" | pricing => "pricing" | form => "form"
  end.

Inductive ToneType :=
| professional | casual | friendly | authoritative | playful | empathetic.

Definition ToneType_name (t : ToneType) : string :=
  match t with
  | professional => "professional" | casual => "casual"
  | friendly => "friendly" | authoritative => "authoritative"
  | playful => "playful" | empathetic => "empathetic"
  end.

Inductive LengthCategory := short | medium | long.

Definition LengthCategory_name (c : LengthCategory) : string :=
  match c with short => "short" | medium => "medium" | long => "long" end.

Record ContentVariant := {
  variant_id : string;
  variant_content : string;
  variant_seoScore : number;
  variant_tone : ToneType;
  variant_lengthCategory : LengthCategory;
  variant_predictedCTR : option number;
  variant_reasoning : string
}.

Record Position := { x : number; y : number; width : number; height : number }.

Record DetectedSection := {
  id : string;
  type : SectionType;
  label : string;
  position : Position;
  currentContent : option string;
  suggestedContent : string;
  contentVariants : option (list ContentVariant);
  seoScore : number;
  keywords : list string;
  characterCount : number;
  readabilityScore : option number;
  sentimentScore : option number;
  brandVoiceMatch : option number;
  technicalSeoIssues : option (list string);
  accessibilityIssues : option (list string)
}.

Record CompetitorInsight := {
  competitorName : string;
  strengths : list string;
  weaknesses : list string;
  uniqueDifferentiators : list string;
  keywordGaps : list string
}.

Inductive SentenceStructure := simple | complex | mixed.

Record BrandVoiceProfile := {
  voice_tone : ToneType;
  vocabulary : list string;
  sentenceStructure : SentenceStructure;
  formalityLevel : number;
  targetReadingLevel : number;
  avoidWords : list string
}.

Record TechnicalSEO := {
  metaTitle : option string;
  metaDescription : option string;
  h1Tags : list string;
  imageAltTexts : list string;
  schemaMarkup : option string;
  internalLinks : list string;
  canonicalUrl : option string;
  robotsDirective : option string
}.

Record BrandVoiceAnalysis := {
  detectedTone : ToneType;
  consistency : number;
  suggestions : list string
}.

Record CoreWebVitals := { lcp : string; fid : string; cls : string }.

Record PerformanceMetrics := {
  estimatedLoadTime : number;
  mobileOptimization : number;
  coreWebVitals : CoreWebVitals
}.

Record AnalysisResult := {
  sections : list DetectedSection;
  overallSeoScore : number;
  recommendations : list string;
  pageType : string;
  imageUrl : string;
  imageFileName : option string;
  timestamp : option number;
  technicalSeo : option TechnicalSEO;
  competitorInsights : option (list CompetitorInsight);
  brandVoiceAnalysis : option BrandVoiceAnalysis;
  performanceMetrics : option PerformanceMetrics
}.

(* AnalysisHistory['config'] *)
Record HistoryConfig := {
  websiteUrl : string;
  config_keywords : list string;
  targetAudience : string
}.

Record AnalysisHistory := {
  history_id : string;
  result : AnalysisResult;
  history_timestamp : number;
  config : HistoryConfig
}.

(** ** The JavaScript object behind a typed value

    Properties come in the order of the type's declaration; an optional
    property that is [None] is absent. *)

Class ToJS (A : Type) := to_js : A -> value.

#[export] Instance number_to_js : ToJS number := VInt.
#[export] Instance string_to_js : ToJS string := VStr.
#[export] Instance bool_to_js : ToJS bool := VBool.
#[export] Instance list_to_js {A} `{ToJS A} : ToJS (list A) :=
  fun l => VArr (map to_js l).

Definition req {A} `{ToJS A} (k : string) (a : A) : string * option value :=
  (k, Some (to_js a)).

Definition opt {A} `{ToJS A} (k : string) (a : option A)
  : string * option value :=
  (k, option_map to_js a).

#[export] Instance SectionType_to_js : ToJS SectionType :=
  fun t => VStr (SectionType_name t).
#[export] Instance ToneType_to_js : ToJS ToneType :=
  fun t => VStr (ToneType_name t).
#[export] Instance LengthCategory_to_js : ToJS LengthCategory :=
  fun c => VStr (LengthCategory_name c).

#[export] Instance ContentVariant_to_js : ToJS ContentVariant := fun v =>
  obj [req "id" (variant_id v); req "content" (variant_content v);
       req "seoScore" (variant_seoScore v); req "tone" (variant_tone v);
       req "lengthCategory" (variant_lengthCategory v);
       opt "predictedCTR" (variant_predictedCTR v);
       req "reasoning" (variant_reasoning v)].

#[export] Instance Position_to_js : ToJS Position := fun p =>
  obj [req "x" (x p); req "y" (y p); req "width" (width p);
       req "height" (height p)].

#[export] Instance DetectedSection_to_js : ToJS DetectedSection := fun s =>
  obj [req "id" (id s); req "type" (type s); req "label" (label s);
       req "position" (position s);
       opt "currentContent" (currentContent s);
       req "suggestedContent" (suggestedContent s);
       opt "contentVariants" (contentVariants s);
       req "seoScore" (seoScore s); req "keywords" (keywords s);
       req "characterCount" (characterCount s);
       opt "readabilityScore" (readabilityScore s);
       opt "sentimentScore" (sentimentScore s);
       opt "brandVoiceMatch" (brandVoiceMatch s);
       opt "technicalSeoIssues" (technicalSeoIssues s);
       opt "accessibilityIssues" (accessibilityIssues s)].

#[export] Instance CompetitorInsight_to_js : ToJS CompetitorInsight := fun c =>
  obj [req "competitorName" (competitorName c);
       req "strengths" (strengths c); req "weaknesses" (weaknesses c);
       req "uniqueDifferentiators" (uniqueDifferentiators c);
       req "keywordGaps" (keywordGaps c)].

#[export] Instance TechnicalSEO_to_js : ToJS TechnicalSEO := fun t =>
  obj [opt "metaTitle" (metaTitle t);
       opt "metaDescription" (metaDescription t);
       req "h1Tags" (h1Tags t); req "imageAltTexts" (imageAltTexts t);
       opt "schemaMarkup" (schemaMarkup t);
       req "internalLinks" (internalLinks t);
       opt "canonicalUrl" (canonicalUrl t);
       opt "robotsDirective" (robotsDirective t)].

#[export] Instance BrandVoiceAnalysis_to_js : ToJS BrandVoiceAnalysis := fun b =>
  obj [req "detectedTone" (detectedTone b);
       req "consistency" (consistency b);
       req "suggestions" (suggestions b)].

#[export] Instance CoreWebVitals_to_js : ToJS CoreWebVitals := fun c =>
  obj [req "lcp" (lcp c); req "fid" (fid c); req "cls" (cls c)].

#[export] Instance PerformanceMetrics_to_js : ToJS PerformanceMetrics := fun p =>
  obj [req "estimatedLoadTime" (estimatedLoadTime p);
       req "mobileOptimization" (mobileOptimization p);
       req "coreWebVitals" (coreWebVitals p)].

#[export] Instance AnalysisResult_to_js : ToJS AnalysisResult := fun a =>
  obj [req "sections" (sections a);
       req "overallSeoScore" (overallSeoScore a);
       req "recommendations" (recommendations a);
       req "pageType" (pageType a); req "imageUrl" (imageUrl a);
       opt "imageFileName" (imageFileName a);
       opt "timestamp" (timestamp a);
       opt "technicalSeo" (technicalSeo a);
       opt "competitorInsights" (competitorInsights a);
       opt "brandVoiceAnalysis" (brandVoiceAnalysis a);
       opt "performanceMetrics" (performanceMetrics a)].

#[export] Instance HistoryConfig_to_js : ToJS HistoryConfig := fun c =>
  obj [req "websiteUrl" (websiteUrl c);
       req "keywords" (config_keywords c);
       req "targetAudience" (targetAudience c)].

#[export] Instance AnalysisHistory_to_js : ToJS AnalysisHistory := fun h =>
  obj [req "id" (history_id h); req "result" (result h);
       req "timestamp" (history_timestamp h); req "config" (config h)].

End Types.

Import Types.

(** * The persistence layer ([utils/storageUtils.ts]) *)

Module StorageUtils.

(** ** localStorage *)

Abbreviation Storage := (gmap string string).

Definition getItem (k : string) (ls : Storage) : option string := ls !! k.
Definition setItem (k v : string) (ls : Storage) : Storage := <[k := v]> ls.

Module STORAGE_KEYS.
Definition ANALYSIS_HISTORY : string := "vcm_analysis_history".
Definition BRAND_VOICE : string := "vcm_brand_voice".
Definition PREFERENCES : string := "vcm_preferences".
Definition RECENT_KEYWORDS : string := "vcm_recent_keywords".
Definition RECENT_AUDIENCES : string := "vcm_recent_audiences".
End STORAGE_KEYS.

(** ** Analysis history *)

(* [data ? JSON.parse(data) : []], and [[]] when parsing throws.  The
   result is typed [AnalysisHistory[]] but is whatever the stored text
   denotes. *)
Definition getAnalysisHistory (ls : Storage) : value :=
  match getItem STORAGE_KEYS.ANALYSIS_HISTORY ls with
  | Some data =>
      if String.eqb data "" then VArr []
      else match JSON.parse data with
           | Some history => history
           | None => VArr []
           end
  | None => VArr []
  end.

(** What the environment answers during one call of
    [saveAnalysisToHistory]: [Date.now()] for the id,
    [Math.random().toString(36).slice(2, 9)], and [Date.now()] for the
    timestamp. *)
Record SaveEnv := {
  now_id : number;
  random_suffix : string;
  now_timestamp : number
}.

Definition newEntry (result : AnalysisResult) (config : HistoryConfig)
    (env : SaveEnv) : AnalysisHistory :=
  {| history_id :=
       "analysis_" +:+ Number_toString (now_id env) +:+ "_"
         +:+ random_suffix env;
     result := result;
     history_timestamp := now_timestamp env;
     config := config |}.

(* [history.unshift] exists on arrays only: on anything else the call
   throws, the [catch] logs, and nothing is stored. *)
Definition saveAnalysisToHistory (result : AnalysisResult)
    (config : HistoryConfig) (env : SaveEnv) (ls : Storage) : Storage :=
  match getAnalysisHistory ls with
  | VArr history =>
      (* history.unshift(newEntry) *)
      let history := to_js (newEntry result config env) :: history in
      (* Keep only last 50 analyses *)
      let history :=
        if (50 <? length history)%nat then take 50 history else history in
      setItem STORAGE_KEYS.ANALYSIS_HISTORY (JSON.stringify (VArr history)) ls
  | _ => ls
  end.

(** ** User preferences *)

Inductive PreferredFormat :=
| format_markdown | format_json | format_html | format_csv.

Inductive Theme := theme_dark | theme_light | theme_auto.

Record UserPreferences := {
  autoSaveHistory : bool;
  defaultExportFormat : PreferredFormat;
  enableVariants : bool;
  variantCount : number;
  theme : Theme;
  showAdvancedMetrics : bool;
  autoLoadBrandVoice : bool
}.

(** An optional property [k?: T] of an object type: the object leaves it
    out, or it has the property, whose value is of type [T | undefined]. *)
Inductive optional (T : Type) :=
| left_out
| set_undefined
| set_to (v : T).

Arguments left_out {T}.
Arguments set_undefined {T}.
Arguments set_to {T}.

(* Partial<UserPreferences> *)
Record PartialUserPreferences := {
  some_autoSaveHistory : optional bool;
  some_defaultExportFormat : optional PreferredFormat;
  some_enableVariants : optional bool;
  some_variantCount : optional number;
  some_theme : optional Theme;
  some_showAdvancedMetrics : optional bool;
  some_autoLoadBrandVoice : optional bool
}.

#[export] Instance PreferredFormat_to_js : ToJS PreferredFormat := fun f =>
  VStr match f with
       | format_markdown => "markdown" | format_json => "json"
       | format_html => "html" | format_csv => "csv"
       end.

#[export] Instance Theme_to_js : ToJS Theme := fun t =>
  VStr match t with
       | theme_dark => "dark" | theme_light => "light" | theme_auto => "auto"
       end.

(* The own property that an optional property makes, if any; its value
   [None] is [undefined]. *)
Definition own {T} `{ToJS T} (k : string) (p : optional T)
  : list (string * option value) :=
  match p with
  | left_out => []
  | set_undefined => [(k, None)]
  | set_to v => [(k, Some (to_js v))]
  end.

(* The own properties of a partial record. *)
Definition preference_fields (p : PartialUserPreferences)
  : list (string * option value) :=
  own "autoSaveHistory" (some_autoSaveHistory p)
  ++ own "defaultExportFormat" (some_defaultExportFormat p)
  ++ own "enableVariants" (some_enableVariants p)
  ++ own "variantCount" (some_variantCount p)
  ++ own "theme" (some_theme p)
  ++ own "showAdvancedMetrics" (some_showAdvancedMetrics p)
  ++ own "autoLoadBrandVoice" (some_autoLoadBrandVoice p).

#[export] Instance UserPreferences_to_js : ToJS UserPreferences := fun p =>
  obj [req "autoSaveHistory" (autoSaveHistory p);
       req "defaultExportFormat" (defaultExportFormat p);
       req "enableVariants" (enableVariants p);
       req "variantCount" (variantCount p);
       req "theme" (theme p);
       req "showAdvancedMetrics" (showAdvancedMetrics p);
       req "autoLoadBrandVoice" (autoLoadBrandVoice p)].

Definition DEFAULT_PREFERENCES : UserPreferences :=
  {| autoSaveHistory := true;
     defaultExportFormat := format_markdown;
     enableVariants := true;
     variantCount := 3;
     theme := theme_dark;
     showAdvancedMetrics := true;
     autoLoadBrandVoice := true |}.

(* { ...a, ...b }: a fresh object that receives the own properties of
   each source in turn. *)
Definition spread (sources : list value) : value :=
  VObj (fold_left (fun o v => assoc_assign o (own_props v)) sources []).

(* Typed [UserPreferences]; what comes back is the defaults overlaid with
   whatever the stored text denotes. *)
Definition getPreferences (ls : Storage) : value :=
  match getItem STORAGE_KEYS.PREFERENCES ls with
  | Some data =>
      if String.eqb data "" then to_js DEFAULT_PREFERENCES
      else match JSON.parse data with
           | Some stored => spread [to_js DEFAULT_PREFERENCES; stored]
           | None => to_js DEFAULT_PREFERENCES
           end
  | None => to_js DEFAULT_PREFERENCES
  end.

(* [{ ...a, ...b }] where properties of [b] may hold [undefined]: such a
   property is copied like any other. *)
Definition spread_over (a : value) (b : list (string * option value))
  : list (string * option value) :=
  assoc_assign (map (fun kv => (fst kv, Some (snd kv))) (own_props a)) b.

(* [JSON.stringify] then leaves out the properties that hold
   [undefined]. *)
Definition savePreferences (preferences : PartialUserPreferences)
    (ls : Storage) : Storage :=
  let current := getPreferences ls in
  let updated := spread_over current (preference_fields preferences) in
  setItem STORAGE_KEYS.PREFERENCES (JSON.stringify (obj updated)) ls.

(** ** Compare two analyses *)

Record Comparison := {
  seoScoreDelta : number;
  sectionsAdded : list string;
  sectionsRemoved : list string;
  sectionsImproved : list string;
  sectionsDeclined : list string;
  overallImprovement : bool
}.

(* new Map(entries) *)
Definition Map_of {V} (entries : list (string * V)) : list (string * V) :=
  assoc_assign [] entries.

Definition section_map (analysis : AnalysisResult)
  : list (string * DetectedSection) :=
  Map_of (map (fun s => (id s, s)) (sections analysis)).

(* The body of [sections1.forEach]: the three lists it pushes to. *)
Definition compare_section (sections2 : list (string * DetectedSection))
    (acc : list string * list string * list string)
    (entry : string * DetectedSection)
  : list string * list string * list string :=
  let '(removed, improved, declined) := acc in
  let '(key, section1) := entry in
  match assoc_get key sections2 with
  | None => (removed ++ [label section1], improved, declined)
  | Some section2 =>
      if seoScore section2 >? seoScore section1
      then (removed, improved ++ [label section2], declined)
      else if seoScore section2 <? seoScore section1
      then (removed, improved, declined ++ [label section2])
      else (removed, improved, declined)
  end.

Definition compareAnalyses (analysis1 analysis2 : AnalysisResult)
  : Comparison :=
  let seoScoreDelta := overallSeoScore analysis2 - overallSeoScore analysis1 in
  let sections1 := section_map analysis1 in
  let sections2 := section_map analysis2 in
  (* Check for added sections *)
  let sectionsAdded :=
    fold_left
      (fun added entry =>
         if negb (assoc_has (fst entry) sections1)
         then added ++ [label (snd entry)] else added)
      sections2 [] in
  (* Check for removed and changed sections *)
  let '(sectionsRemoved, sectionsImproved, sectionsDeclined) :=
    fold_left (compare_section sections2) sections1 ([], [], []) in
  {| seoScoreDelta := seoScoreDelta;
     sectionsAdded := sectionsAdded;
     sectionsRemoved := sectionsRemoved;
     sectionsImproved := sectionsImproved;
     sectionsDeclined := sectionsDeclined;
     overallImprovement := seoScoreDelta >? 0 |}.

(** ** Import history from JSON *)

(* if (v) localStorage.setItem(key, JSON.stringify(v)) *)
Definition store_if_truthy (k : string) (v : option value) (ls : Storage)
  : Storage :=
  match v with
  | Some x => if truthy v then setItem k (JSON.stringify x) ls else ls
  | None => ls
  end.

(* The result and the storage left behind.  Reading a property of [null]
   throws; what was stored before the throw stays stored. *)
Definition importHistoryFromJSON (jsonString : string) (ls : Storage)
  : bool * Storage :=
  match JSON.parse jsonString with
  | None => (false, ls)
  | Some data =>
      match get_prop data "history" with
      | None => (false, ls)
      | Some history =>
          let ls := store_if_truthy STORAGE_KEYS.ANALYSIS_HISTORY history ls in
          match get_prop data "brandVoice" with
          | None => (false, ls)
          | Some brandVoice =>
              let ls := store_if_truthy STORAGE_KEYS.BRAND_VOICE brandVoice ls in
              match get_prop data "preferences" with
              | None => (false, ls)
              | Some preferences =>
                  (true,
                   store_if_truthy STORAGE_KEYS.PREFERENCES preferences ls)
              end
          end
      end
  end.

End StorageUtils.

Import StorageUtils.

(** * Export formatters ([utils/exportUtils.ts]) *)

Module ExportUtils.

(* JSON.stringify(analysis, null, 2).  [analysis] is an object, given by
   its properties: its type tells which properties it has, not which
   numbers they hold. *)
Definition exportToJSON (analysis : list (string * Memory.Value)) : string :=
  JSON.stringify_indent2 (VObj (Memory.carried_members analysis)).

Definition quoted (s : string) : string :=
  String dquote (replace_all dquote (String dquote (String dquote "")) s)
    +:+ String dquote "".

Definition csv_headers : list string :=
  ["Section"; "Type"; "SEO Score"; "Keywords"; "Character Count"; "Content"].

Definition csv_row (section : DetectedSection) : list string :=
  [label section;
   SectionType_name (type section);
   Number_toString (seoScore section);
   join "; " (keywords section);
   Number_toString (characterCount section);
   quoted (suggestedContent section)].

Definition exportToCSV (analysis : AnalysisResult) : string :=
  let headers := csv_headers in
  let rows := map csv_row (sections analysis) in
  join (String newline "")
    (join "," headers :: map (fun row => join "," row) rows).

End ExportUtils.

Import ExportUtils.

(** * The shortcut dispatcher ([utils/keyboardShortcuts.ts]) *)

Module KeyboardShortcuts.

Inductive Category := general | navigation_ | editing | export.

Record KeyboardShortcut (Action : Type) := {
  key : string;
  ctrl : option bool;
  alt : option bool;
  shift : option bool;
  meta : option bool;
  action : Action;
  description : string;
  category : Category
}.

Arguments key {Action}.
Arguments ctrl {Action}.
Arguments alt {Action}.
Arguments shift {Action}.
Arguments meta {Action}.
Arguments action {Action}.
Arguments description {Action}.
Arguments category {Action}.

Record HTMLElement := { tagName : string; isContentEditable : bool }.

Record KeyboardEvent := {
  event_key : string;
  ctrlKey : bool;
  metaKey : bool;
  altKey : bool;
  shiftKey : bool;
  target : HTMLElement
}.

(* What the handler does to the outside: [event.preventDefault()] and
   the call of an entry's action. *)
Inductive Effect (Action : Type) :=
| PreventDefault
| Invoke (a : Action).

Arguments PreventDefault {Action}.
Arguments Invoke {Action}.

(* An optional flag used as a condition: [undefined] and [false] fail. *)
Definition flag (f : option bool) : bool :=
  match f with Some b => b | None => false end.

Definition matches {Action} (event : KeyboardEvent)
    (shortcut : KeyboardShortcut Action) : bool :=
  let keyMatch :=
    String.eqb (toLowerCase (event_key event)) (toLowerCase (key shortcut)) in
  let ctrlMatch :=
    if flag (ctrl shortcut) then ctrlKey event || metaKey event
    else negb (ctrlKey event) && negb (metaKey event) in
  let altMatch :=
    if flag (alt shortcut) then altKey event else negb (altKey event) in
  let shiftMatch :=
    if flag (shift shortcut) then shiftKey event else negb (shiftKey event) in
  keyMatch && ctrlMatch && altMatch && shiftMatch.

(* for (const shortcut of shortcuts) { if (...) { ...; break; } } *)
Fixpoint dispatch {Action} (event : KeyboardEvent)
    (shortcuts : list (KeyboardShortcut Action)) : list (Effect Action) :=
  match shortcuts with
  | [] => []
  | shortcut :: rest =>
      if matches event shortcut
      then [PreventDefault; Invoke (action shortcut)]
      else dispatch event rest
  end.

Definition is_text_entry (el : HTMLElement) : bool :=
  String.eqb (tagName el) "INPUT" || String.eqb (tagName el) "TEXTAREA"
  || isContentEditable el.

Definition handleKeyDown {Action} (shortcuts : list (KeyboardShortcut Action))
    (enabled : bool) (event : KeyboardEvent) : list (Effect Action) :=
  if negb enabled then []
  (* Don't trigger shortcuts when user is typing in an input/textarea *)
  else if is_text_entry (target event) then []
  else dispatch event shortcuts.

End KeyboardShortcuts.

Import KeyboardShortcuts.

(** * The orchestrators ([services/geminiServiceEnhanced.ts]) *)

Module Service.

Record File := { file_name : string; file_type : string }.

(** An asynchronous call settles: it returns, or it throws. *)
Inductive outcome (A : Type) :=
| Returned (a : A)
| Thrown (error : string).

Arguments Returned {A}.
Arguments Thrown {A}.

(* The argument of [actionAnalyzeScreenshotEnhanced]. *)
Record AnalyzeArgs := {
  imageFile : File;
  args_websiteUrl : string;
  args_keywords : list string;
  args_targetAudience : string;
  brandVoice : option BrandVoiceProfile;
  generateVariants : bool;
  competitorUrls : list string
}.

(* The argument of [ai.models.generateContent], for a text-only call. *)
Record GenerateRequest := {
  model : string;
  prompt_text : string;
  responseMimeType : option string;
  temperature : Q
}.

(** What a run does to the outside, in order: the progress it reports,
    the calls of the single-image analysis and of the model provider, each
    recorded when it settles, and what is written with [console.error]. *)
Inductive Event :=
| Progress (progress : Q) (currentFile : string)
| Analyze (args : AnalyzeArgs) (out : outcome AnalysisResult)
| Generate (request : GenerateRequest) (out : outcome string)
| ConsoleError (message : string) (error : string).

(** The ways in which the single-image analysis ends (the function is
    embedded on its own in [AnalysisClient] below).  It returns the
    analysis; or the image file cannot be read, and what the reader
    rejected with is thrown as it is; or something is thrown after
    that, inside the [try]: the function catches it, writes it to the
    console, and throws an [Error] of its own, made from the message of
    what it caught when that is an [Error] ([message] is [None] when it is
    not). *)
Inductive ending :=
| analysed (result : AnalysisResult)
| unreadable (error : string)
| failed (error : string) (message : option string).

(* What the [catch] of the single-image analysis throws. *)
Definition failure (message : option string) : string :=
  match message with
  | Some message => "Failed to analyze screenshot: " +:+ message
  | None => "An unknown error occurred during analysis."
  end.

Section Orchestrators.

Context {World : Type}.

(** The single-image analysis client and the model provider: each call
    ends one way or the other and may change the world. *)
Variable analysis_client : AnalyzeArgs -> World -> ending * World.
Variable model_provider :
  GenerateRequest -> World -> outcome string * World.

Record State := { world : World; log : list Event }.

Definition init (w : World) : State := {| world := w; log := [] |}.

(** Computations that read and change the state and may throw. *)
Definition M (A : Type) : Type := State -> outcome A * State.

Definition ret {A} (a : A) : M A := fun st => (Returned a, st).

Definition bind {A B} (c : M A) (k : A -> M B) : M B := fun st =>
  match c st with
  | (Returned a, st') => k a st'
  | (Thrown e, st') => (Thrown e, st')
  end.

Definition throw {A} (e : string) : M A := fun st => (Thrown e, st).

Definition try_catch {A} (body : M A) (handler : string -> M A) : M A :=
  fun st =>
    match body st with
    | (Returned a, st') => (Returned a, st')
    | (Thrown e, st') => handler e st'
    end.

Definition emit (ev : Event) : M unit := fun st =>
  (Returned tt, {| world := world st; log := log st ++ [ev] |}).

Notation "x <- c ;; k" := (bind c (fun x => k))
  (at level 62, c at next level, right associativity).
Notation "c ;;; k" := (bind c (fun _ => k))
  (at level 62, right associativity).

Definition console_error (message error : string) : M unit :=
  emit (ConsoleError message error).

Definition actionAnalyzeScreenshotEnhanced (args : AnalyzeArgs)
  : M AnalysisResult := fun st =>
  let '(how, w) := analysis_client args (world st) in
  match how with
  | analysed result =>
      (Returned result,
       {| world := w; log := log st ++ [Analyze args (Returned result)] |})
  | unreadable error =>
      (Thrown error,
       {| world := w; log := log st ++ [Analyze args (Thrown error)] |})
  | failed error message =>
      (Thrown (failure message),
       {| world := w;
          log := log st ++ [ConsoleError "Error calling Gemini API:" error;
                            Analyze args (Thrown (failure message))] |})
  end.

Definition generateContent (request : GenerateRequest) : M string :=
  fun st =>
  let '(out, w) := model_provider request (world st) in
  (out, {| world := w; log := log st ++ [Generate request out] |}).

(** ** Batch analysis for multiple screenshots *)

Record BatchArgs := {
  imageFiles : list File;
  batch_websiteUrl : string;
  batch_keywords : list string;
  batch_targetAudience : string;
  batch_brandVoice : option BrandVoiceProfile;
  onProgress : option (Q -> string -> M unit)
}.

(* (i / imageFiles.length) * 100 *)
Definition percent (i total : nat) : Q :=
  (inject_Z (Z.of_nat i) / inject_Z (Z.of_nat total) * 100)%Q.

Definition report (args : BatchArgs) (progress : Q) (currentFile : string)
  : M unit :=
  match onProgress args with
  | Some callback => callback progress currentFile
  | None => ret tt
  end.

Definition batch_request (args : BatchArgs) (file : File) : AnalyzeArgs :=
  {| imageFile := file;
     args_websiteUrl := batch_websiteUrl args;
     args_keywords := batch_keywords args;
     args_targetAudience := batch_targetAudience args;
     brandVoice := batch_brandVoice args;
     generateVariants := true;
     competitorUrls := [] |}.

(* for (let i = 0; i < imageFiles.length; i++): the iterations from [i]
   on, over the files that remain. *)
Fixpoint batch_loop (args : BatchArgs) (i : nat) (files : list File)
    (results : list AnalysisResult) : M (list AnalysisResult) :=
  match files with
  | [] => ret results
  | file :: rest =>
      report args (percent i (length (imageFiles args))) (file_name file) ;;;
      results <-
        try_catch
          (result <- actionAnalyzeScreenshotEnhanced (batch_request args file) ;;
           ret (results ++ [result]))
          (fun error =>
             (* Continue with next file even if one fails *)
             console_error ("Failed to analyze " +:+ file_name file +:+ ":")
               error ;;;
             ret results) ;;
      batch_loop args (S i) rest results
  end.

Definition actionBatchAnalyze (args : BatchArgs) : M (list AnalysisResult) :=
  results <- batch_loop args 0 (imageFiles args) [] ;;
  report args 100%Q "Completed" ;;;
  ret results.

(** ** Competitor comparison analysis *)

Record ComparisonArgs := {
  yourScreenshot : File;
  competitorScreenshots : list File;
  comparison_websiteUrl : string;
  comparison_keywords : list string;
  comparison_targetAudience : string
}.

Record ComparisonResult := {
  yourAnalysis : AnalysisResult;
  competitorAnalyses : list AnalysisResult;
  insights : value
}.

Definition section_types (analysis : AnalysisResult) : string :=
  join ", " (map (fun s => SectionType_name (type s)) (sections analysis)).

Definition competitor_block (i : nat) (comp : AnalysisResult) : string :=
  "
      Competitor " +:+ Number_toString (Z.of_nat i + 1) +:+ ":
      - SEO Score: " +:+ Number_toString (overallSeoScore comp) +:+ "
      - Sections: " +:+ section_types comp +:+ "
    ".

Definition insights_prompt (yourAnalysis : AnalysisResult)
    (competitorAnalyses : list AnalysisResult) : string :=
  "
    Analyze competitive positioning:

    **Your Page:**
    - SEO Score: " +:+ Number_toString (overallSeoScore yourAnalysis) +:+ "
    - Sections: " +:+ section_types yourAnalysis +:+ "
    - Keywords Used: "
    +:+ join ", " (flat_map keywords (sections yourAnalysis)) +:+ "

    **Competitors:**
    "
    +:+ join (String newline "") (imap competitor_block competitorAnalyses)
    +:+ "

    Provide:
    1. Each competitor's strengths
    2. Each competitor's weaknesses
    3. Your unique differentiators
    4. Keyword gaps to exploit

    Return as JSON array of CompetitorInsight objects.
  ".

Definition insights_request (yourAnalysis : AnalysisResult)
    (competitorAnalyses : list AnalysisResult) : GenerateRequest :=
  {| model := "gemini-2.5-flash";
     prompt_text := insights_prompt yourAnalysis competitorAnalyses;
     responseMimeType := Some "application/json"%string;
     temperature := (7 # 10)%Q |}.

(* [keywords] is accepted and not used. *)
Definition generateCompetitiveInsights (yourAnalysis : AnalysisResult)
    (competitorAnalyses : list AnalysisResult) (keywords : list string)
  : M value :=
  try_catch
    (response <- generateContent
                   (insights_request yourAnalysis competitorAnalyses) ;;
     match JSON.parse (trim response) with
     | None => throw "SyntaxError"
     | Some parsed =>
         (* insights.insights || [] *)
         match get_prop parsed "insights" with
         | None => throw "TypeError"
         | Some (Some found) =>
             ret (if truthy (Some found) then found else VArr [])
         | Some None => ret (VArr [])
         end
     end)
    (fun error =>
       console_error "Failed to generate competitive insights:" error ;;;
       ret (VArr [])).

Definition your_request (args : ComparisonArgs) : AnalyzeArgs :=
  {| imageFile := yourScreenshot args;
     args_websiteUrl := comparison_websiteUrl args;
     args_keywords := comparison_keywords args;
     args_targetAudience := comparison_targetAudience args;
     brandVoice := None;
     generateVariants := true;
     competitorUrls := [] |}.

Definition competitor_request (args : ComparisonArgs) (competitorFile : File)
  : AnalyzeArgs :=
  {| imageFile := competitorFile;
     args_websiteUrl := "Competitor";
     args_keywords := comparison_keywords args;
     args_targetAudience := comparison_targetAudience args;
     brandVoice := None;
     generateVariants := false;
     competitorUrls := [] |}.

(* for (const competitorFile of competitorScreenshots) *)
Fixpoint competitor_loop (args : ComparisonArgs) (files : list File)
    (competitorAnalyses : list AnalysisResult) : M (list AnalysisResult) :=
  match files with
  | [] => ret competitorAnalyses
  | competitorFile :: rest =>
      analysis <- actionAnalyzeScreenshotEnhanced
                    (competitor_request args competitorFile) ;;
      competitor_loop args rest (competitorAnalyses ++ [analysis])
  end.

Definition actionCompetitorComparison (args : ComparisonArgs)
  : M ComparisonResult :=
  (* Analyze your page *)
  yourAnalysis <- actionAnalyzeScreenshotEnhanced (your_request args) ;;
  (* Analyze competitor pages *)
  competitorAnalyses <- competitor_loop args (competitorScreenshots args) [] ;;
  (* Generate competitive insights using AI *)
  insights <- generateCompetitiveInsights yourAnalysis competitorAnalyses
                (comparison_keywords args) ;;
  ret {| yourAnalysis := yourAnalysis;
         competitorAnalyses := competitorAnalyses;
         insights := insights |}.

End Orchestrators.

Arguments State : clear implicits.
Arguments M : clear implicits.
Arguments BatchArgs : clear implicits.

End Service.

Import Service.

(** * The persistence layer, continued ([utils/storageUtils.ts]) *)

Module StorageMore.

Definition removeItem (k : string) (ls : Storage) : Storage := delete k ls.

(* [p === s] for what reading a property gave ([None] is [undefined]) and
   a string [s]. *)
Definition is_string (p : option value) (s : string) : bool :=
  match p with
  | Some (VStr s') => String.eqb s' s
  | _ => false
  end.

(** ** Single records of the history *)

(* history.find(item => item.id === id): the items are visited in order
   up to the first hit; reading [id] of [null] throws. *)
Fixpoint find_by_id (id : string) (history : list value)
  : outcome (option value) :=
  match history with
  | [] => Returned None
  | item :: rest =>
      match get_prop item "id" with
      | None => Thrown "TypeError"
      | Some p =>
          if is_string p id then Returned (Some item) else find_by_id id rest
      end
  end.

(* No [try] here: [find] exists on arrays only, and what the callback
   throws leaves the function. *)
Definition getAnalysisById (id : string) (ls : Storage) : outcome value :=
  match getAnalysisHistory ls with
  | VArr history =>
      match find_by_id id history with
      | Returned found =>
          (* ... || null *)
          Returned (match found with
                    | Some item => if truthy found then item else VNull
                    | None => VNull
                    end)
      | Thrown error => Thrown error
      end
  | _ => Thrown "TypeError"
  end.

(* history.filter(item => item.id !== id): every item is visited; [None]
   when reading [id] of one of them throws. *)
Fixpoint filter_out_id (id : string) (history : list value)
  : option (list value) :=
  match history with
  | [] => Some []
  | item :: rest =>
      match get_prop item "id" with
      | None => None
      | Some p =>
          match filter_out_id id rest with
          | Some kept => Some (if is_string p id then kept else item :: kept)
          | None => None
          end
      end
  end.

(* Whatever is thrown inside the [try] is logged, and nothing is stored. *)
Definition deleteAnalysisFromHistory (id : string) (ls : Storage) : Storage :=
  match getAnalysisHistory ls with
  | VArr history =>
      match filter_out_id id history with
      | Some filtered =>
          setItem STORAGE_KEYS.ANALYSIS_HISTORY
            (JSON.stringify (VArr filtered)) ls
      | None => ls
      end
  | _ => ls
  end.

Definition clearAnalysisHistory (ls : Storage) : Storage :=
  removeItem STORAGE_KEYS.ANALYSIS_HISTORY ls.

(** ** Brand voice *)

#[export] Instance SentenceStructure_to_js : ToJS SentenceStructure := fun s =>
  VStr match s with
       | simple => "simple" | complex => "complex" | mixed => "mixed"
       end.

#[export] Instance BrandVoiceProfile_to_js : ToJS BrandVoiceProfile := fun p =>
  obj [req "tone" (voice_tone p); req "vocabulary" (vocabulary p);
       req "sentenceStructure" (sentenceStructure p);
       req "formalityLevel" (formalityLevel p);
       req "targetReadingLevel" (targetReadingLevel p);
       req "avoidWords" (avoidWords p)].

Definition saveBrandVoice (profile : BrandVoiceProfile) (ls : Storage)
  : Storage :=
  setItem STORAGE_KEYS.BRAND_VOICE (JSON.stringify (to_js profile)) ls.

(* [data ? JSON.parse(data) : null], and [null] when parsing throws. *)
Definition getBrandVoice (ls : Storage) : value :=
  match getItem STORAGE_KEYS.BRAND_VOICE ls with
  | Some data =>
      if String.eqb data "" then VNull
      else match JSON.parse data with
           | Some profile => profile
           | None => VNull
           end
  | None => VNull
  end.

Definition clearBrandVoice (ls : Storage) : Storage :=
  removeItem STORAGE_KEYS.BRAND_VOICE ls.

(** ** Recent keywords and audiences *)

Definition getRecentKeywords (ls : Storage) : value :=
  match getItem STORAGE_KEYS.RECENT_KEYWORDS ls with
  | Some data =>
      if String.eqb data "" then VArr []
      else match JSON.parse data with
           | Some recent => recent
           | None => VArr []
           end
  | None => VArr []
  end.

(* recent.includes(s), on an array *)
Definition includes (s : string) (recent : list value) : bool :=
  existsb (fun item => is_string (Some item) s) recent.

(* [unshift] exists on arrays only.  On a string [includes] searches a
   substring and [unshift] throws; on anything else [includes] throws:
   either way nothing is stored. *)
Definition addRecentKeyword (keyword : string) (ls : Storage) : Storage :=
  match getRecentKeywords ls with
  | VArr recent =>
      if negb (includes keyword recent) then
        (* recent.unshift(keyword) *)
        let recent := VStr keyword :: recent in
        let recent :=
          if (20 <? length recent)%nat then take 20 recent else recent in
        setItem STORAGE_KEYS.RECENT_KEYWORDS (JSON.stringify (VArr recent)) ls
      else ls
  | _ => ls
  end.

Definition getRecentAudiences (ls : Storage) : value :=
  match getItem STORAGE_KEYS.RECENT_AUDIENCES ls with
  | Some data =>
      if String.eqb data "" then VArr []
      else match JSON.parse data with
           | Some recent => recent
           | None => VArr []
           end
  | None => VArr []
  end.

Definition addRecentAudience (audience : string) (ls : Storage) : Storage :=
  match getRecentAudiences ls with
  | VArr recent =>
      if negb (includes audience recent) then
        (* recent.unshift(audience) *)
        let recent := VStr audience :: recent in
        let recent :=
          if (10 <? length recent)%nat then take 10 recent else recent in
        setItem STORAGE_KEYS.RECENT_AUDIENCES (JSON.stringify (VArr recent)) ls
      else ls
  | _ => ls
  end.

(** ** Export history as batch *)

(* [now] is what [Date.now()] answers. *)
Definition exportHistoryAsJSON (now : number) (ls : Storage) : string :=
  let history := getAnalysisHistory ls in
  let brandVoice := getBrandVoice ls in
  let preferences := getPreferences ls in
  JSON.stringify_indent2
    (VObj [("exportedAt", to_js now);
           ("version", VStr "1.0");
           ("history", history);
           ("brandVoice", brandVoice);
           ("preferences", preferences)]).

End StorageMore.

Import StorageMore.

(** * Shortcut labels and the default shortcuts
      ([utils/keyboardShortcuts.ts]) *)

Module ShortcutsMore.

(** String.prototype.toUpperCase as it acts on a string of ASCII characters
    (the letters a-z change, nothing else does; beyond ASCII the function
    of the engine also changes other letters, and the length), and
    String.prototype.includes. *)
Definition upper_char (c : ascii) : ascii :=
  let n := nat_of_ascii c in
  if (Nat.leb 97 n && Nat.leb n 122)%bool then ascii_of_nat (n - 32) else c.

Fixpoint toUpperCase (s : string) : string :=
  match s with
  | EmptyString => EmptyString
  | String c r => String (upper_char c) (toUpperCase r)
  end.

Fixpoint str_includes (s sub : string) : bool :=
  String.prefix sub s
  || match s with
     | EmptyString => false
     | String _ r => str_includes r sub
     end.

(* Format shortcut for display *)
Definition formatShortcut {Action} (shortcut : KeyboardShortcut Action)
  : string :=
  let parts : list string := [] in
  let parts := if flag (ctrl shortcut) then parts ++ ["Ctrl"] else parts in
  let parts := if flag (alt shortcut) then parts ++ ["Alt"] else parts in
  let parts := if flag (shift shortcut) then parts ++ ["Shift"] else parts in
  let parts := if flag (meta shortcut) then parts ++ ["⌘"] else parts in
  let parts := parts ++ [toUpperCase (key shortcut)] in
  join "+" parts.

(* [platform] is [navigator.platform]. *)
Definition getModifierKey (platform : string) : string :=
  if str_includes (toLowerCase platform) "mac" then "⌘" else "Ctrl".

(** The actions that the caller supplies; each may be left out. *)
Record DefaultActions (Action : Type) := {
  analyze : option Action;
  export_ : option Action;
  copy : option Action;
  nextSection : option Action;
  prevSection : option Action;
  toggleHistory : option Action;
  toggleSettings : option Action;
  newAnalysis : option Action;
  toggleHelp : option Action;
  search : option Action
}.

Arguments analyze {Action}.
Arguments export_ {Action}.
Arguments copy {Action}.
Arguments nextSection {Action}.
Arguments prevSection {Action}.
Arguments toggleHistory {Action}.
Arguments toggleSettings {Action}.
Arguments newAnalysis {Action}.
Arguments toggleHelp {Action}.
Arguments search {Action}.

(* [noop] is the function [() => {}], which does nothing. *)
Definition getDefaultShortcuts {Action} (noop : Action)
    (actions : DefaultActions Action) : list (KeyboardShortcut Action) :=
  let or_noop (a : option Action) := default noop a in
  [ (* General *)
    {| key := "Enter"; ctrl := Some true; alt := None; shift := None;
       meta := None; action := or_noop (analyze actions);
       description := "Start analysis"; category := general |};
    {| key := "n"; ctrl := Some true; alt := None; shift := None;
       meta := None; action := or_noop (newAnalysis actions);
       description := "New analysis"; category := general |};
    {| key := "k"; ctrl := Some true; alt := None; shift := None;
       meta := None; action := or_noop (search actions);
       description := "Search / Command palette"; category := general |};
    {| key := "/"; ctrl := Some false; alt := None; shift := None;
       meta := None; action := or_noop (toggleHelp actions);
       description := "Show keyboard shortcuts"; category := general |};
    (* Navigation *)
    {| key := "j"; ctrl := Some false; alt := None; shift := None;
       meta := None; action := or_noop (nextSection actions);
       description := "Next section"; category := navigation_ |};
    {| key := "k"; ctrl := Some false; alt := None; shift := None;
       meta := None; action := or_noop (prevSection actions);
       description := "Previous section"; category := navigation_ |};
    {| key := "h"; ctrl := Some true; alt := None; shift := None;
       meta := None; action := or_noop (toggleHistory actions);
       description := "Toggle history panel"; category := navigation_ |};
    {| key := ","; ctrl := Some true; alt := None; shift := None;
       meta := None; action := or_noop (toggleSettings actions);
       description := "Open settings"; category := navigation_ |};
    (* Editing *)
    {| key := "c"; ctrl := Some true; alt := None; shift := Some true;
       meta := None; action := or_noop (copy actions);
       description := "Copy current section content"; category := editing |};
    (* Export *)
    {| key := "e"; ctrl := Some true; alt := None; shift := None;
       meta := None; action := or_noop (export_ actions);
       description := "Export analysis"; category := export |};
    {| key := "s"; ctrl := Some true; alt := None; shift := None;
       meta := None; action := or_noop (export_ actions);
       description := "Save / Export"; category := export |} ].

End ShortcutsMore.

Import ShortcutsMore.

(** * The analysis of one screenshot
      ([actionAnalyzeScreenshotEnhanced], [services/geminiServiceEnhanced.ts])

    The orchestrators above take this function as a client that ends in
    one of three ways; here is what it does itself.  The file reader,
    the model provider, [URL.createObjectURL] and the clock are
    operations of the world; the messages of the errors that [JSON.parse]
    and the reading of a property of [undefined] throw are the
    engine's. *)

Module AnalysisClient.

(** What is thrown: an instance of [Error] with its message, or another
    value. *)
Inductive thrown :=
| an_Error (message : string)
| not_an_Error (what : string).

(** A promise settles. *)
Inductive settled (A : Type) :=
| resolved (a : A)
| rejected (error : thrown).

Arguments resolved {A}.
Arguments rejected {A}.

Record InlineData := { data : option string; mimeType : string }.

(* The response schemas are constants of the module, passed on as they
   are. *)
Inductive Schema := enhancedAnalysisSchema.

(* The argument of [ai.models.generateContent]: the model, the two parts
   of the contents, the configuration. *)
Record AnalysisRequest := {
  request_model : string;
  inlineData : InlineData;
  request_text : string;
  request_responseMimeType : string;
  request_responseSchema : Schema;
  request_temperature : Q
}.

Inductive ClientEvent :=
| Read (file : File)
| Asked (request : AnalysisRequest)
| Logged (message : string) (error : thrown).

Definition SentenceStructure_name (s : SentenceStructure) : string :=
  match s with
  | simple => "simple" | complex => "complex" | mixed => "mixed"
  end.

(* s.split(c) *)
Fixpoint split (c : ascii) (s : string) : list string :=
  match s with
  | EmptyString => [EmptyString]
  | String x r =>
      if Ascii.eqb x c then EmptyString :: split c r
      else match split c r with
           | first :: others => String x first :: others
           | [] => [String x EmptyString]
           end
  end.

Definition brand_voice_context (brandVoice : option BrandVoiceProfile)
  : string :=
  match brandVoice with
  | Some brandVoice =>
      "
      **Brand Voice Guidelines:**
      - Tone: "
      +:+ ToneType_name (voice_tone brandVoice)
      +:+ "
      - Formality Level: "
      +:+ Number_toString (formalityLevel brandVoice)
      +:+ "/10
      - Target Reading Level: Grade "
      +:+ Number_toString (targetReadingLevel brandVoice)
      +:+ "
      - Sentence Structure: "
      +:+ SentenceStructure_name (sentenceStructure brandVoice)
      +:+ "
      - Preferred Vocabulary: "
      +:+ join ", " (vocabulary brandVoice)
      +:+ "
      - Words to Avoid: "
      +:+ join ", " (avoidWords brandVoice)
      +:+ "
      "
  | None => ""
  end.

Definition competitor_context (competitorUrls : list string) : string :=
  if (0 <? length competitorUrls)%nat
  then "**Competitor Context:** Differentiate from these competitors: "
       +:+ join ", " competitorUrls
  else "".

Definition analysis_prompt (args : AnalyzeArgs) : string :=
  let websiteUrl := args_websiteUrl args in
  let targetAudience := args_targetAudience args in
  let keywords := args_keywords args in
  let generateVariants := generateVariants args in
  let brandVoiceContext := brand_voice_context (brandVoice args) in
  let competitorContext := competitor_context (competitorUrls args) in
  "
      You are an expert UI/UX analyst, SEO specialist, and conversion copywriter. Perform a COMPREHENSIVE analysis of this website screenshot.

      **Context:**
      - Website URL: "
  +:+ (if String.eqb websiteUrl "" then "Not provided" else websiteUrl)
  +:+ "
      - Target Audience: "
  +:+ targetAudience
  +:+ "
      - SEO Keywords: "
  +:+ join ", " keywords
  +:+ "
      "
  +:+ brandVoiceContext
  +:+ "
      "
  +:+ competitorContext
  +:+ "

      **Your Mission:**

      1. **Visual Analysis** - Detect ALL content sections (hero, subheading, features, CTA buttons, testimonials, forms, footer, navigation, pricing, body text).

      2. **Content Generation** - For EACH section:
         - Extract current content (if visible text exists)
         - Generate PRIMARY SEO-optimized content
         "
  +:+ (if generateVariants then "- Generate 3-5 CONTENT VARIANTS with different:" else "")
  +:+ "
         "
  +:+ (if generateVariants then "  * Tones: professional, casual, friendly, authoritative, playful, empathetic" else "")
  +:+ "
         "
  +:+ (if generateVariants then "  * Lengths: short (concise), medium (balanced), long (detailed)" else "")
  +:+ "
         "
  +:+ (if generateVariants then "  * Each variant should have predicted CTR and reasoning" else "")
  +:+ "
         - Calculate readability score (Flesch Reading Ease)
         - Analyze sentiment (-1 to 1 scale)
         - Assess brand voice match (0-100)
         - Identify technical SEO issues
         - Flag accessibility concerns

      3. **Technical SEO Audit**:
         - Suggest optimized meta title (50-60 chars)
         - Suggest meta description (150-160 chars)
         - Recommend H1 tag structure
         - Generate alt texts for visible images
         - Create JSON-LD schema markup
         - Suggest internal linking strategy

      4. **Brand Voice Analysis**:
         - Detect current tone from existing content
         - Assess voice consistency across sections
         - Provide actionable improvement suggestions

      5. **Performance Predictions**:
         - Estimate page load time based on visual complexity
         - Score mobile optimization (0-100)
         - Assess Core Web Vitals (LCP, FID, CLS)

      6. **Comprehensive Recommendations**:
         - 5-10 prioritized, actionable SEO improvements
         - Conversion optimization tactics
         - Accessibility enhancements
         - Content strategy suggestions

      **Important Guidelines:**
      - Make content SEO-rich but natural (no keyword stuffing)
      - Ensure brand voice consistency if guidelines provided
      - All content should be conversion-focused
      - Prioritize user experience and readability
      - Consider mobile-first design principles
      - Flag any critical issues (accessibility, SEO, UX)

      Return comprehensive analysis in the specified JSON format.
    ".

Section Client.

Context {World : Type}.

(** [reader.readAsDataURL(imageFile)], settled by [onload] with
    [reader.result] or by [onerror]. *)
Variable readAsDataURL : File -> World -> settled string * World.
(** [ai.models.generateContent], settled with [response.text], which is
    [undefined] when the response carries no text. *)
Variable generateContent :
  AnalysisRequest -> World -> settled (option string) * World.
Variable createObjectURL : File -> World -> string * World.
Variable Date_now : World -> number * World.
(** The messages of the [TypeError] for [undefined.trim()] and of the
    [SyntaxError] of [JSON.parse] on a text. *)
Variable TypeError_message : string.
Variable SyntaxError_message : string -> string.

Definition analysis_request (args : AnalyzeArgs) (imageBase64 : option string)
  : AnalysisRequest :=
  {| request_model := "gemini-2.5-flash";
     inlineData := {| data := imageBase64;
                      mimeType := file_type (imageFile args) |};
     request_text := analysis_prompt args;
     request_responseMimeType := "application/json";
     request_responseSchema := enhancedAnalysisSchema;
     request_temperature := (7 # 10)%Q |}.

(* The body of the [try]. *)
Definition call_and_parse (args : AnalyzeArgs) (imageBase64 : option string)
    (w : World) : settled value * World :=
  match generateContent (analysis_request args imageBase64) w with
  | (resolved response_text, w) =>
      match response_text with
      | Some response_text =>
          let jsonText := trim response_text in
          match JSON.parse jsonText with
          | Some result =>
              let '(imageUrl, w) := createObjectURL (imageFile args) w in
              let '(timestamp, w) := Date_now w in
              (resolved
                 (spread [result;
                          VObj [("imageUrl", VStr imageUrl);
                                ("imageFileName",
                                 VStr (file_name (imageFile args)));
                                ("timestamp", VInt timestamp)]]),
               w)
          | None => (rejected (an_Error (SyntaxError_message jsonText)), w)
          end
      | None => (rejected (an_Error TypeError_message), w)
      end
  | (rejected error, w) => (rejected error, w)
  end.

(* The result, the world, and what the call did, in order. *)
Definition actionAnalyzeScreenshotEnhanced (args : AnalyzeArgs) (w : World)
  : settled value * World * list ClientEvent :=
  match readAsDataURL (imageFile args) w with
  | (rejected error, w) => (rejected error, w, [Read (imageFile args)])
  | (resolved result, w) =>
      (* (reader.result as string).split(',')[1] *)
      let imageBase64 := split "," result !! 1%nat in
      match call_and_parse args imageBase64 w with
      | (resolved analysis, w) =>
          (resolved analysis, w,
           [Read (imageFile args);
            Asked (analysis_request args imageBase64)])
      | (rejected error, w) =>
          (rejected
             match error with
             | an_Error message =>
                 an_Error ("Failed to analyze screenshot: " +:+ message)
             | not_an_Error _ =>
                 an_Error "An unknown error occurred during analysis."
             end,
           w,
           [Read (imageFile args);
            Asked (analysis_request args imageBase64);
            Logged "Error calling Gemini API:" error])
      end
  end.

End Client.

End AnalysisClient.

(** * Refining a content ([actionRefineContent],
      [services/geminiServiceEnhanced.ts]) *)

Module Refinement.

Record RefineContext := {
  sectionType : string;
  context_keywords : list string;
  context_targetAudience : string
}.

Record RefineArgs := {
  originalContent : string;
  userFeedback : string;
  context : RefineContext
}.

Definition refine_prompt (args : RefineArgs) : string :=
  "
    Original content: "
  +:+ String dquote (originalContent args) +:+ String dquote "

    User feedback: "
  +:+ String dquote (userFeedback args) +:+ String dquote "

    Context:
    - Section Type: "
  +:+ sectionType (context args)
  +:+ "
    - Keywords: "
  +:+ join ", " (context_keywords (context args))
  +:+ "
    - Target Audience: "
  +:+ context_targetAudience (context args)
  +:+ "

    Refine the content based on user feedback while maintaining SEO best practices.
    Return ONLY the refined content, no explanations.
  ".

Definition refine_request (args : RefineArgs) : GenerateRequest :=
  {| model := "gemini-2.5-flash";
     prompt_text := refine_prompt args;
     responseMimeType := None;
     temperature := (8 # 10)%Q |}.

Section Refine.

Context {World : Type}.
Variable model_provider :
  GenerateRequest -> World -> outcome string * World.

Definition actionRefineContent (args : RefineArgs) : M World string :=
  try_catch
    (bind (generateContent model_provider (refine_request args))
       (fun response => ret (trim response)))
    (fun error =>
       bind (console_error "Failed to refine content:" error)
         (fun _ => throw error)).

End Refine.

End Refinement.

Import Refinement.

(** * The history panel ([components/HistoryPanel.tsx]) *)

Module HistoryPanel.

(* array.some(f) *)
Definition some {A} (f : A -> bool) (l : list A) : bool := existsb f l.

(* The records that the panel shows for the text of the search field. *)
Definition filteredHistory (filter : string) (history : list AnalysisHistory)
  : list AnalysisHistory :=
  if negb (String.eqb filter "")
  then List.filter
         (fun item =>
            str_includes (toLowerCase (websiteUrl (config item)))
              (toLowerCase filter)
            || some (fun k => str_includes (toLowerCase k) (toLowerCase filter))
                 (config_keywords (config item))
            || str_includes (toLowerCase (targetAudience (config item)))
                 (toLowerCase filter))
         history
  else history.

End HistoryPanel.

Import HistoryPanel.

(** * Statistics over the history ([getAnalysisStatistics],
      [utils/storageUtils.ts]) *)

Module Statistics.

Record KeywordCount := { keyword : string; keyword_count : number }.
Record DateCount := { date : string; date_count : number }.
Record PageTypeCount := { page_type : string; type_count : number }.

Record AnalysisStatistics := {
  totalAnalyses : number;
  averageSeoScore : Q;
  topKeywords : list KeywordCount;
  analysisOverTime : list DateCount;
  topPageTypes : list PageTypeCount
}.

(* counts.set(k, (counts.get(k) || 0) + 1) *)
Definition count_up (counts : list (string * number)) (k : string)
  : list (string * number) :=
  let seen :=
    match assoc_get k counts with
    | Some n => if n =? 0 then 0 else n
    | None => 0
    end in
  assoc_set k (seen + 1) counts.

(** [Array.prototype.sort] with the comparator [(a, b) => b.count -
    a.count].  The sort is stable, and the comparator is an order on
    the counts, which fixes the result: the entries by falling count,
    those of equal count in the order they had.  It is computed here by
    insertion from the right. *)
Fixpoint insert_falling {A} (count : A -> number) (x : A) (sorted : list A)
  : list A :=
  match sorted with
  | [] => [x]
  | y :: rest =>
      if count x <? count y then y :: insert_falling count x rest
      else x :: sorted
  end.

Definition sort_falling {A} (count : A -> number) (l : list A) : list A :=
  fold_right (insert_falling count) [] l.

Section Dates.

(** The two places where the function depends on the locale and on the
    engine: [new Date(t).toLocaleDateString()], and the sort of the days
    with the comparator [new Date(a.date).getTime() - new
    Date(b.date).getTime()], whose result is not fixed when a date text
    does not parse. *)
Variable toLocaleDateString : number -> string.
Variable sort_by_date : list DateCount -> list DateCount.

(* [history] is what [getAnalysisHistory] returned, with the type that the
   source gives it. *)
Definition getAnalysisStatistics (history : list AnalysisHistory)
  : AnalysisStatistics :=
  if (length history =? 0)%nat then
    {| totalAnalyses := 0;
       averageSeoScore := 0;
       topKeywords := [];
       analysisOverTime := [];
       topPageTypes := [] |}
  else
    let totalAnalyses := Z.of_nat (length history) in
    (* The quotient itself; the division of the source gives the double
       nearest to it. *)
    let averageSeoScore :=
      (inject_Z
         (fold_left (fun sum item => (sum + overallSeoScore (result item))%Z)
            history 0%Z)
       / inject_Z totalAnalyses)%Q in
    (* Top keywords *)
    let keywordCounts :=
      fold_left
        (fun counts item =>
           fold_left count_up (config_keywords (config item)) counts)
        history [] in
    let topKeywords :=
      take 10
        (sort_falling keyword_count
           (map (fun '(keyword, count) =>
                   {| keyword := keyword; keyword_count := count |})
              keywordCounts)) in
    (* Analysis over time (group by day) *)
    let dateCounts :=
      fold_left
        (fun counts item =>
           count_up counts (toLocaleDateString (history_timestamp item)))
        history [] in
    let analysisOverTime :=
      sort_by_date
        (map (fun '(date, count) => {| date := date; date_count := count |})
           dateCounts) in
    (* Top page types *)
    let pageTypeCounts :=
      fold_left
        (fun counts item => count_up counts (pageType (result item)))
        history [] in
    let topPageTypes :=
      sort_falling type_count
        (map (fun '(type, count) =>
                {| page_type := type; type_count := count |})
           pageTypeCounts) in
    {| totalAnalyses := totalAnalyses;
       averageSeoScore := averageSeoScore;
       topKeywords := topKeywords;
       analysisOverTime := analysisOverTime;
       topPageTypes := topPageTypes |}.

End Dates.

End Statistics.

Import Statistics.

(** * Facts about JSON texts *)

Module JSONFacts.

Import JSON.

Section value_ind.
Variable P : value -> Prop.
Hypothesis Hnull : P VNull.
Hypothesis Hbool : forall b, P (VBool b).
Hypothesis Hnum : forall m e, P (VNum m e).
Hypothesis Hstr : forall s, P (VStr s).
Hypothesis Harr : forall l, Forall P l -> P (VArr l).
Hypothesis Hobj : forall ps, Forall (fun kv => P (snd kv)) ps -> P (VObj ps).

Fixpoint value_ind (v : value) : P v :=
  match v with
  | VNull => Hnull
  | VBool b => Hbool b
  | VNum m e => Hnum m e
  | VStr s => Hstr s
  | VArr l =>
      Harr l ((fix go (l : list value) : Forall P l :=
                 match l with
                 | [] => @List.Forall_nil _ P
                 | x :: r => @List.Forall_cons _ P x r (value_ind x) (go r)
                 end) l)
  | VObj ps =>
      Hobj ps ((fix go (ps : list (string * value))
                  : Forall (fun kv => P (snd kv)) ps :=
                  match ps with
                  | [] => @List.Forall_nil _ _
                  | kv :: r =>
                      @List.Forall_cons _ _ kv r (value_ind (snd kv)) (go r)
                  end) ps)
  end.
End value_ind.

Lemma wf_arr l : wf (VArr l) <-> Forall wf l.
Proof.
  simpl. induction l as [|x r IH]; [by split|].
  rewrite List.Forall_cons_iff. tauto.
Qed.

Lemma wf_obj ps :
  wf (VObj ps) <-> NoDup (map fst ps) /\ Forall (fun kv => wf (snd kv)) ps.
Proof.
  simpl. apply and_iff_compat_l.
  induction ps as [|x r IH]; [by split|].
  rewrite List.Forall_cons_iff. tauto.
Qed.

(** ** Strings *)

Lemma parse_chars_quote_char c rest :
  parse_chars (quote_char c ++ rest) = prepend [c] (parse_chars rest).
Proof. destruct c as [[] [] [] [] [] [] [] []]; reflexivity. Qed.

Lemma parse_chars_quoted cs rest :
  parse_chars (flat_map quote_char cs ++ dquote :: rest) = Some (cs, rest).
Proof.
  induction cs as [|c cs IH]; [reflexivity|].
  simpl flat_map. rewrite <- app_assoc, parse_chars_quote_char, IH.
  reflexivity.
Qed.

Lemma parse_string_quote s rest :
  match quote s ++ rest with
  | c :: r => c = dquote /\ parse_string r = Some (s, rest)
  | [] => False
  end.
Proof.
  unfold quote. simpl. split; [reflexivity|].
  unfold parse_string. rewrite <- app_assoc. simpl.
  rewrite parse_chars_quoted. unfold chars.
  by rewrite string_of_list_ascii_of_string.
Qed.

(** ** Numbers *)

Definition stops (rest : list ascii) : bool :=
  match rest with
  | [] => true
  | c :: _ =>
      negb (is_digit c || Ascii.eqb c "." || Ascii.eqb c "e" || Ascii.eqb c "E")
  end.

Definition non_digit (rest : list ascii) : bool :=
  match rest with
  | [] => true
  | c :: _ => negb (is_digit c)
  end.

Lemma stops_non_digit rest : stops rest = true -> non_digit rest = true.
Proof.
  destruct rest as [|c r]; [done|]. simpl. by destruct (is_digit c).
Qed.

Lemma digits_of_uint_spec d rest :
  non_digit rest = true ->
  span_digits (digits_of_uint d ++ rest) = (digits_of_uint d, rest)
  /\ uint_of_digits (digits_of_uint d) = d.
Proof.
  intros Hrest.
  assert (Hr : span_digits rest = ([], rest)).
  { destruct rest as [|c r]; [reflexivity|]. simpl in *.
    destruct (is_digit c); [discriminate|reflexivity]. }
  induction d as [|d [IH1 IH2]|d [IH1 IH2]|d [IH1 IH2]|d [IH1 IH2]|d [IH1 IH2]
                  |d [IH1 IH2]|d [IH1 IH2]|d [IH1 IH2]|d [IH1 IH2]|d [IH1 IH2]];
    [by split|..];
    (split;
     [ change (span_digits (digits_of_uint (?D d) ++ rest)) with
         (let '(ds, r') := span_digits (digits_of_uint d ++ rest) in
          (hd "0"%char (digits_of_uint (D d)) :: ds, r'));
       rewrite IH1; reflexivity
     | simpl; rewrite IH2; reflexivity ]).
Qed.

Lemma to_uint_normal p : int_part_ok (digits_of_uint (Pos.to_uint p)) = true.
Proof.
  pose proof (DecimalPos.Unsigned.to_of (Pos.to_uint p)) as Hn.
  rewrite DecimalPos.Unsigned.of_to in Hn. simpl in Hn.
  pose proof (Unsigned.to_uint_nonzero p) as Hz.
  pose proof (nzhead_nonzero (Pos.to_uint p)) as Hh.
  destruct (Pos.to_uint p) as [|d|d|d|d|d|d|d|d|d|d] eqn:E;
    try (simpl; destruct (digits_of_uint d); reflexivity).
  - by destruct (Unsigned.to_uint_nonnil p).
  - exfalso. unfold Decimal.unorm in Hn.
    destruct (Decimal.nzhead (Decimal.D0 d)) eqn:En; try discriminate.
    + apply Hz. by rewrite <- Hn.
    + by apply (Hh u).
Qed.

Lemma digits_head d :
  d <> Decimal.Nil ->
  exists c tl, digits_of_uint d = c :: tl /\ is_digit c = true.
Proof. destruct d; intros H; try (by destruct H); simpl; eauto. Qed.

(* What [print_int] writes and how the parser reads it back. *)
Lemma print_int_spec z :
  exists (neg : bool) d,
    print_int z = (if neg then ["-"%char] else []) ++ digits_of_uint d
    /\ int_part_ok (digits_of_uint d) = true
    /\ (exists c tl, digits_of_uint d = c :: tl /\ is_digit c = true)
    /\ z = (if neg then - Z.of_uint d else Z.of_uint d).
Proof.
  pose proof (DecimalZ.of_to z) as Hz. unfold print_int.
  destruct z as [|p|p]; simpl in *.
  - exists false, (Decimal.D0 Decimal.Nil). repeat split; eauto.
  - exists false, (Pos.to_uint p). repeat split; auto using to_uint_normal.
    apply digits_head, Unsigned.to_uint_nonnil.
  - exists true, (Pos.to_uint p). repeat split; auto using to_uint_normal.
    apply digits_head, Unsigned.to_uint_nonnil.
Qed.

Lemma is_digit_not_minus c : is_digit c = true -> Ascii.eqb c "-" = false.
Proof. destruct c as [[] [] [] [] [] [] [] []]; (reflexivity || discriminate). Qed.

Lemma is_digit_not_plus c : is_digit c = true -> Ascii.eqb c "+" = false.
Proof. destruct c as [[] [] [] [] [] [] [] []]; (reflexivity || discriminate). Qed.

Lemma stops_exponent rest :
  stops rest = true -> parse_exponent rest = Some (0, rest).
Proof.
  destruct rest as [|c r]; [reflexivity|]. simpl.
  destruct (is_digit c), (Ascii.eqb c "."), (Ascii.eqb c "e"), (Ascii.eqb c "E");
    (discriminate || reflexivity).
Qed.

Lemma stops_no_fraction (rest : list ascii) :
  stops rest = true ->
  match rest with
  | c :: r =>
      if Ascii.eqb c "." then
        let '(fs, s3) := span_digits r in
        if is_nil fs then None else Some (fs, s3)
      else Some ([], rest)
  | [] => Some ([], rest)
  end = Some ([], rest).
Proof.
  destruct rest as [|c r]; [reflexivity|]. simpl.
  destruct (is_digit c), (Ascii.eqb c "."); (discriminate || reflexivity).
Qed.

Lemma parse_exponent_minus r :
  parse_exponent ("e"%char :: "-"%char :: r) =
  let '(ds, r2) := span_digits r in
  if is_nil ds then None else Some (- Z.of_uint (uint_of_digits ds), r2).
Proof. reflexivity. Qed.

Lemma parse_exponent_digit c r :
  is_digit c = true ->
  parse_exponent ("e"%char :: c :: r) =
  let '(ds, r2) := span_digits (c :: r) in
  if is_nil ds then None else Some (Z.of_uint (uint_of_digits ds), r2).
Proof. destruct c as [[] [] [] [] [] [] [] []]; (reflexivity || discriminate). Qed.

Lemma parse_int_exponent e rest :
  stops rest = true ->
  parse_exponent ("e"%char :: print_int e ++ rest) = Some (e, rest).
Proof.
  intros Hrest.
  destruct (print_int_spec e) as (neg & d & -> & _ & (c & tl & Hd & Hc) & ->).
  destruct (digits_of_uint_spec d rest (stops_non_digit _ Hrest)) as [Hspan Huint].
  destruct neg; simpl app.
  - rewrite parse_exponent_minus, Hspan, Huint, Hd. reflexivity.
  - revert Hspan. rewrite Hd. simpl app. intros Hspan.
    rewrite (parse_exponent_digit c _ Hc), Hspan. rewrite <- Hd, Huint, Hd.
    reflexivity.
Qed.

Lemma parse_number_minus r :
  parse_number ("-"%char :: r) =
  let '(ds, s2) := span_digits r in
  if negb (int_part_ok ds) then None
  else
    match
      match s2 with
      | c :: r =>
          if Ascii.eqb c "." then
            let '(fs, s3) := span_digits r in
            if is_nil fs then None else Some (fs, s3)
          else Some ([], s2)
      | [] => Some ([], s2)
      end
    with
    | None => None
    | Some (fs, s3) =>
        match parse_exponent s3 with
        | None => None
        | Some (ex, s4) =>
            Some (VNum (- Z.of_uint (uint_of_digits (ds ++ fs)))
                       (ex - Z.of_nat (length fs)), s4)
        end
    end.
Proof. reflexivity. Qed.

Lemma parse_number_digit c r :
  is_digit c = true ->
  parse_number (c :: r) =
  let '(ds, s2) := span_digits (c :: r) in
  if negb (int_part_ok ds) then None
  else
    match
      match s2 with
      | c :: r =>
          if Ascii.eqb c "." then
            let '(fs, s3) := span_digits r in
            if is_nil fs then None else Some (fs, s3)
          else Some ([], s2)
      | [] => Some ([], s2)
      end
    with
    | None => None
    | Some (fs, s3) =>
        match parse_exponent s3 with
        | None => None
        | Some (ex, s4) =>
            Some (VNum (Z.of_uint (uint_of_digits (ds ++ fs)))
                       (ex - Z.of_nat (length fs)), s4)
        end
    end.
Proof. destruct c as [[] [] [] [] [] [] [] []]; (reflexivity || discriminate). Qed.

Lemma parse_number_literal m e rest :
  stops rest = true ->
  parse_number
    ((if Z.eqb e 0 then print_int m else print_int m ++ "e"%char :: print_int e)
     ++ rest)
  = Some (VNum m e, rest).
Proof.
  intros Hrest.
  destruct (print_int_spec m) as (neg & d & Hm & Hok & (c & tl & Hd & Hc) & Hz).
  set (rest' := if Z.eqb e 0 then rest else "e"%char :: print_int e ++ rest).
  assert (Hrest' : non_digit rest' = true).
  { unfold rest'. destruct (Z.eqb e 0); [by apply stops_non_digit|reflexivity]. }
  assert (Hexp : parse_exponent rest' = Some (e, rest)).
  { unfold rest'. destruct (Z.eqb_spec e 0) as [->|_].
    - by apply stops_exponent.
    - by apply parse_int_exponent. }
  assert (Hfrac :
    match rest' with
    | c :: r =>
        if Ascii.eqb c "." then
          let '(fs, s3) := span_digits r in
          if is_nil fs then None else Some (fs, s3)
        else Some ([], rest')
    | [] => Some ([], rest')
    end = Some ([], rest')).
  { unfold rest'. destruct (Z.eqb e 0); [by apply stops_no_fraction|reflexivity]. }
  assert (Htext : (if Z.eqb e 0 then print_int m
                   else print_int m ++ "e"%char :: print_int e) ++ rest
                  = (if neg then ["-"%char] else []) ++ digits_of_uint d ++ rest').
  { unfold rest'. rewrite Hm. destruct (Z.eqb e 0); by rewrite <- ?app_assoc. }
  rewrite Htext. clear Htext.
  destruct (digits_of_uint_spec d rest' Hrest') as [Hspan Huint].
  destruct neg; simpl app.
  - rewrite parse_number_minus, Hspan, Hok. simpl negb. cbv iota.
    rewrite Hfrac, Hexp, app_nil_r, Huint. simpl length.
    by rewrite Z.sub_0_r, Hz.
  - revert Hspan. rewrite Hd. simpl app. intros Hspan.
    rewrite (parse_number_digit c _ Hc), Hspan. rewrite <- Hd, Hok.
    simpl negb. cbv iota.
    rewrite Hfrac, Hexp, app_nil_r, Huint. simpl length.
    by rewrite Z.sub_0_r, Hz.
Qed.

(** *** The decimals that [Number::toString] writes *)

Definition all_digits (ds : list ascii) : Prop :=
  Forall (fun c => is_digit c = true) ds.

Lemma span_digits_app ds rest :
  all_digits ds -> non_digit rest = true ->
  span_digits (ds ++ rest) = (ds, rest).
Proof.
  intros Hds Hrest. induction Hds as [|c ds Hc _ IH]; simpl.
  - destruct rest as [|c r]; [done|]. simpl in *.
    by destruct (is_digit c).
  - by rewrite Hc, IH.
Qed.

Lemma digits_of_uint_digits d : all_digits (digits_of_uint d).
Proof. induction d; simpl; by constructor. Qed.

Lemma all_digits_zeros n : all_digits (replicate n "0"%char).
Proof. induction n; simpl; by constructor. Qed.

Lemma of_uint_zeros n ds :
  Z.of_uint (uint_of_digits (replicate n "0"%char ++ ds))
  = Z.of_uint (uint_of_digits ds).
Proof. induction n as [|n IH]; [done|]. exact IH. Qed.

(* The digits of a positive number. *)
Lemma print_int_pos m :
  0 < m ->
  exists d c tl,
    print_int m = digits_of_uint d /\ digits_of_uint d = c :: tl
    /\ is_digit c = true /\ int_part_ok (digits_of_uint d) = true
    /\ Z.of_uint d = m.
Proof.
  intros Hm. destruct m as [|p|p]; try lia.
  exists (Pos.to_uint p). unfold print_int. simpl.
  destruct (digits_head (Pos.to_uint p) (Unsigned.to_uint_nonnil p))
    as (c & tl & Hd & Hc).
  exists c, tl. repeat split; auto using to_uint_normal.
  pose proof (DecimalZ.of_to (Z.pos p)) as Hz. exact Hz.
Qed.

Lemma print_int_nonneg m :
  0 <= m ->
  exists d,
    print_int m = digits_of_uint d /\ d <> Decimal.Nil /\ Z.of_uint d = m.
Proof.
  intros Hm. destruct m as [|p|p]; try lia.
  - by exists (Decimal.D0 Decimal.Nil).
  - exists (Pos.to_uint p). unfold print_int. simpl.
    split; [done|]. split; [apply Unsigned.to_uint_nonnil|].
    exact (DecimalZ.of_to (Z.pos p)).
Qed.

Lemma parse_exponent_plus r :
  parse_exponent ("e"%char :: "+"%char :: r) =
  let '(ds, r2) := span_digits r in
  if is_nil ds then None else Some (Z.of_uint (uint_of_digits ds), r2).
Proof. reflexivity. Qed.

(* The exponent part, with its sign. *)
Lemma parse_signed_exponent x rest :
  stops rest = true ->
  parse_exponent
    ("e"%char :: (if x <? 0 then "-"%char else "+"%char)
     :: print_int (Z.abs x) ++ rest)
  = Some (x, rest).
Proof.
  intros Hrest.
  destruct (print_int_nonneg (Z.abs x) (Z.abs_nonneg x)) as (d & -> & Hd & Hx).
  destruct (digits_of_uint_spec d rest (stops_non_digit _ Hrest))
    as [Hspan Huint].
  destruct (digits_head d Hd) as (c & tl & Hc & _).
  destruct (Z.ltb_spec x 0).
  - rewrite parse_exponent_minus, Hspan, Huint, Hc. cbn [is_nil].
    f_equal. f_equal. lia.
  - rewrite parse_exponent_plus, Hspan, Huint, Hc. cbn [is_nil].
    f_equal. f_equal. lia.
Qed.

Lemma int_part_ok_take n ds :
  (0 < n)%nat -> int_part_ok ds = true -> int_part_ok (take n ds) = true.
Proof.
  intros Hn. destruct n as [|[|n]]; [lia|..]; destruct ds as [|c [|c' ds]];
    simpl; done.
Qed.

(* What follows the digits before the point. *)
Lemma parse_fraction_point fs rest :
  all_digits fs -> fs <> [] -> non_digit rest = true ->
  parse_fraction ("."%char :: fs ++ rest) = Some (fs, rest).
Proof.
  intros Hfs Hne Hrest. unfold parse_fraction. cbn [Ascii.eqb].
  change (Ascii.eqb "." ".") with true. cbv iota.
  rewrite span_digits_app by done. by destruct fs.
Qed.

Lemma parse_fraction_none rest :
  (match rest with
   | c :: _ => Ascii.eqb c "." = false
   | [] => True
   end) ->
  parse_fraction rest = Some ([], rest).
Proof.
  unfold parse_fraction. destruct rest as [|c r]; [done|]. by intros ->.
Qed.

(* A number from its parts: digits before the point, digits behind it,
   and what follows. *)
Lemma parse_number_parts c ds fs s2 s3 ex s4 :
  is_digit c = true ->
  span_digits (c :: ds ++ s2) = (c :: ds, s2) ->
  int_part_ok (c :: ds) = true ->
  parse_fraction s2 = Some (fs, s3) ->
  parse_exponent s3 = Some (ex, s4) ->
  parse_number (c :: ds ++ s2)
  = Some (VNum (Z.of_uint (uint_of_digits ((c :: ds) ++ fs)))
               (ex - Z.of_nat (length fs)), s4).
Proof.
  intros Hc Hspan Hok Hfrac Hexp.
  rewrite (parse_number_digit c _ Hc), Hspan, Hok. cbn [negb].
  fold (parse_fraction s2). by rewrite Hfrac, Hexp.
Qed.

Lemma parse_number_negative c ds fs s2 s3 ex s4 :
  span_digits (c :: ds ++ s2) = (c :: ds, s2) ->
  int_part_ok (c :: ds) = true ->
  parse_fraction s2 = Some (fs, s3) ->
  parse_exponent s3 = Some (ex, s4) ->
  parse_number ("-"%char :: c :: ds ++ s2)
  = Some (VNum (- Z.of_uint (uint_of_digits ((c :: ds) ++ fs)))
               (ex - Z.of_nat (length fs)), s4).
Proof.
  intros Hspan Hok Hfrac Hexp.
  rewrite parse_number_minus, Hspan, Hok. cbn [negb].
  fold (parse_fraction s2). by rewrite Hfrac, Hexp.
Qed.

(** The text of [print_decimal] is a number literal: digits before the
    point, digits behind it, an exponent. *)
Lemma print_decimal_parts d c tl n rest :
  digits_of_uint d = c :: tl -> is_digit c = true ->
  int_part_ok (digits_of_uint d) = true ->
  (0 < n <= 21 -> n < Z.of_nat (length (digits_of_uint d))) ->
  stops rest = true ->
  exists c' ds fs s2 s3 ex,
    print_decimal (digits_of_uint d) n ++ rest = c' :: ds ++ s2
    /\ is_digit c' = true
    /\ span_digits (c' :: ds ++ s2) = (c' :: ds, s2)
    /\ int_part_ok (c' :: ds) = true
    /\ parse_fraction s2 = Some (fs, s3)
    /\ parse_exponent s3 = Some (ex, rest)
    /\ Z.of_uint (uint_of_digits ((c' :: ds) ++ fs)) = Z.of_uint d
    /\ ex - Z.of_nat (length fs)
       = n - Z.of_nat (length (digits_of_uint d)).
Proof.
  intros Hd Hc Hok Hpoint Hrest.
  pose proof (digits_of_uint_digits d) as Hall.
  pose proof (proj2 (digits_of_uint_spec d [] eq_refl)) as Huint.
  assert (Hnd : non_digit rest = true) by by apply stops_non_digit.
  unfold print_decimal.
  destruct ((0 <? n) && (n <=? 21))%bool eqn:E1.
  - (* the point among the digits *)
    apply andb_true_iff in E1 as [H0%Z.ltb_lt H21%Z.leb_le].
    specialize (Hpoint (conj H0 H21)).
    set (k := Z.to_nat n).
    assert (Hk : (0 < k < length (digits_of_uint d))%nat) by lia.
    pose proof (take_drop k (digits_of_uint d)) as Hsplit.
    assert (Htake : exists ds, take k (digits_of_uint d) = c :: ds).
    { rewrite Hd. destruct k; [lia|]. by eexists. }
    destruct Htake as [ds Htake].
    assert (Hfs : drop k (digits_of_uint d) <> []).
    { intros Hnil. apply (f_equal length) in Hnil.
      rewrite length_drop in Hnil. simpl in Hnil. lia. }
    assert (Hall' : all_digits (take k (digits_of_uint d))
                    /\ all_digits (drop k (digits_of_uint d))).
    { unfold all_digits. rewrite <- Forall_app. by rewrite Hsplit. }
    destruct Hall' as [Hall1 Hall2].
    exists c, ds, (drop k (digits_of_uint d)),
      ("."%char :: drop k (digits_of_uint d) ++ rest), rest, 0.
    rewrite <- app_assoc, Htake. cbn [app].
    split; [done|]. split; [done|]. split.
    { rewrite app_comm_cons, <- Htake. by apply span_digits_app. }
    split.
    { rewrite <- Htake. apply int_part_ok_take; [lia|done]. }
    split; [by apply parse_fraction_point|].
    split; [by apply stops_exponent|]. split.
    { by rewrite app_comm_cons, <- Htake, Hsplit, Huint. }
    rewrite length_drop. lia.
  - destruct ((-6 <? n) && (n <=? 0))%bool eqn:E2.
    + (* behind zeros *)
      apply andb_true_iff in E2 as [H6%Z.ltb_lt H0%Z.leb_le].
      set (zeros := replicate (Z.to_nat (- n)) "0"%char).
      exists "0"%char, [], (zeros ++ digits_of_uint d),
        ("."%char :: (zeros ++ digits_of_uint d) ++ rest), rest, 0.
      cbn [app]. rewrite <- app_assoc.
      split; [done|]. split; [done|]. split; [done|]. split; [done|].
      assert (Hfs : all_digits (zeros ++ digits_of_uint d)).
      { apply Forall_app. split; [apply all_digits_zeros|done]. }
      split.
      { rewrite app_assoc. apply parse_fraction_point; [done| |done].
        rewrite Hd. by destruct zeros. }
      split; [by apply stops_exponent|]. split.
      { change (Z.of_uint (uint_of_digits ("0"%char
                                             :: zeros ++ digits_of_uint d)))
          with (Z.of_uint (uint_of_digits (zeros ++ digits_of_uint d))).
        unfold zeros. by rewrite of_uint_zeros, Huint. }
      rewrite length_app. unfold zeros. rewrite length_replicate. lia.
    + (* with an exponent *)
      rewrite Hd. cbn [app].
      assert (Htl : all_digits tl).
      { rewrite Hd in Hall. by apply Forall_cons in Hall as [_ ?]. }
      set (exponent := "e"%char :: (if n - 1 <? 0 then "-"%char else "+"%char)
                       :: print_int (Z.abs (n - 1)) ++ rest).
      assert (Hexp : parse_exponent exponent = Some (n - 1, rest))
        by by apply parse_signed_exponent.
      exists c, [], tl,
        ((if is_nil tl then [] else "."%char :: tl) ++ exponent), exponent,
        (n - 1).
      split.
      { unfold exponent. cbn [app]. by rewrite <- app_assoc. }
      split; [done|]. split.
      { cbn [span_digits app]. rewrite Hc.
        destruct tl; cbn [is_nil app]; reflexivity. }
      split; [done|]. split.
      { destruct tl as [|c2 tl]; cbn [is_nil app].
        - by apply parse_fraction_none.
        - apply (parse_fraction_point (c2 :: tl) exponent); done. }
      split; [done|]. split.
      { cbn [app]. by rewrite <- Hd, Huint. }
      cbn [length]. lia.
Qed.

Lemma parse_number_shortest m e rest :
  shortest m e = true -> stops rest = true ->
  parse_number
    (((if m <? 0 then ["-"%char] else [])
      ++ print_decimal (print_int (Z.abs m))
           (Z.of_nat (length (print_int (Z.abs m))) + e))
     ++ rest)
  = Some (VNum m e, rest).
Proof.
  intros [Hm He]%andb_true_iff Hrest.
  assert (Hpos : 0 < Z.abs m).
  { apply negb_true_iff, Z.eqb_neq in Hm.
    destruct (Z.eq_dec m 0) as [->|]; [done|lia]. }
  revert He. destruct (print_int_pos _ Hpos) as (d & c & tl & -> & Hd & Hc & Hok & Hz).
  intros He.
  destruct (print_decimal_parts d c tl
              (Z.of_nat (length (digits_of_uint d)) + e) rest Hd Hc Hok)
    as (c' & ds & fs & s2 & s3 & ex & Htext & Hc' & Hspan & Hok' & Hfrac
        & Hexp & Hdigits & Hex); [|done|].
  { intros [_ H21]. apply orb_true_iff in He as [He%Z.ltb_lt|He%Z.ltb_lt]; lia. }
  rewrite <- app_assoc, Htext.
  destruct (Z.ltb_spec m 0); cbn [app].
  - rewrite (parse_number_negative c' ds fs s2 s3 ex rest) by done.
    rewrite Hdigits, Hz, Hex. do 3 f_equal; lia.
  - rewrite (parse_number_parts c' ds fs s2 s3 ex rest) by done.
    rewrite Hdigits, Hz, Hex. do 3 f_equal; lia.
Qed.

Lemma parse_number_print m e rest :
  stops rest = true ->
  parse_number (print_number m e ++ rest) = Some (VNum m e, rest).
Proof.
  intros Hrest. unfold print_number.
  destruct (Z.eqb_spec e 0) as [->|He].
  - exact (parse_number_literal m 0 rest Hrest).
  - destruct (shortest m e) eqn:Hs.
    + by apply parse_number_shortest.
    + pose proof (parse_number_literal m e rest Hrest) as H.
      by rewrite (proj2 (Z.eqb_neq e 0) He) in H.
Qed.

(* A number begins with a digit or with the sign. *)
Lemma print_number_head m e :
  exists c tl,
    print_number m e = c :: tl
    /\ (is_digit c || Ascii.eqb c "-")%bool = true.
Proof.
  unfold print_number.
  assert (Hint : forall z, exists c tl,
            print_int z = c :: tl
            /\ (is_digit c || Ascii.eqb c "-")%bool = true).
  { intros z.
    destruct (print_int_spec z) as (neg & d & -> & _ & (c & tl & -> & Hc) & _).
    destruct neg; simpl; do 2 eexists; (split; [reflexivity|]);
      by rewrite ?Hc. }
  destruct (Z.eqb e 0); [apply Hint|].
  destruct (shortest m e) eqn:Hs.
  - destruct (Z.ltb m 0); [by do 2 eexists|]. cbn [app].
    apply andb_true_iff in Hs as [Hm _].
    assert (Hpos : 0 < Z.abs m).
    { apply negb_true_iff, Z.eqb_neq in Hm.
      destruct (Z.eq_dec m 0) as [->|]; [done|lia]. }
    destruct (print_int_pos _ Hpos) as (d & c & tl & -> & Hd & Hc & _ & _).
    unfold print_decimal. rewrite Hd.
    destruct ((0 <? _) && _)%bool eqn:E1.
    + apply andb_true_iff in E1 as [H0%Z.ltb_lt _].
      destruct (Z.to_nat _) eqn:En; [lia|]. cbn [take app].
      do 2 eexists. split; [reflexivity|]. by rewrite Hc.
    + destruct ((-6 <? _) && _)%bool; do 2 eexists;
        (split; [reflexivity|]); by rewrite ?Hc.
  - destruct (Hint m) as (c & tl & -> & Hc). by do 2 eexists.
Qed.

(** ** White space *)

Definition all_ws (w : list ascii) : Prop := Forall (fun c => is_ws c = true) w.

Lemma skip_ws_app w s : all_ws w -> skip_ws (w ++ s) = skip_ws s.
Proof. induction 1 as [|c w Hc _ IH]; [done|]. simpl. by rewrite Hc. Qed.

Lemma skip_ws_idem s : skip_ws (skip_ws s) = skip_ws s.
Proof.
  induction s as [|c s IH]; [done|]. simpl.
  destruct (is_ws c) eqn:E; [done|]. simpl. by rewrite E.
Qed.

Lemma is_ws_stops c r : is_ws c = true -> stops (c :: r) = true.
Proof. destruct c as [[] [] [] [] [] [] [] []]; (reflexivity || discriminate). Qed.

(* The first character of a serialised value. *)
Definition value_start (c : ascii) : bool :=
  (is_digit c || Ascii.eqb c "-" || Ascii.eqb c "n" || Ascii.eqb c "t"
   || Ascii.eqb c "f" || Ascii.eqb c dquote || Ascii.eqb c "["
   || Ascii.eqb c "{")%bool.

Lemma value_start_skip c r : value_start c = true -> skip_ws (c :: r) = c :: r.
Proof. destruct c as [[] [] [] [] [] [] [] []]; (reflexivity || discriminate). Qed.

Lemma value_start_not_close c :
  value_start c = true -> Ascii.eqb c "]" = false /\ Ascii.eqb c "}" = false.
Proof. destruct c as [[] [] [] [] [] [] [] []]; (by split || discriminate). Qed.

Lemma enclose_head gap ind o c parts :
  exists tl, enclose gap ind o c parts = o :: tl.
Proof. unfold enclose. destruct (is_nil parts); eauto. Qed.

Lemma print_head gap ind v :
  exists c tl, print gap ind v = c :: tl /\ value_start c = true.
Proof.
  destruct v as [|[]|m e|s|l|ps].
  - do 2 eexists. split; reflexivity.
  - do 2 eexists. split; reflexivity.
  - do 2 eexists. split; reflexivity.
  - simpl. destruct (print_number_head m e) as (c & tl & -> & Hc).
    do 2 eexists. split; [reflexivity|].
    unfold value_start. apply orb_true_iff in Hc as [Hc|Hc]; rewrite Hc;
      [done|by rewrite orb_true_r].
  - do 2 eexists. split; reflexivity.
  - change (print gap ind (VArr l)) with
      (enclose gap ind "[" "]" (map (print gap (ind ++ gap)) l)).
    destruct (enclose_head gap ind "[" "]" (map (print gap (ind ++ gap)) l))
      as [tl ->]. do 2 eexists. split; reflexivity.
  - change (print gap ind (VObj ps)) with
      (enclose gap ind "{" "}"
         (map (fun kv => quote (fst kv) ++ ":"%char
              :: (if is_nil gap then [] else [space])
              ++ print gap (ind ++ gap) (snd kv)) ps)).
    destruct (enclose_head gap ind "{" "}"
      (map (fun kv => quote (fst kv) ++ ":"%char
              :: (if is_nil gap then [] else [space])
              ++ print gap (ind ++ gap) (snd kv)) ps)) as [tl ->].
    do 2 eexists. split; reflexivity.
Qed.

(** ** The parser, one step at a time *)

Lemma parse_value_skip fuel s : parse_value fuel (skip_ws s) = parse_value fuel s.
Proof. destruct fuel; [done|]. simpl. by rewrite skip_ws_idem. Qed.

Lemma parse_value_ws fuel w s :
  all_ws w -> parse_value fuel (w ++ s) = parse_value fuel s.
Proof.
  intros Hw. rewrite <- parse_value_skip, skip_ws_app by done.
  apply parse_value_skip.
Qed.

Lemma parse_value_number f c r :
  (is_digit c || Ascii.eqb c "-")%bool = true ->
  parse_value (S f) (c :: r) = parse_number (c :: r).
Proof. destruct c as [[] [] [] [] [] [] [] []]; (reflexivity || discriminate). Qed.

Lemma parse_value_string f r :
  parse_value (S f) (dquote :: r) =
  match parse_string r with
  | Some (str, r') => Some (VStr str, r')
  | None => None
  end.
Proof. reflexivity. Qed.

Lemma parse_value_array f r :
  parse_value (S f) ("["%char :: r) =
  match skip_ws r with
  | c' :: r' =>
      if Ascii.eqb c' "]" then Some (VArr [], r')
      else match parse_elements f r with
           | Some (vs, r'') => Some (VArr vs, r'')
           | None => None
           end
  | [] => None
  end.
Proof. reflexivity. Qed.

Lemma parse_value_object f r :
  parse_value (S f) ("{"%char :: r) =
  match skip_ws r with
  | c' :: r' =>
      if Ascii.eqb c' "}" then Some (VObj [], r')
      else match parse_members f r with
           | Some (ms, r'') => Some (VObj (obj_of_members ms), r'')
           | None => None
           end
  | [] => None
  end.
Proof. reflexivity. Qed.

Lemma parse_elements_step f s :
  parse_elements (S f) s =
  match parse_value f s with
  | None => None
  | Some (v, r) =>
      match skip_ws r with
      | c :: r' =>
          if Ascii.eqb c "," then
            match parse_elements f r' with
            | Some (vs, r'') => Some (v :: vs, r'')
            | None => None
            end
          else if Ascii.eqb c "]" then Some ([v], r')
          else None
      | [] => None
      end
  end.
Proof. reflexivity. Qed.

Lemma parse_members_step f s :
  parse_members (S f) s =
  match skip_ws s with
  | q :: r0 =>
      if Ascii.eqb q dquote then
        match parse_string r0 with
        | None => None
        | Some (k, r1) =>
            match skip_ws r1 with
            | c1 :: r2 =>
                if Ascii.eqb c1 ":" then
                  match parse_value f r2 with
                  | None => None
                  | Some (v, r3) =>
                      match skip_ws r3 with
                      | c :: r4 =>
                          if Ascii.eqb c "," then
                            match parse_members f r4 with
                            | Some (ms, r5) => Some ((k, v) :: ms, r5)
                            | None => None
                            end
                          else if Ascii.eqb c "}" then Some ([(k, v)], r4)
                          else None
                      | [] => None
                      end
                  end
                else None
            | [] => None
            end
        end
      else None
  | [] => None
  end.
Proof. reflexivity. Qed.

(** ** Reading back what was written *)

(* Fuel that suffices to read a value back. *)
Fixpoint need (v : value) : nat :=
  match v with
  | VArr l => S (fold_right (fun x n => S (need x + n)) O l)
  | VObj ps => S (fold_right (fun kv n => S (need (snd kv) + n)) O ps)
  | _ => 1
  end.

Definition need_elems (l : list value) : nat :=
  fold_right (fun x n => S (need x + n)) O l.

Definition need_members (ps : list (string * value)) : nat :=
  fold_right (fun kv n => S (need (snd kv) + n)) O ps.

Definition reads_back (pr : value -> list ascii) (v : value) : Prop :=
  forall rest fuel,
    stops rest = true -> (need v <= fuel)%nat ->
    parse_value fuel (pr v ++ rest) = Some (v, rest).

Lemma closing_stops w c rest :
  all_ws w -> stops (c :: rest) = true -> stops (w ++ c :: rest) = true.
Proof. destruct 1 as [|x w Hx _]; [done|]. intros _. by apply is_ws_stops. Qed.

Lemma parse_elements_print pr opening closing l rest fuel :
  l <> [] -> all_ws opening -> all_ws closing ->
  Forall (reads_back pr) l ->
  (need_elems l <= fuel)%nat ->
  parse_elements fuel
    (opening ++ join (","%char :: opening) (map pr l)
       ++ closing ++ "]"%char :: rest)
  = Some (l, rest).
Proof.
  intros Hne Hop Hcl Hall. revert fuel Hne.
  induction Hall as [|x r Hx Hr IH]; [done|]. intros fuel _ Hfuel.
  destruct fuel as [|f]; [simpl in Hfuel; lia|].
  simpl in Hfuel. fold (need_elems r) in Hfuel.
  rewrite parse_elements_step, parse_value_ws by done.
  destruct r as [|y r].
  - simpl join. rewrite (Hx (closing ++ "]"%char :: rest) f);
      [|by apply closing_stops|lia].
    by rewrite skip_ws_app.
  - change (join (","%char :: opening) (map pr (x :: y :: r))) with
      (pr x ++ ("," :: opening) ++ join (","%char :: opening) (map pr (y :: r)))%char.
    rewrite <- !app_assoc.
    rewrite (Hx _ f); [|reflexivity|lia].
    change (skip_ws (("," :: opening)%char ++ ?t)) with (("," :: opening)%char ++ t).
    simpl app at 1. cbv iota. change (Ascii.eqb "," ",") with true. cbv iota.
    rewrite IH; [done|done|lia].
Qed.

Lemma parse_members_print pr sp opening closing ps rest fuel :
  ps <> [] -> all_ws sp -> all_ws opening -> all_ws closing ->
  Forall (fun kv => reads_back pr (snd kv)) ps ->
  (need_members ps <= fuel)%nat ->
  parse_members fuel
    (opening ++ join (","%char :: opening) (map (print_member sp pr) ps)
       ++ closing ++ "}"%char :: rest)
  = Some (ps, rest).
Proof.
  intros Hne Hsp Hop Hcl Hall. revert fuel Hne.
  induction Hall as [|[k x] r Hx Hr IH]; [done|]. intros fuel _ Hfuel.
  destruct fuel as [|f]; [simpl in Hfuel; lia|].
  simpl in Hfuel, Hx. fold (need_members r) in Hfuel.
  rewrite parse_members_step, skip_ws_app by done.
  assert (Hkey : forall t,
    skip_ws (print_member sp pr (k, x) ++ t)
    = dquote :: flat_map quote_char (chars k) ++ dquote :: ":"%char :: sp ++ pr x ++ t).
  { intros t. unfold print_member, quote. simpl fst. simpl snd.
    rewrite <- !app_assoc. simpl. by rewrite <- !app_assoc. }
  assert (Hstr : forall t,
    parse_string (flat_map quote_char (chars k) ++ dquote :: t) = Some (k, t)).
  { intros t. unfold parse_string. rewrite parse_chars_quoted. unfold chars.
    by rewrite string_of_list_ascii_of_string. }
  destruct r as [|y r].
  - simpl join. rewrite Hkey. rewrite Ascii.eqb_refl, Hstr.
    change (skip_ws (":"%char :: ?t)) with (":"%char :: t). cbv beta iota.
    rewrite Ascii.eqb_refl, parse_value_ws by done.
    rewrite (Hx (closing ++ "}"%char :: rest) f);
      [|by apply closing_stops|lia].
    by rewrite skip_ws_app.
  - change (join (","%char :: opening) (map (print_member sp pr) ((k, x) :: y :: r)))
      with (print_member sp pr (k, x) ++ ("," :: opening)
              ++ join (","%char :: opening) (map (print_member sp pr) (y :: r)))%char.
    rewrite <- !app_assoc.
    rewrite Hkey. rewrite Ascii.eqb_refl, Hstr.
    change (skip_ws (":"%char :: ?t)) with (":"%char :: t). cbv beta iota.
    rewrite Ascii.eqb_refl, parse_value_ws by done.
    rewrite (Hx _ f); [|reflexivity|lia].
    change (skip_ws (("," :: opening)%char ++ ?t)) with (("," :: opening)%char ++ t).
    simpl app at 1. cbv iota. change (Ascii.eqb "," ",") with true. cbv iota.
    rewrite IH; [done|done|lia].
Qed.

Lemma assoc_set_fresh {V} k (v : V) ps :
  k ∉ map fst ps -> assoc_set k v ps = ps ++ [(k, v)].
Proof.
  induction ps as [|[k' v'] ps IH]; [done|]. simpl. intros Hk.
  apply not_elem_of_cons in Hk as [Hne Hk].
  destruct (String.eqb_spec k k') as [->|_]; [done|]. by rewrite IH.
Qed.

Lemma assoc_assign_fresh {V} (acc ps : list (string * V)) :
  NoDup (map fst (acc ++ ps)) -> assoc_assign acc ps = acc ++ ps.
Proof.
  revert acc. induction ps as [|[k v] ps IH]; intros acc Hnd.
  - by rewrite app_nil_r.
  - unfold assoc_assign in *. simpl.
    replace (acc ++ (k, v) :: ps) with ((acc ++ [(k, v)]) ++ ps) in *
      by by rewrite <- app_assoc.
    rewrite assoc_set_fresh; [by apply IH|].
    rewrite !map_app in Hnd. simpl in Hnd.
    apply NoDup_app in Hnd as [Hnd _]. apply NoDup_app in Hnd as (_ & Hd & _).
    intros Hin. apply (Hd k Hin). by left.
Qed.

Lemma obj_of_members_nodup ps :
  NoDup (map fst ps) -> obj_of_members ps = ps.
Proof. intros H. unfold obj_of_members. by rewrite assoc_assign_fresh. Qed.

Lemma all_ws_app w1 w2 : all_ws w1 -> all_ws w2 -> all_ws (w1 ++ w2).
Proof. apply Forall_app_2. Qed.

Lemma parse_print v :
  wf v ->
  forall gap indent,
    all_ws gap -> all_ws indent -> reads_back (print gap indent) v.
Proof.
  induction v as [|b|m e|s|l IH|ps IH] using value_ind;
    intros Hwf gap indent Hgap Hind rest fuel Hrest Hfuel;
    (destruct fuel as [|f]; [simpl in Hfuel; lia|]).
  - reflexivity.
  - by destruct b.
  - destruct (print_number_head m e) as (c & tl & Hpr & Hnum).
    simpl print in *.
    pose proof (parse_number_print m e rest Hrest) as Hp.
    rewrite Hpr in *. simpl app in *. by rewrite parse_value_number.
  - pose proof (parse_string_quote s rest) as Hq. simpl print.
    destruct (quote s ++ rest) as [|c r]; [done|]. destruct Hq as [-> Hq].
    by rewrite parse_value_string, Hq.
  - apply wf_arr in Hwf.
    change (print gap indent (VArr l)) with
      (enclose gap indent "[" "]" (map (print gap (indent ++ gap)) l)).
    unfold enclose. destruct l as [|x l]; [reflexivity|].
    set (opening := if is_nil gap then [] else newline :: indent ++ gap).
    set (closing := if is_nil gap then [] else newline :: indent).
    assert (Hop : all_ws opening).
    { unfold opening. destruct (is_nil gap); [constructor|].
      constructor; [done|by apply all_ws_app]. }
    assert (Hcl : all_ws closing).
    { unfold closing. destruct (is_nil gap); [constructor|]. by constructor. }
    cbn [is_nil map]. cbv iota.
    rewrite <- !app_comm_cons, <- !app_assoc, parse_value_array.
    destruct (print_head gap (indent ++ gap) x) as (c & tl & Hpr & Hc).
    assert (Hskip : forall t,
      skip_ws (opening ++ join (","%char :: opening)
                 (print gap (indent ++ gap) x :: map (print gap (indent ++ gap)) l) ++ t)
      = c :: tl ++ match l with
                   | [] => []
                   | _ => ("," :: opening)%char
                            ++ join (","%char :: opening) (map (print gap (indent ++ gap)) l)
                   end ++ t).
    { intros t. rewrite skip_ws_app by done. simpl join. rewrite Hpr.
      destruct l; simpl map; cbv iota; rewrite <- ?app_assoc, <- ?app_comm_cons;
        rewrite value_start_skip by done.
      - reflexivity.
      - simpl. by rewrite <- !app_assoc. }
    rewrite Hskip. destruct (value_start_not_close c Hc) as [-> _].
    change (print gap (indent ++ gap) x :: map (print gap (indent ++ gap)) l)
      with (map (print gap (indent ++ gap)) (x :: l)).
    change (["]"%char] ++ rest) with ("]"%char :: rest).
    rewrite (parse_elements_print (print gap (indent ++ gap)) opening closing
               (x :: l) rest f); [done|done|done|done| |].
    + apply Forall_forall. intros y Hy.
      rewrite Forall_forall in IH, Hwf.
      apply IH; auto using all_ws_app.
    + simpl in Hfuel. unfold need_elems. simpl. lia.
  - apply wf_obj in Hwf as [Hnd Hwf].
    change (print gap indent (VObj ps)) with
      (enclose gap indent "{" "}"
         (map (print_member (if is_nil gap then [] else [space])
                 (print gap (indent ++ gap))) ps)).
    unfold enclose. destruct ps as [|[k x] ps]; [reflexivity|].
    set (opening := if is_nil gap then [] else newline :: indent ++ gap).
    set (closing := if is_nil gap then [] else newline :: indent).
    set (sp := if is_nil gap then [] else [space]).
    assert (Hop : all_ws opening).
    { unfold opening. destruct (is_nil gap); [constructor|].
      constructor; [done|by apply all_ws_app]. }
    assert (Hcl : all_ws closing).
    { unfold closing. destruct (is_nil gap); [constructor|]. by constructor. }
    assert (Hsp : all_ws sp).
    { unfold sp. destruct (is_nil gap); [constructor|]. by repeat constructor. }
    cbn [is_nil map]. cbv iota.
    rewrite <- !app_comm_cons, <- !app_assoc, parse_value_object.
    change (["}"%char] ++ rest) with ("}"%char :: rest).
    assert (Hskip : forall t,
      exists tl,
      skip_ws (opening ++ join (","%char :: opening)
                 (print_member sp (print gap (indent ++ gap)) (k, x)
                    :: map (print_member sp (print gap (indent ++ gap))) ps) ++ t)
      = dquote :: tl).
    { intros t. rewrite skip_ws_app by done. simpl join.
      unfold print_member at 1, quote. simpl fst.
      destruct ps; simpl map; cbv iota; rewrite <- ?app_assoc, <- ?app_comm_cons;
        simpl; eauto. }
    destruct (Hskip (closing ++ "}"%char :: rest)) as [tl ->].
    change (Ascii.eqb dquote "}") with false. cbv iota.
    change (print_member sp (print gap (indent ++ gap)) (k, x)
              :: map (print_member sp (print gap (indent ++ gap))) ps)
      with (map (print_member sp (print gap (indent ++ gap))) ((k, x) :: ps)).
    rewrite (parse_members_print (print gap (indent ++ gap)) sp opening closing
               ((k, x) :: ps) rest f); [|done|done|done|done| |].
    + by rewrite obj_of_members_nodup.
    + apply Forall_forall. intros y Hy.
      rewrite Forall_forall in IH, Hwf.
      apply IH; auto using all_ws_app.
    + simpl in Hfuel. unfold need_members. simpl. lia.
Qed.

(** ** Enough fuel: a value needs no more steps than it has characters *)

Lemma join_length c sep parts :
  (fold_right (fun p n => S (length p + n)) O parts
   <= S (length (join (c :: sep) parts)))%nat.
Proof.
  induction parts as [|p [|q parts] IH]; simpl in *; [lia|lia|].
  rewrite !length_app. simpl. rewrite length_app. lia.
Qed.

Lemma enclose_length gap ind o c parts :
  (S (fold_right (fun p n => S (length p + n)) O parts)
   <= length (enclose gap ind o c parts))%nat.
Proof.
  unfold enclose. destruct parts as [|p parts]; [simpl; lia|].
  cbn [is_nil]. cbv iota.
  pose proof (join_length ","
    (if is_nil gap then [] else newline :: ind ++ gap) (p :: parts)) as H.
  cbn [length]. rewrite !length_app. cbn [length]. lia.
Qed.

Lemma need_le_length v : forall gap ind, (need v <= length (print gap ind v))%nat.
Proof.
  induction v as [|b|m e|s|l IH|ps IH] using value_ind; intros gap ind;
    try (destruct (print_head gap ind (VNum m e)) as (c & tl & -> & _); simpl; lia);
    try (simpl; lia).
  - destruct b; simpl; lia.
  - change (print gap ind (VArr l)) with
      (enclose gap ind "[" "]" (map (print gap (ind ++ gap)) l)).
    etransitivity; [|apply enclose_length]. simpl. apply le_n_S.
    induction IH as [|x r Hx _ IHr]; simpl; [lia|].
    specialize (Hx gap (ind ++ gap)). lia.
  - change (print gap ind (VObj ps)) with
      (enclose gap ind "{" "}"
         (map (print_member (if is_nil gap then [] else [space])
                 (print gap (ind ++ gap))) ps)).
    etransitivity; [|apply enclose_length]. simpl. apply le_n_S.
    induction IH as [|[k x] r Hx _ IHr]; [simpl; lia|].
    specialize (Hx gap (ind ++ gap)). cbn [map foldr fold_right snd] in *.
    unfold print_member at 1. rewrite !length_app. cbn [length snd].
    rewrite length_app. lia.
Qed.

Lemma length_string_of_list_ascii l :
  String.length (string_of_list_ascii l) = length l.
Proof. induction l; simpl; congruence. Qed.

Lemma parse_printed gap v :
  wf v -> all_ws gap ->
  parse (string_of_list_ascii (print gap [] v)) = Some v.
Proof.
  intros Hwf Hgap. unfold parse, chars.
  rewrite list_ascii_of_string_of_list_ascii, length_string_of_list_ascii.
  pose proof (parse_print v Hwf gap [] Hgap (List.Forall_nil _) []
                (S (length (print gap [] v))) eq_refl) as H.
  rewrite app_nil_r in H. rewrite H; [done|].
  pose proof (need_le_length v gap []). lia.
Qed.

(** JSON.parse(JSON.stringify(v)) is [v]. *)
Theorem parse_stringify v : wf v -> parse (stringify v) = Some v.
Proof. intros H. apply parse_printed; [done|constructor]. Qed.

Theorem parse_stringify_indent2 v : wf v -> parse (stringify_indent2 v) = Some v.
Proof. intros H. apply parse_printed; [done|by repeat constructor]. Qed.

Lemma stringify_not_empty v : stringify v <> ""%string.
Proof.
  unfold stringify. destruct (print_head [] [] v) as (c & tl & -> & _). done.
Qed.

(** ** What the parser returns is well formed *)

Lemma assoc_set_keys {V} k (v : V) ps :
  NoDup (map fst ps) -> NoDup (map fst (assoc_set k v ps))
  /\ forall k', k' ∈ map fst (assoc_set k v ps) <-> k' = k \/ k' ∈ map fst ps.
Proof.
  induction ps as [|[k0 v0] ps IH]; simpl; intros Hnd.
  - split; [apply NoDup_singleton|]. intros k'.
    rewrite elem_of_cons, elem_of_nil. tauto.
  - apply NoDup_cons in Hnd as [Hk0 Hnd]. destruct (IH Hnd) as [IH1 IH2].
    destruct (String.eqb_spec k k0) as [->|Hne]; simpl.
    + split; [by apply NoDup_cons|]. intros k'. rewrite !elem_of_cons. tauto.
    + split.
      * apply NoDup_cons. split; [|done]. rewrite IH2. intros [->|?]; done.
      * intros k'. rewrite !elem_of_cons, IH2. tauto.
Qed.

Lemma assoc_set_wf k v ps :
  wf v -> Forall (fun kv => wf (snd kv)) ps ->
  Forall (fun kv => wf (snd kv)) (assoc_set k v ps).
Proof.
  intros Hv. induction 1 as [|[k0 v0] ps H0 Hps IH]; simpl.
  - by repeat constructor.
  - destruct (String.eqb k k0); constructor; auto.
Qed.

Lemma assoc_assign_wf acc ms :
  wf (VObj acc) -> Forall (fun kv => wf (snd kv)) ms ->
  wf (VObj (assoc_assign acc ms)).
Proof.
  intros Hacc Hms. revert acc Hacc. unfold assoc_assign.
  induction Hms as [|[k v] ms Hv _ IH]; intros acc Hacc; [done|]. simpl.
  apply IH. apply wf_obj in Hacc as [Hnd Hall]. apply wf_obj. split.
  - by apply assoc_set_keys.
  - by apply assoc_set_wf.
Qed.

Lemma parse_wf_fuel fuel :
  (forall s v r, parse_value fuel s = Some (v, r) -> wf v)
  /\ (forall s vs r, parse_elements fuel s = Some (vs, r) -> Forall wf vs)
  /\ (forall s ms r, parse_members fuel s = Some (ms, r) ->
        Forall (fun kv => wf (snd kv)) ms).
Proof.
  induction fuel as [|f (IHv & IHe & IHm)]; [by repeat split|].
  split; [|split].
  - intros s v r. simpl. unfold parse_number, parse_exponent.
    intros H.
    repeat (case_match; simplify_eq/=);
      first [ done
            | by split; [constructor|]
            | apply wf_arr; eauto
            | apply assoc_assign_wf; [by split; [constructor|]|eauto] ].
  - intros s vs r. rewrite parse_elements_step. intros H.
    repeat (case_match; simplify_eq/=); constructor; eauto.
  - intros s ms r. rewrite parse_members_step. intros H.
    repeat (case_match; simplify_eq/=); constructor; simpl; eauto.
Qed.

Theorem parse_wf s v : parse s = Some v -> wf v.
Proof.
  unfold parse.
  destruct (parse_value (S (String.length s)) (chars s)) as [[v' r]|] eqn:E;
    [|done].
  destruct (is_nil (skip_ws r)); intros [= <-].
  by apply (proj1 (parse_wf_fuel _) _ _ _ E).
Qed.

End JSONFacts.

(** * The objects of typed values are well formed *)

Module ToJSFacts.

Import JSON JSONFacts.

Create HintDb wf_js discriminated.

Lemma present_keys fields : sublist (map fst (present fields)) (map fst fields).
Proof.
  induction fields as [|[k [v|]] r IH]; simpl.
  - constructor.
  - by constructor.
  - by constructor.
Qed.

Lemma wf_obj_fields fields :
  NoDup (map fst fields) ->
  Forall (fun kv => match snd kv with Some v => wf v | None => True end) fields ->
  wf (obj fields).
Proof.
  intros Hnd Hall. apply wf_obj. split.
  - eapply sublist_NoDup; [done|apply present_keys].
  - induction Hall as [|[k [v|]] r Hv _ IH]; simpl in *;
      [constructor|constructor; [done|]|]; apply IH;
      by apply NoDup_cons in Hnd as [_ ?].
Qed.

Lemma wf_number (n : number) : wf (to_js n).
Proof. exact I. Qed.

Lemma wf_string (s : string) : wf (to_js s).
Proof. exact I. Qed.

Lemma wf_bool (b : bool) : wf (to_js b).
Proof. exact I. Qed.

Lemma wf_list {A} `{ToJS A} (l : list A) :
  (forall a, wf (to_js a)) -> wf (to_js l).
Proof.
  intros Ha. apply wf_arr. unfold to_js.
  induction l; constructor; auto.
Qed.

#[export] Hint Resolve wf_number wf_string wf_bool : wf_js.
#[export] Hint Extern 2 (wf (@to_js (list _) _ _)) =>
  apply wf_list; intros : wf_js.

(* One property of an object literal. *)
Ltac wf_field :=
  unfold req, opt; cbn [snd];
  try match goal with
      | |- context [option_map _ ?a] => destruct a; cbn [option_map]
      end;
  cbv beta iota; auto with wf_js.

Ltac wf_object :=
  apply wf_obj_fields;
  [ cbn [map fst req opt]; compute_done
  | repeat (apply List.Forall_cons; [wf_field|]); apply List.Forall_nil ].

Lemma wf_SectionType (t : SectionType) : wf (to_js t).
Proof. exact I. Qed.

Lemma wf_ToneType (t : ToneType) : wf (to_js t).
Proof. exact I. Qed.

Lemma wf_LengthCategory (c : LengthCategory) : wf (to_js c).
Proof. exact I. Qed.

#[export] Hint Resolve wf_SectionType wf_ToneType wf_LengthCategory : wf_js.

Lemma wf_ContentVariant (v : ContentVariant) : wf (to_js v).
Proof. unfold to_js, ContentVariant_to_js. wf_object. Qed.

Lemma wf_Position (p : Position) : wf (to_js p).
Proof. unfold to_js, Position_to_js. wf_object. Qed.

#[export] Hint Resolve wf_ContentVariant wf_Position : wf_js.

Lemma wf_DetectedSection (s : DetectedSection) : wf (to_js s).
Proof. unfold to_js, DetectedSection_to_js. wf_object. Qed.

Lemma wf_CompetitorInsight (c : CompetitorInsight) : wf (to_js c).
Proof. unfold to_js, CompetitorInsight_to_js. wf_object. Qed.

Lemma wf_TechnicalSEO (t : TechnicalSEO) : wf (to_js t).
Proof. unfold to_js, TechnicalSEO_to_js. wf_object. Qed.

Lemma wf_BrandVoiceAnalysis (b : BrandVoiceAnalysis) : wf (to_js b).
Proof. unfold to_js, BrandVoiceAnalysis_to_js. wf_object. Qed.

Lemma wf_CoreWebVitals (c : CoreWebVitals) : wf (to_js c).
Proof. unfold to_js, CoreWebVitals_to_js. wf_object. Qed.

#[export] Hint Resolve wf_DetectedSection wf_CompetitorInsight wf_TechnicalSEO
  wf_BrandVoiceAnalysis wf_CoreWebVitals : wf_js.

Lemma wf_PerformanceMetrics (p : PerformanceMetrics) : wf (to_js p).
Proof. unfold to_js, PerformanceMetrics_to_js. wf_object. Qed.

#[export] Hint Resolve wf_PerformanceMetrics : wf_js.

Lemma wf_AnalysisResult (a : AnalysisResult) : wf (to_js a).
Proof. unfold to_js, AnalysisResult_to_js. wf_object. Qed.

Lemma wf_HistoryConfig (c : HistoryConfig) : wf (to_js c).
Proof. unfold to_js, HistoryConfig_to_js. wf_object. Qed.

#[export] Hint Resolve wf_AnalysisResult wf_HistoryConfig : wf_js.

Lemma wf_AnalysisHistory (h : AnalysisHistory) : wf (to_js h).
Proof. unfold to_js, AnalysisHistory_to_js. wf_object. Qed.

Lemma wf_PreferredFormat (f : PreferredFormat) : wf (to_js f).
Proof. exact I. Qed.

Lemma wf_Theme (t : Theme) : wf (to_js t).
Proof. exact I. Qed.

#[export] Hint Resolve wf_AnalysisHistory wf_PreferredFormat wf_Theme : wf_js.

Lemma own_key {T} `{ToJS T} k (m : optional T) :
  map fst (own k m) `sublist_of` [k].
Proof. destruct m; simpl; by repeat constructor. Qed.

Lemma preference_fields_nodup p : NoDup (map fst (preference_fields p)).
Proof.
  eapply (sublist_NoDup _
            ["autoSaveHistory"; "defaultExportFormat"; "enableVariants";
             "variantCount"; "theme"; "showAdvancedMetrics";
             "autoLoadBrandVoice"]%string); [compute_done|].
  unfold preference_fields. rewrite !map_app.
  repeat (apply (sublist_app _ [_]); [apply own_key|]). apply own_key.
Qed.

(* The values of a partial record's properties. *)
Lemma preference_fields_wf p :
  Forall (fun kv => match snd kv with Some v => wf v | None => True end)
    (preference_fields p).
Proof.
  unfold preference_fields.
  repeat (apply Forall_app; split);
    match goal with
    | |- Forall _ (own _ ?m) => destruct m; repeat constructor
    end.
Qed.

Lemma wf_UserPreferences (p : UserPreferences) : wf (to_js p).
Proof. unfold to_js, UserPreferences_to_js. wf_object. Qed.

#[export] Hint Resolve wf_UserPreferences : wf_js.

End ToJSFacts.

(** * The persistence layer: history *)

Module HistoryFacts.

Import JSON JSONFacts ToJSFacts.

(** One call of [saveAnalysisToHistory]: its arguments and what the clock
    and the random source answered during it. *)
Record SaveCall := {
  call_result : AnalysisResult;
  call_config : HistoryConfig;
  call_env : SaveEnv
}.

Definition save (ls : Storage) (c : SaveCall) : Storage :=
  saveAnalysisToHistory (call_result c) (call_config c) (call_env c) ls.

(* The calls, in the order they are made. *)
Definition save_all (calls : list SaveCall) (ls : Storage) : Storage :=
  fold_left save calls ls.

(* The record that a call prepends. *)
Definition entry_of (c : SaveCall) : value :=
  to_js (newEntry (call_result c) (call_config c) (call_env c)).

Lemma stringify_truthy v : String.eqb (stringify v) "" = false.
Proof. apply String.eqb_neq, stringify_not_empty. Qed.

(** Reading back what [setItem] stored under the history key. *)
Lemma getAnalysisHistory_setItem ls v :
  wf v ->
  getAnalysisHistory (setItem STORAGE_KEYS.ANALYSIS_HISTORY (stringify v) ls) = v.
Proof.
  intros Hwf. unfold getAnalysisHistory, getItem, setItem.
  rewrite lookup_insert_eq, stringify_truthy. by rewrite parse_stringify.
Qed.

Lemma getAnalysisHistory_other k s ls :
  k <> STORAGE_KEYS.ANALYSIS_HISTORY ->
  getAnalysisHistory (setItem k s ls) = getAnalysisHistory ls.
Proof.
  intros Hk. unfold getAnalysisHistory, getItem, setItem.
  by rewrite lookup_insert_ne.
Qed.

Lemma getAnalysisHistory_empty : getAnalysisHistory ∅ = VArr [].
Proof. reflexivity. Qed.

(* unshift, then splice(50) when longer than 50 *)
Lemma cap_take {A} (l : list A) :
  (if (50 <? length l)%nat then take 50 l else l) = take 50 l.
Proof.
  destruct (Nat.ltb_spec 50 (length l)); [done|].
  by rewrite take_ge by lia.
Qed.

Lemma saveAnalysisToHistory_array result config env ls history :
  Forall wf history ->
  getAnalysisHistory ls = VArr history ->
  getAnalysisHistory (saveAnalysisToHistory result config env ls)
  = VArr (take 50 (to_js (newEntry result config env) :: history)).
Proof.
  intros Hwf Hget. unfold saveAnalysisToHistory. rewrite Hget, cap_take.
  apply getAnalysisHistory_setItem, wf_arr, Forall_take.
  constructor; [apply wf_AnalysisHistory|done].
Qed.

Lemma take_cons_take {A} n (x : A) l :
  take (S n) (x :: take (S n) l) = take (S n) (x :: l).
Proof. simpl. f_equal. rewrite take_take. f_equal. lia. Qed.

Lemma save_all_history calls :
  getAnalysisHistory (save_all calls ∅)
  = VArr (take 50 (rev (map entry_of calls))).
Proof.
  induction calls as [|c calls IH] using rev_ind; [reflexivity|].
  unfold save_all in *. rewrite fold_left_app. simpl. unfold save at 1.
  rewrite (saveAnalysisToHistory_array _ _ _ _
             (take 50 (rev (map entry_of calls)))); [|..|exact IH].
  - rewrite map_app, rev_app_distr. cbn [map rev app].
    fold (entry_of c). by rewrite take_cons_take.
  - apply Forall_take, Forall_rev, Forall_forall.
    intros v [c' [-> _]]%list_elem_of_fmap. apply wf_AnalysisHistory.
Qed.

(** C1.  After the calls [c1 ... cN] of [saveAnalysisToHistory], made on an
    empty storage, [getAnalysisHistory] returns the records of the calls
    newest first (the record of [cN] at position 0), cut after the 50th:
    the records of the oldest calls beyond 50 are gone, and the list has
    length [min N 50]. *)
Theorem history_keeps_the_50_newest (calls : list SaveCall) :
  let stored := take 50 (rev (map entry_of calls)) in
  getAnalysisHistory (save_all calls ∅) = VArr stored
  /\ length stored = Nat.min (length calls) 50
  /\ (forall i, (i < Nat.min (length calls) 50)%nat ->
        stored !! i = entry_of <$> calls !! (length calls - 1 - i)%nat).
Proof.
  intros stored. split; [apply save_all_history|]. split.
  - unfold stored. rewrite length_take, length_rev, length_map. lia.
  - intros i Hi. unfold stored.
    rewrite lookup_take_lt by lia.
    rewrite rev_alt. fold (reverse (map entry_of calls)).
    rewrite reverse_lookup by (rewrite length_map; lia).
    rewrite list_lookup_fmap, length_map. do 2 f_equal. lia.
Qed.

End HistoryFacts.

(** * The persistence layer: preferences *)

Module PreferencesFacts.

Import JSON JSONFacts ToJSFacts HistoryFacts.

(** The fields of [UserPreferences]. *)
Definition recognized_fields : list string :=
  ["autoSaveHistory"; "defaultExportFormat"; "enableVariants";
   "variantCount"; "theme"; "showAdvancedMetrics"; "autoLoadBrandVoice"].

(* [v.k] on a value that is not [null], [None] for [undefined]. *)
Definition field (v : value) (k : string) : option value :=
  match v with
  | VObj ps => assoc_get k ps
  | _ => None
  end.

(* A partial record that gives the theme only. *)
Definition only_theme (theme : optional Theme) : PartialUserPreferences :=
  {| some_autoSaveHistory := left_out; some_defaultExportFormat := left_out;
     some_enableVariants := left_out; some_variantCount := left_out;
     some_theme := theme; some_showAdvancedMetrics := left_out;
     some_autoLoadBrandVoice := left_out |}.

(* { theme: 'light' } and { theme: undefined } *)
Definition light_theme : PartialUserPreferences :=
  only_theme (set_to theme_light).
Definition undefined_theme : PartialUserPreferences :=
  only_theme set_undefined.

Lemma assoc_get_set {V} k k' (v : V) ps :
  assoc_get k (assoc_set k' v ps)
  = if String.eqb k k' then Some v else assoc_get k ps.
Proof.
  induction ps as [|[k0 v0] ps IH]; simpl; [done|].
  destruct (String.eqb_spec k' k0) as [->|Hne]; simpl.
  - by destruct (String.eqb k k0).
  - rewrite IH. destruct (String.eqb_spec k k') as [->|?]; [|done].
    by rewrite (proj2 (String.eqb_neq k' k0)).
Qed.

Lemma assoc_get_None {V} k (ps : list (string * V)) :
  k ∉ map fst ps -> assoc_get k ps = None.
Proof.
  induction ps as [|[k0 v0] ps IH]; simpl; [done|].
  intros [Hne Hk]%not_elem_of_cons.
  by rewrite (proj2 (String.eqb_neq k k0)), IH.
Qed.

(** Reading a property of [{ ...a, ...b }]: [b] wins. *)
Lemma assoc_get_assign {V} k (a b : list (string * V)) :
  NoDup (map fst b) ->
  assoc_get k (assoc_assign a b)
  = match assoc_get k b with Some v => Some v | None => assoc_get k a end.
Proof.
  unfold assoc_assign. revert a.
  induction b as [|[k' v'] b IH]; intros a Hnd; [done|].
  apply NoDup_cons in Hnd as [Hk' Hnd]. simpl.
  rewrite IH, assoc_get_set by done.
  destruct (String.eqb_spec k k') as [->|?]; [|done].
  by rewrite assoc_get_None.
Qed.

(** A property of the target stays defined whatever is assigned. *)
Lemma assoc_assign_keeps {V} k (a b : list (string * V)) :
  is_Some (assoc_get k a) -> is_Some (assoc_get k (assoc_assign a b)).
Proof.
  unfold assoc_assign. revert a.
  induction b as [|[k' v'] b IH]; intros a Ha; [done|]. simpl.
  apply IH. rewrite assoc_get_set. by destruct (String.eqb k k').
Qed.

Lemma assoc_assign_nil {V} (ps : list (string * V)) :
  NoDup (map fst ps) -> assoc_assign [] ps = ps.
Proof. intros H. by rewrite assoc_assign_fresh. Qed.

Lemma own_props_wf v : wf v -> Forall (fun kv => wf (snd kv)) (own_props v).
Proof.
  destruct v as [| | | s |l|ps]; simpl; try by constructor.
  - intros _. apply Forall_forall. intros kv.
    rewrite list_elem_of_lookup. intros [i Hi].
    apply list_lookup_imap_Some in Hi as (c & _ & ->). exact I.
  - intros H%wf_arr. apply Forall_forall. intros kv.
    rewrite list_elem_of_lookup. intros [i Hi].
    apply list_lookup_imap_Some in Hi as (x & Hx & ->). simpl.
    rewrite Forall_forall in H. apply H.
    apply list_elem_of_lookup. eauto.
  - by intros [_ H]%wf_obj.
Qed.

Lemma spread_wf a b : wf a -> wf b -> wf (spread [a; b]).
Proof.
  intros Ha Hb. unfold spread. simpl.
  apply assoc_assign_wf; [|by apply own_props_wf].
  apply assoc_assign_wf; [|by apply own_props_wf].
  by split; [constructor|].
Qed.

Definition defaults : list (string * value) :=
  own_props (to_js DEFAULT_PREFERENCES).

Lemma defaults_js : to_js DEFAULT_PREFERENCES = VObj defaults.
Proof. reflexivity. Qed.

Lemma defaults_nodup : NoDup (map fst defaults).
Proof. compute_done. Qed.

Lemma spread_two a b :
  NoDup (map fst a) ->
  spread [VObj a; b] = VObj (assoc_assign a (own_props b)).
Proof. intros H. unfold spread. simpl. by rewrite assoc_assign_nil. Qed.

(** [getPreferences] answers with an object that is the defaults, or the
    defaults overlaid with the stored value. *)
Lemma getPreferences_shape ls :
  wf (getPreferences ls)
  /\ exists ps,
       getPreferences ls = VObj ps
       /\ forall k, is_Some (assoc_get k defaults) -> is_Some (assoc_get k ps).
Proof.
  unfold getPreferences.
  destruct (getItem STORAGE_KEYS.PREFERENCES ls) as [data|];
    [destruct (String.eqb data "")|];
    [| destruct (JSON.parse data) as [stored|] eqn:E |];
    try (split; [apply wf_UserPreferences|exists defaults; by split]).
  split.
  - apply spread_wf; [apply wf_UserPreferences|by eapply parse_wf].
  - rewrite defaults_js, spread_two by apply defaults_nodup.
    eexists. split; [done|]. intros k. apply assoc_assign_keeps.
Qed.

Lemma getPreferences_setItem ls v :
  wf v ->
  getPreferences (setItem STORAGE_KEYS.PREFERENCES (stringify v) ls)
  = spread [to_js DEFAULT_PREFERENCES; v].
Proof.
  intros Hwf. unfold getPreferences, getItem, setItem.
  rewrite lookup_insert_eq, stringify_truthy. by rewrite parse_stringify.
Qed.

(** Reading a property of an object from which [JSON.stringify] has left
    out what holds [undefined]. *)
Lemma assoc_get_present k (fields : list (string * option value)) :
  NoDup (map fst fields) ->
  assoc_get k (present fields)
  = match assoc_get k fields with
    | Some (Some v) => Some v
    | _ => None
    end.
Proof.
  induction fields as [|[k' [v|]] fields IH]; intros Hnd; [done|..];
    apply NoDup_cons in Hnd as [Hk' Hnd]; simpl.
  - destruct (String.eqb k k'); [done|by apply IH].
  - rewrite IH by done.
    destruct (String.eqb_spec k k') as [->|?]; [|done].
    by rewrite assoc_get_None.
Qed.

Lemma assoc_get_lift k (ps : list (string * value)) :
  assoc_get k (map (fun kv => (fst kv, Some (snd kv))) ps)
  = Some <$> assoc_get k ps.
Proof.
  induction ps as [|[k' v] ps IH]; [done|]. simpl.
  by destruct (String.eqb k k').
Qed.

Lemma assoc_assign_keys {V} (a b : list (string * V)) :
  NoDup (map fst a) -> NoDup (map fst (assoc_assign a b)).
Proof.
  unfold assoc_assign. revert a.
  induction b as [|[k v] b IH]; intros a Ha; [done|]. simpl.
  apply IH. by apply assoc_set_keys.
Qed.

(** What [savePreferences] stores is well formed. *)
Lemma updated_wf cur p :
  wf (VObj cur) -> wf (obj (spread_over (VObj cur) (preference_fields p))).
Proof.
  intros [Hnd Hall]%wf_obj. unfold spread_over. cbn [own_props].
  apply wf_obj_fields.
  - apply assoc_assign_keys. rewrite map_map. by cbn [fst].
  - unfold assoc_assign.
    assert (Hcur : Forall (fun kv : string * option value =>
                             match snd kv with Some v => wf v | None => True end)
                     (map (fun kv => (fst kv, Some (snd kv))) cur)).
    { rewrite Forall_map. eapply Forall_impl; [exact Hall|]. by intros []. }
    revert Hcur. generalize (map (fun kv : string * value =>
                                    (fst kv, Some (snd kv))) cur).
    induction (preference_fields_wf p) as [|[k v] fields Hv _ IH];
      intros acc Hacc; [done|]. simpl. apply IH.
    clear IH. induction Hacc as [|[k' v'] acc Hv' Hacc IHacc]; simpl.
    + by constructor.
    + destruct (String.eqb k k'); constructor; auto.
Qed.



End PreferencesFacts.

(** * The persistence layer: import *)

Module ImportFacts.

Import JSON JSONFacts ToJSFacts HistoryFacts.

Lemma assoc_get_wf k ps v :
  Forall (fun kv => wf (snd kv)) ps -> assoc_get k ps = Some v -> wf v.
Proof.
  induction 1 as [|[k0 v0] ps H0 _ IH]; simpl; [done|].
  destruct (String.eqb k k0); [by intros [= <-]|done].
Qed.

Lemma get_prop_wf data k v :
  wf data -> get_prop data k = Some (Some v) -> wf v.
Proof.
  destruct data; simpl; try done. intros [_ Hall]%wf_obj [= H].
  by eapply assoc_get_wf.
Qed.

Lemma store_if_truthy_other k v ls :
  k <> STORAGE_KEYS.ANALYSIS_HISTORY ->
  getAnalysisHistory (store_if_truthy k v ls) = getAnalysisHistory ls.
Proof.
  intros Hk. unfold store_if_truthy.
  destruct v as [x|]; [|done]. destruct (truthy (Some x)); [|done].
  by apply getAnalysisHistory_other.
Qed.

(** Importing a payload whose [history] is an array stores that array. *)
Lemma import_array jsonString data l ls :
  JSON.parse jsonString = Some data ->
  get_prop data "history" = Some (Some (VArr l)) ->
  fst (importHistoryFromJSON jsonString ls) = true
  /\ getAnalysisHistory (snd (importHistoryFromJSON jsonString ls)) = VArr l
  /\ Forall wf l.
Proof.
  intros Hparse Hhist.
  assert (Hwf : wf (VArr l)).
  { apply (get_prop_wf data "history"); [by eapply parse_wf|done]. }
  unfold importHistoryFromJSON. rewrite Hparse, Hhist.
  destruct data as [| | | | |ps]; try done.
  cbn [get_prop fst snd]. split; [done|]. split; [|by apply wf_arr].
  rewrite !store_if_truthy_other by done.
  cbn [store_if_truthy truthy]. by apply getAnalysisHistory_setItem.
Qed.

(** C10.  [importHistoryFromJSON] stores the [history] array of the payload
    as it is, without the cap of 50: for a payload that parses and whose
    [history] is an array of more than 50 entries, the import succeeds and
    [getAnalysisHistory] then returns all the entries; only the next
    [saveAnalysisToHistory] cuts the list to 50 again (the new record and
    the first 49 imported entries).  For a string that [JSON.parse]
    rejects, the import returns [false] and the storage is unchanged. *)
Theorem import_ignores_the_cap (jsonString : string) (ls : Storage) :
  (forall data l,
     JSON.parse jsonString = Some data ->
     get_prop data "history" = Some (Some (VArr l)) ->
     (50 < length l)%nat ->
     let imported := snd (importHistoryFromJSON jsonString ls) in
     fst (importHistoryFromJSON jsonString ls) = true
     /\ getAnalysisHistory imported = VArr l
     /\ forall result config env,
          getAnalysisHistory (saveAnalysisToHistory result config env imported)
          = VArr (to_js (newEntry result config env) :: take 49 l)
          /\ length (to_js (newEntry result config env) :: take 49 l) = 50%nat)
  /\ (JSON.parse jsonString = None ->
      importHistoryFromJSON jsonString ls = (false, ls)).
Proof.
  split.
  - intros data l Hparse Hhist Hlen imported.
    destruct (import_array jsonString data l ls Hparse Hhist) as (Hok & Hget & Hwf).
    split; [done|]. split; [done|]. intros result config env. split.
    + unfold imported.
      by rewrite (saveAnalysisToHistory_array _ _ _ _ l).
    + simpl. rewrite length_take. lia.
  - intros Hparse. unfold importHistoryFromJSON. by rewrite Hparse.
Qed.

End ImportFacts.

(** * The JSON export *)

Module ExportJSONFacts.

Import JSON JSONFacts ToJSFacts Memory.

Section Value_ind.
Variable P : Value -> Prop.
Hypothesis Hundefined : P Undefined.
Hypothesis Hnull : P Null.
Hypothesis Hbool : forall b, P (Boolean b).
Hypothesis Hnum : forall x, P (Num x).
Hypothesis Hstr : forall s, P (Str s).
Hypothesis Harr : forall l, Forall P l -> P (Array l).
Hypothesis Hobj : forall ps, Forall (fun kv => P (snd kv)) ps -> P (Object ps).

Fixpoint Value_ind (v : Value) : P v :=
  match v with
  | Undefined => Hundefined
  | Null => Hnull
  | Boolean b => Hbool b
  | Num x => Hnum x
  | Str s => Hstr s
  | Array l =>
      Harr l ((fix go (l : list Value) : Forall P l :=
                 match l with
                 | [] => @List.Forall_nil _ P
                 | x :: r => @List.Forall_cons _ P x r (Value_ind x) (go r)
                 end) l)
  | Object ps =>
      Hobj ps ((fix go (ps : list (string * Value))
                  : Forall (fun kv => P (snd kv)) ps :=
                  match ps with
                  | [] => @List.Forall_nil _ _
                  | kv :: r =>
                      @List.Forall_cons _ _ kv r (Value_ind (snd kv)) (go r)
                  end) ps)
  end.
End Value_ind.

(* A property name made of digits, as the indices of arrays are: an
   object enumerates such names first, whatever the order in which its
   properties were made. *)
Definition index_like (k : string) : bool :=
  negb (String.eqb k "") && forallb is_digit (chars k).

(* A finite number is zero, or it lies between the two ends of the
   doubles. *)
Definition in_range (m e : Z) : bool :=
  negb (overflows m e) && (negb (underflows m e) || ((m =? 0) && (e =? 0))).

(** The values of JavaScript, as a list of properties in the order of
    their making gives them: every finite number is in its proper form
    and within the range of the doubles, no object has two properties of
    the same name, and no property name is made of digits. *)
Fixpoint valid (v : Value) : bool :=
  match v with
  | Num (Finite m e) => proper m e && in_range m e
  | Array elems => forallb valid elems
  | Object props =>
      bool_decide (NoDup (map fst props))
      && forallb (fun kv => negb (index_like (fst kv)) && valid (snd kv)) props
  | _ => true
  end.

(** The values that a JSON text can carry as they are: no number in them
    is [NaN], infinite or [-0], and nothing in them is [undefined]. *)
Fixpoint storable (v : Value) : bool :=
  match v with
  | Undefined => false
  | Num (Finite _ _) => true
  | Num _ => false
  | Array elems => forallb storable elems
  | Object props => forallb (fun kv => storable (snd kv)) props
  | _ => true
  end.

Lemma carried_array elems :
  carried (Array elems) = Some (VArr (map carried_element elems)).
Proof. reflexivity. Qed.

Lemma carried_object props :
  carried (Object props) = Some (VObj (carried_members props)).
Proof. reflexivity. Qed.

Lemma carried_members_keys props :
  map fst (carried_members props) `sublist_of` map fst props.
Proof.
  induction props as [|[k x] props IH]; [done|]. cbn [carried_members].
  destruct (carried x); simpl; by constructor.
Qed.

Lemma carried_members_length props :
  (length (carried_members props) <= length props)%nat.
Proof.
  induction props as [|[k x] props IH]; [done|]. cbn [carried_members].
  destruct (carried x); simpl; lia.
Qed.

(** What [JSON.stringify] makes of a value of JavaScript is well formed. *)
Lemma carried_wf v :
  valid v = true -> forall c, carried v = Some c -> wf c.
Proof.
  induction v as [| |b|x|s|l IH|ps IH] using Value_ind; intros Hv c;
    try (by intros [= <-]).
  - intros [= <-]. by destruct x.
  - rewrite carried_array. intros [= <-]. apply wf_arr.
    cbn [valid] in Hv. apply Is_true_true, forallb_True in Hv.
    induction IH as [|x l Hx _ IHl]; [constructor|].
    apply Forall_cons in Hv as [Hvx Hv]. cbn [map].
    constructor; [|by apply IHl].
    unfold carried_element. destruct (carried x) as [c|] eqn:E; [|done].
    apply Hx; [by apply Is_true_true|done].
  - rewrite carried_object. intros [= <-]. apply wf_obj.
    cbn [valid] in Hv. apply andb_true_iff in Hv as [Hnd Hall].
    apply bool_decide_eq_true in Hnd. split.
    + eapply sublist_NoDup; [exact Hnd|apply carried_members_keys].
    + apply Is_true_true, forallb_True in Hall. clear Hnd.
      induction IH as [|[k x] ps Hx _ IHps]; [constructor|].
      apply Forall_cons in Hall as [Hvx Hall]. cbn [carried_members].
      destruct (carried x) as [c|] eqn:E; [|by apply IHps].
      constructor; [|by apply IHps].
      apply Is_true_true, andb_true_iff in Hvx as [_ Hvx].
      by apply Hx.
Qed.

Lemma built_number_in_range m e :
  in_range m e = true -> built_number m e = Finite m e.
Proof.
  unfold in_range, built_number.
  intros [Hover [Hunder|[Hm He]%andb_true_iff]%orb_true_iff]%andb_true_iff.
  - apply negb_true_iff in Hover, Hunder. by rewrite Hover, Hunder.
  - apply negb_true_iff in Hover. rewrite Hover.
    apply Z.eqb_eq in Hm, He. subst. reflexivity.
Qed.

(** Such a value comes back as it is. *)
Lemma storable_built v :
  valid v = true -> storable v = true ->
  exists c, carried v = Some c /\ built c = v.
Proof.
  induction v as [| |b|x|s|l IH|ps IH] using Value_ind; intros Hv Hp;
    try done; try (by eexists).
  - destruct x as [| | | |m e]; try done. eexists. split; [done|].
    cbn [valid] in Hv. apply andb_true_iff in Hv as [_ Hrange].
    cbn [carried_number built]. by rewrite built_number_in_range.
  - rewrite carried_array. eexists. split; [done|]. cbn [built].
    f_equal. rewrite map_map.
    cbn [storable] in Hp. apply Is_true_true, forallb_True in Hp.
    cbn [valid] in Hv. apply Is_true_true, forallb_True in Hv.
    induction IH as [|x l Hx _ IHl]; [done|].
    apply Forall_cons in Hp as [Hpx Hp]. apply Forall_cons in Hv as [Hvx Hv].
    cbn [map]. rewrite IHl by done.
    destruct (Hx (proj1 (Is_true_true _) Hvx) (proj1 (Is_true_true _) Hpx))
      as (c & Hc & Hb).
    unfold carried_element. by rewrite Hc, Hb.
  - rewrite carried_object. eexists. split; [done|]. cbn [built].
    f_equal. cbn [storable] in Hp. apply Is_true_true, forallb_True in Hp.
    cbn [valid] in Hv. apply andb_true_iff in Hv as [_ Hv].
    apply Is_true_true, forallb_True in Hv.
    induction IH as [|[k x] ps Hx _ IHps]; [done|].
    apply Forall_cons in Hp as [Hpx Hp]. apply Forall_cons in Hv as [Hvx Hv].
    apply Is_true_true, andb_true_iff in Hvx as [_ Hvx].
    cbn [carried_members].
    destruct (Hx Hvx (proj1 (Is_true_true _) Hpx)) as (c & Hc & Hb).
    cbn [snd] in Hc, Hb. rewrite Hc. cbn [map fst snd].
    by rewrite Hb, IHps.
Qed.

(** And only such a value does. *)
Lemma built_storable v :
  forall c, carried v = Some c -> built c = v -> storable v = true.
Proof.
  induction v as [| |b|x|s|l IH|ps IH] using Value_ind; intros c;
    try done.
  - intros [= <-]. by destruct x.
  - rewrite carried_array. intros [= <-]. cbn [built]. intros [= Hb].
    cbn [storable]. apply Is_true_true, forallb_True.
    rewrite map_map in Hb.
    induction IH as [|x l Hx _ IHl]; [constructor|].
    cbn [map] in Hb. injection Hb as Hx' Hl.
    constructor; [|by apply IHl]. apply Is_true_true.
    unfold carried_element in Hx'.
    destruct (carried x) as [c|] eqn:E.
    + by apply (Hx c).
    + by destruct x.
  - rewrite carried_object. intros [= <-]. cbn [built]. intros [= Hb].
    cbn [storable]. apply Is_true_true, forallb_True.
    induction IH as [|[k x] ps Hx _ IHps]; [constructor|].
    cbn [carried_members] in Hb.
    destruct (carried x) as [c|] eqn:E.
    + cbn [map fst snd] in Hb. injection Hb as Hx' Hps.
      constructor; [|by apply IHps]. apply Is_true_true. by apply (Hx c).
    + apply (f_equal length) in Hb. rewrite length_map in Hb.
      pose proof (carried_members_length ps). simpl in Hb. lia.
Qed.

(** C8.  Parsing the text that [exportToJSON] produces gives back the
    analysis result as it is, every property with its value, exactly
    when a JSON text can carry it as it is: when none of its numbers,
    however deep, is [NaN], infinite or [-0], and none of its properties
    or elements holds [undefined].  Every other result comes back
    altered. *)
Theorem exportToJSON_round_trip (analysis : list (string * Value)) :
  valid (Object analysis) = true ->
  Memory.parse (exportToJSON analysis) = Some (Object analysis)
  <-> storable (Object analysis) = true.
Proof.
  intros Hvalid. unfold Memory.parse, exportToJSON.
  rewrite parse_stringify_indent2
    by (apply (carried_wf (Object analysis)); [done|apply carried_object]).
  cbn [option_map]. split.
  - intros [= Hb]. apply (built_storable _ _ (carried_object analysis)).
    by rewrite <- Hb at 2.
  - intros Hp. destruct (storable_built _ Hvalid Hp) as (c & Hc & Hb).
    rewrite carried_object in Hc. injection Hc as <-. by rewrite Hb.
Qed.

(** An analysis result with numbers that are not integers: 0.85, 2.5,
    12.5, 0.034, 1.5e-7 and 1e+21. *)
Definition measured : list (string * Value) :=
  [("sections"%string,
    Array [Object [("id"%string, Str "hero-1");
                   ("position"%string,
                    Object [("x"%string, Num (Finite 125 (-1)));
                            ("y"%string, Num (Finite 0 0));
                            ("width"%string, Num (Finite 100 0));
                            ("height"%string, Num (Finite 15 (-8)))]);
                   ("seoScore"%string, Num (Finite 72 0));
                   ("sentimentScore"%string, Num (Finite 85 (-2)));
                   ("contentVariants"%string,
                    Array [Object [("predictedCTR"%string,
                                    Num (Finite 34 (-3)))]])]]);
   ("overallSeoScore"%string, Num (Finite 72 0));
   ("recommendations"%string, Array [Str "Add alt texts"]);
   ("pageType"%string, Str "Landing Page");
   ("imageUrl"%string, Str "blob:1");
   ("timestamp"%string, Num (Finite 1700000000000 0));
   ("performanceMetrics"%string,
    Object [("estimatedLoadTime"%string, Num (Finite 25 (-1)));
            ("mobileOptimization"%string, Num (Finite 1 21))])].

Lemma exportToJSON_witness :
  valid (Object measured) = true
  /\ Memory.parse (exportToJSON measured) = Some (Object measured).
Proof.
  assert (Hvalid : valid (Object measured) = true) by (vm_compute; reflexivity).
  split; [exact Hvalid|].
  apply (proj2 (exportToJSON_round_trip measured Hvalid)).
  vm_compute. reflexivity.
Defined.

(* The text of a small object: a fraction, a small number, [NaN]. *)
Example export_of_three_numbers :
  exportToJSON [("ctr"%string, Num (Finite 34 (-3)));
                ("tiny"%string, Num (Finite 15 (-8)));
                ("none"%string, Num NaN)]
  = "{" +:+ String newline "  " +:+ String dquote "ctr"
    +:+ String dquote ": 0.034," +:+ String newline "  "
    +:+ String dquote "tiny" +:+ String dquote ": 1.5e-7,"
    +:+ String newline "  " +:+ String dquote "none"
    +:+ String dquote ": null" +:+ String newline "}".
Proof. reflexivity. Qed.

(** The object of a typed analysis result, in memory. *)
Definition in_memory (analysis : AnalysisResult) : list (string * Value) :=
  match built (to_js analysis) with
  | Object props => props
  | _ => []
  end.

(* How a result comes to hold an infinity: from the answer of the
   model. *)
Example parse_of_a_large_number :
  Memory.parse "[1e999, -1e999, 1e-999, 1e308, 5e-324]"
  = Some (Array [Num Infinity; Num NegativeInfinity; Num (Finite 0 0);
                 Num (Finite 1 308); Num (Finite 5 (-324))]).
Proof. vm_compute. reflexivity. Qed.

(** An analysis result whose overall score is [Infinity], whose load time
    is [NaN], and whose file name is [undefined]. *)
Definition unmeasured : list (string * Value) :=
  [("sections"%string, Array []);
   ("overallSeoScore"%string, Num Infinity);
   ("recommendations"%string, Array []);
   ("pageType"%string, Str "Landing Page");
   ("imageUrl"%string, Str "blob:1");
   ("imageFileName"%string, Undefined);
   ("performanceMetrics"%string,
    Object [("estimatedLoadTime"%string, Num NaN);
            ("mobileOptimization"%string, Num NegativeZero)])].

(** C8, as the specification states it, fails: the export of this result
    has [null] in the place of the overall score and of the load time,
    0 in the place of [-0], and no file name; parsing it gives another
    object. *)
Lemma not_finite_counterexample :
  valid (Object unmeasured) = true
  /\ Memory.parse (exportToJSON unmeasured)
     = Some (Object
               [("sections"%string, Array []);
                ("overallSeoScore"%string, Null);
                ("recommendations"%string, Array []);
                ("pageType"%string, Str "Landing Page");
                ("imageUrl"%string, Str "blob:1");
                ("performanceMetrics"%string,
                 Object [("estimatedLoadTime"%string, Null);
                         ("mobileOptimization"%string, Num (Finite 0 0))])])
  /\ Memory.parse (exportToJSON unmeasured) <> Some (Object unmeasured).
Proof.
  split; [by vm_compute|].
  assert (H : Memory.parse (exportToJSON unmeasured)
              = Some (Object
                        [("sections"%string, Array []);
                         ("overallSeoScore"%string, Null);
                         ("recommendations"%string, Array []);
                         ("pageType"%string, Str "Landing Page");
                         ("imageUrl"%string, Str "blob:1");
                         ("performanceMetrics"%string,
                          Object [("estimatedLoadTime"%string, Null);
                                  ("mobileOptimization"%string,
                                   Num (Finite 0 0))])]))
    by (vm_compute; reflexivity).
  split; [exact H|]. rewrite H. discriminate.
Qed.

End ExportJSONFacts.

(** * Comparing two analyses *)

Module CompareFacts.

Import JSONFacts.

(** The section that an analysis holds under an id.  The [Map] keeps one
    entry per id, with the value set last: when several sections share an
    id it is the last of them. *)
Definition section_with (analysis : AnalysisResult) (i : string)
  : option DetectedSection :=
  last (filter (fun s => String.eqb (id s) i) (sections analysis)).

(** The ids of an analysis, each once, in the order of first appearance. *)
Definition first_appearances (l : list string) : list string :=
  fold_left (fun seen k => if bool_decide (k ∈ seen) then seen else seen ++ [k])
    l [].

Definition ids (analysis : AnalysisResult) : list string :=
  first_appearances (map id (sections analysis)).

(** The classes of the specification, for an id and two analyses. *)
Inductive Change := Added | Removed | Improved | Declined | Unchanged.

Definition classify (a b : AnalysisResult) (i : string) : option Change :=
  match section_with a i, section_with b i with
  | None, None => None
  | None, Some _ => Some Added
  | Some _, None => Some Removed
  | Some in_a, Some in_b =>
      if seoScore in_a <? seoScore in_b then Some Improved
      else if seoScore in_b <? seoScore in_a then Some Declined
      else Some Unchanged
  end.

Definition Change_eqb (c d : Change) : bool :=
  match c, d with
  | Added, Added | Removed, Removed | Improved, Improved
  | Declined, Declined | Unchanged, Unchanged => true
  | _, _ => false
  end.

(* The labels, taken from [from], of the ids of [over] that fall in
   class [c], in the order of [over]. *)
Definition labels_in (c : Change) (a b over from : AnalysisResult)
  : list string :=
  omap (fun i =>
          match classify a b i with
          | Some c' => if Change_eqb c c' then label <$> section_with from i
                       else None
          | None => None
          end)
       (ids over).

(** ** The [Map] of an analysis *)

Lemma assoc_set_keys_list {V} k (v : V) ps :
  map fst (assoc_set k v ps)
  = if bool_decide (k ∈ map fst ps) then map fst ps else map fst ps ++ [k].
Proof.
  induction ps as [|[k0 v0] ps IH]; [done|]. simpl.
  destruct (String.eqb_spec k k0) as [->|Hne]; simpl.
  - rewrite bool_decide_eq_true_2; [done|]. by left.
  - rewrite IH. destruct (decide (k ∈ map fst ps)) as [Hin|Hin].
    + rewrite !bool_decide_eq_true_2; [done|by right|done].
    + rewrite !bool_decide_eq_false_2; [done| |done].
      by intros [?|?]%elem_of_cons.
Qed.

Lemma assoc_assign_keys_list {V} (acc es : list (string * V)) :
  map fst (assoc_assign acc es)
  = fold_left
      (fun seen k => if bool_decide (k ∈ seen) then seen else seen ++ [k])
      (map fst es) (map fst acc).
Proof.
  unfold assoc_assign. revert acc.
  induction es as [|[k v] es IH]; intros acc; [done|]. simpl.
  by rewrite IH, assoc_set_keys_list.
Qed.

Lemma assoc_get_set' {V} k k' (v : V) ps :
  assoc_get k (assoc_set k' v ps)
  = if String.eqb k k' then Some v else assoc_get k ps.
Proof.
  induction ps as [|[k0 v0] ps IH]; simpl; [done|].
  destruct (String.eqb_spec k' k0) as [->|Hne]; simpl.
  - by destruct (String.eqb k k0).
  - rewrite IH. destruct (String.eqb_spec k k') as [->|?]; [|done].
    by rewrite (proj2 (String.eqb_neq k' k0)).
Qed.

Lemma assoc_assign_get_last {V} i (acc es : list (string * V)) :
  assoc_get i (assoc_assign acc es)
  = match last (filter (fun kv => String.eqb (fst kv) i) es) with
    | Some kv => Some (snd kv)
    | None => assoc_get i acc
    end.
Proof.
  unfold assoc_assign. revert acc.
  induction es as [|[k v] es IH]; intros acc; [done|]. simpl.
  rewrite IH, assoc_get_set'. rewrite filter_cons. simpl.
  rewrite (String.eqb_sym i k).
  destruct (String.eqb k i) eqn:E.
  - rewrite decide_True by done.
    destruct (filter _ es) as [|x xs] eqn:F; [done|].
    rewrite last_cons_cons.
    destruct (last (x :: xs)) eqn:L; [done|]. by apply last_None in L.
  - by rewrite decide_False by (intros H; exact H).
Qed.

Lemma section_map_get analysis i :
  assoc_get i (section_map analysis) = section_with analysis i.
Proof.
  unfold section_map, Map_of, section_with.
  rewrite assoc_assign_get_last. simpl.
  induction (sections analysis) as [|s l IH]; [done|]. simpl.
  rewrite !filter_cons. simpl.
  destruct (decide (Is_true (String.eqb (id s) i))) as [H|H]; [|done].
  rewrite !last_cons, <- IH.
  by destruct (last (filter _ (map _ l))).
Qed.

Lemma section_map_keys analysis :
  map fst (section_map analysis) = ids analysis.
Proof.
  unfold section_map, Map_of, ids, first_appearances.
  by rewrite assoc_assign_keys_list, map_map.
Qed.

Lemma section_map_nodup analysis : NoDup (map fst (section_map analysis)).
Proof.
  unfold section_map, Map_of.
  pose proof (@assoc_assign_fresh DetectedSection) as _.
  set (es := map (fun s => (id s, s)) (sections analysis)).
  assert (H : forall acc : list (string * DetectedSection),
             NoDup (map fst acc) -> NoDup (map fst (assoc_assign acc es))).
  { unfold assoc_assign. induction es as [|[k v] es IH]; intros acc Hacc;
      [done|]. simpl. apply IH. by apply assoc_set_keys. }
  apply H. constructor.
Qed.

(** ** The two loops *)

Lemma omap_ext_in {A B} (f g : A -> option B) (l : list A) :
  (forall x, x ∈ l -> f x = g x) -> omap f l = omap g l.
Proof.
  induction l as [|x l IH]; intros H; [done|]. csimpl.
  rewrite (H x) by (by left). rewrite IH; [done|].
  intros y Hy. apply H. by right.
Qed.

(* Walking the entries of a [Map] is walking its keys. *)
Lemma omap_entries {V B} (g : string * V -> option B)
    (ps : list (string * V)) :
  NoDup (map fst ps) ->
  omap g ps
  = omap (fun k => match assoc_get k ps with
                   | Some v => g (k, v)
                   | None => None
                   end) (map fst ps).
Proof.
  induction ps as [|[k v] ps IH]; [done|]. csimpl.
  intros [Hk Hnd]%NoDup_cons. rewrite String.eqb_refl.
  rewrite IH by done.
  rewrite (omap_ext_in
             (fun k0 => match (if String.eqb k0 k then Some v
                               else assoc_get k0 ps) with
                        | Some v0 => g (k0, v0)
                        | None => None
                        end)
             (fun k0 => match assoc_get k0 ps with
                        | Some v0 => g (k0, v0)
                        | None => None
                        end)); [done|].
  intros k' Hk'. destruct (String.eqb_spec k' k) as [->|?]; done.
Qed.

Lemma added_loop {V} (p : string * V -> bool) (f : string * V -> string)
    (l : list (string * V)) (init : list string) :
  fold_left (fun added entry => if p entry then added ++ [f entry] else added)
    l init
  = init ++ omap (fun entry => if p entry then Some (f entry) else None) l.
Proof.
  revert init. induction l as [|e l IH]; intros init; csimpl.
  - by rewrite app_nil_r.
  - rewrite IH. destruct (p e); [|done]. by rewrite <- app_assoc.
Qed.

Definition removed_of (sections2 : list (string * DetectedSection))
    (entry : string * DetectedSection) : option string :=
  match assoc_get (fst entry) sections2 with
  | None => Some (label (snd entry))
  | Some _ => None
  end.

Definition improved_of (sections2 : list (string * DetectedSection))
    (entry : string * DetectedSection) : option string :=
  match assoc_get (fst entry) sections2 with
  | Some section2 =>
      if seoScore section2 >? seoScore (snd entry)
      then Some (label section2) else None
  | None => None
  end.

Definition declined_of (sections2 : list (string * DetectedSection))
    (entry : string * DetectedSection) : option string :=
  match assoc_get (fst entry) sections2 with
  | Some section2 =>
      if seoScore section2 >? seoScore (snd entry) then None
      else if seoScore section2 <? seoScore (snd entry)
      then Some (label section2) else None
  | None => None
  end.

Lemma changed_loop sections2 l removed improved declined :
  fold_left (compare_section sections2) l (removed, improved, declined)
  = (removed ++ omap (removed_of sections2) l,
     improved ++ omap (improved_of sections2) l,
     declined ++ omap (declined_of sections2) l).
Proof.
  revert removed improved declined.
  induction l as [|[k s1] l IH]; intros removed improved declined; csimpl.
  - by rewrite !app_nil_r.
  - unfold removed_of at 1, improved_of at 1, declined_of at 1.
    cbn [fst snd].
    destruct (assoc_get k sections2) as [s2|].
    + destruct (seoScore s2 >? seoScore s1);
        [|destruct (seoScore s2 <? seoScore s1)];
        rewrite IH, <- ?app_assoc; done.
    + by rewrite IH, <- app_assoc.
Qed.

Lemma ids_have_sections analysis i :
  i ∈ ids analysis -> is_Some (section_with analysis i).
Proof.
  rewrite <- section_map_keys, <- section_map_get.
  induction (section_map analysis) as [|[k v] ps IH]; simpl.
  - by intros ?%elem_of_nil.
  - intros [->|Hi]%elem_of_cons.
    + rewrite String.eqb_refl. by eexists.
    + destruct (String.eqb i k); [by eexists|auto].
Qed.

(** C2.  [compareAnalyses a b] returns the difference of the overall
    scores, [b]'s minus [a]'s, and says that there is an overall
    improvement exactly when that difference is positive.  It classifies
    by id: [sectionsAdded] lists the ids that only [b] has,
    [sectionsRemoved] those that only [a] has, [sectionsImproved] those
    that both have with a strictly higher score in [b], and
    [sectionsDeclined] those with a strictly lower score in [b]; an id
    with the same score in both is in none of the four lists.  Each list
    gives labels (of [b]'s section, or of [a]'s for a removed one), in
    the order in which the ids first appear. *)
Theorem compareAnalyses_classifies_by_id (a b : AnalysisResult) :
  let r := compareAnalyses a b in
  seoScoreDelta r = overallSeoScore b - overallSeoScore a
  /\ (overallImprovement r = true <-> 0 < seoScoreDelta r)
  /\ sectionsAdded r = labels_in Added a b b b
  /\ sectionsRemoved r = labels_in Removed a b a a
  /\ sectionsImproved r = labels_in Improved a b a b
  /\ sectionsDeclined r = labels_in Declined a b a b.
Proof.
  unfold compareAnalyses. rewrite added_loop, changed_loop.
  cbn [seoScoreDelta overallImprovement sectionsAdded sectionsRemoved
       sectionsImproved sectionsDeclined app].
  split; [done|]. split; [by rewrite Z.gtb_gt, Z.gt_lt_iff|].
  unfold labels_in.
  rewrite !omap_entries by apply section_map_nodup.
  rewrite !section_map_keys.
  repeat split; apply omap_ext_in; intros i Hi;
    apply ids_have_sections in Hi as [s Hs];
    unfold classify, assoc_has, removed_of, improved_of, declined_of;
    cbn [fst snd]; rewrite !section_map_get, ?Hs; cbn [fmap option_fmap option_map].
  - destruct (section_with a i) as [sa|]; cbn; [|done].
    by destruct (seoScore sa <? seoScore s), (seoScore s <? seoScore sa).
  - destruct (section_with b i) as [sb|]; cbn; [|done].
    by destruct (seoScore s <? seoScore sb), (seoScore sb <? seoScore s).
  - destruct (section_with b i) as [s2|]; [|done].
    rewrite Z.gtb_ltb. cbn.
    by destruct (seoScore s <? seoScore s2), (seoScore s2 <? seoScore s).
  - destruct (section_with b i) as [s2|]; [|done].
    rewrite Z.gtb_ltb. cbn.
    by destruct (seoScore s <? seoScore s2), (seoScore s2 <? seoScore s).
Qed.

End CompareFacts.

(** * The CSV export *)

Module ExportCSVFacts.

Definition header_line : string :=
  "Section,Type,SEO Score,Keywords,Character Count,Content".

(** Every double quote doubled, the other characters as they are. *)
Definition doubled (s : string) : string :=
  text (flat_map (fun c => if Ascii.eqb c dquote then [dquote; dquote] else [c])
          (chars s)).

(** The line of a section: six fields, separated by commas. *)
Definition row_line (section : DetectedSection) : string :=
  label section +:+ ","
  +:+ SectionType_name (type section) +:+ ","
  +:+ Number_toString (seoScore section) +:+ ","
  +:+ join "; " (keywords section) +:+ ","
  +:+ Number_toString (characterCount section) +:+ ","
  +:+ String dquote (doubled (suggestedContent section)) +:+ String dquote "".

(** Reading a quoted field back, as a CSV reader does: after the opening
    quote, two quotes stand for one and a single quote ends the field. *)
Fixpoint unquote_body (s : string) : option string :=
  match s with
  | EmptyString => None
  | String c r =>
      if Ascii.eqb c dquote then
        match r with
        | EmptyString => Some EmptyString
        | String c' r' =>
            if Ascii.eqb c' dquote
            then option_map (String dquote) (unquote_body r')
            else None
        end
      else option_map (String c) (unquote_body r)
  end.

Definition unquote (s : string) : option string :=
  match s with
  | String c r => if Ascii.eqb c dquote then unquote_body r else None
  | EmptyString => None
  end.

Lemma replace_all_doubled s :
  replace_all dquote (String dquote (String dquote "")) s = doubled s.
Proof.
  unfold doubled, chars, text. induction s as [|c s IH]; [done|]. simpl.
  rewrite IH. by destruct (Ascii.eqb c dquote).
Qed.

Lemma unquote_body_doubled s :
  unquote_body
    (replace_all dquote (String dquote (String dquote "")) s
       +:+ String dquote "")
  = Some s.
Proof.
  induction s as [|c s IH]; [done|]. cbn [replace_all].
  set (R := replace_all dquote (String dquote (String dquote "")) s) in *.
  destruct (Ascii.eqb_spec c dquote) as [->|Hne].
  - change (option_map (String dquote) (unquote_body (R +:+ String dquote ""))
            = Some (String dquote s)).
    by rewrite IH.
  - change (String c R +:+ String dquote "")
      with (String c (R +:+ String dquote "")).
    cbn [unquote_body].
    by rewrite (proj2 (Ascii.eqb_neq c dquote) Hne), IH.
Qed.

Lemma unquote_quoted s : unquote (quoted s) = Some s.
Proof.
  unfold quoted. simpl. apply unquote_body_doubled.
Qed.

Lemma csv_row_line section : join "," (csv_row section) = row_line section.
Proof.
  unfold csv_row, row_line, join, quoted. simpl.
  by rewrite replace_all_doubled.
Qed.

(** C7.  [exportToCSV] produces the header line followed by one line per
    section, in order, joined by newlines.  The line of a section has six
    fields separated by commas: the label, the type, the SEO score, the
    keywords joined by a semicolon and a space, the character count, and
    the suggested content between double quotes with every double quote
    of the content doubled (so that the content can be read back). *)
Theorem exportToCSV_rows (analysis : AnalysisResult) :
  exportToCSV analysis
  = join (String newline "")
      (header_line :: map row_line (sections analysis))
  /\ length (map row_line (sections analysis)) = length (sections analysis)
  /\ forall content,
       quoted content = String dquote (doubled content) +:+ String dquote ""
       /\ unquote (quoted content) = Some content.
Proof.
  split; [|split].
  - unfold exportToCSV. f_equal. f_equal. rewrite map_map.
    apply map_ext. intros s. apply csv_row_line.
  - apply length_map.
  - intros content. split; [|apply unquote_quoted].
    unfold quoted. by rewrite replace_all_doubled.
Qed.

End ExportCSVFacts.

(** * The shortcut dispatcher *)

Module ShortcutFacts.

(** A flag of an entry agrees with the event when it is set and the
    modifier is pressed, or it is not set (left out, or false) and the
    modifier is not pressed. *)
Definition agrees (f : option bool) (pressed : bool) : bool :=
  Bool.eqb (flag f) pressed.

Definition same_key {Action} (event : KeyboardEvent)
    (shortcut : KeyboardShortcut Action) : bool :=
  String.eqb (toLowerCase (event_key event)) (toLowerCase (key shortcut)).

(** The match of the specification: the same key, and every modifier flag
    of the entry agreeing with the event's modifier of that name. *)
Definition stated_match {Action} (event : KeyboardEvent)
    (shortcut : KeyboardShortcut Action) : bool :=
  same_key event shortcut
  && agrees (ctrl shortcut) (ctrlKey event)
  && agrees (alt shortcut) (altKey event)
  && agrees (shift shortcut) (shiftKey event)
  && agrees (meta shortcut) (metaKey event).

(** The match of the handler: the same key, [alt] and [shift] agreeing
    with the event, and [ctrl] agreeing with "Control or Meta is pressed":
    the Meta (Command) key stands for Control. *)
Definition chord_match {Action} (event : KeyboardEvent)
    (shortcut : KeyboardShortcut Action) : bool :=
  same_key event shortcut
  && agrees (ctrl shortcut) (ctrlKey event || metaKey event)
  && agrees (alt shortcut) (altKey event)
  && agrees (shift shortcut) (shiftKey event).

(** The actions that a run of the handler calls. *)
Definition invoked {Action} (effects : list (Effect Action)) : list Action :=
  omap (fun e => match e with Invoke a => Some a | PreventDefault => None end)
    effects.

(** The first entry that matches, if any. *)
Definition first_match {Action}
    (m : KeyboardEvent -> KeyboardShortcut Action -> bool)
    (event : KeyboardEvent) (shortcuts : list (KeyboardShortcut Action))
  : option (KeyboardShortcut Action) :=
  List.find (m event) shortcuts.

Definition calls_first {Action}
    (m : KeyboardEvent -> KeyboardShortcut Action -> bool)
    (event : KeyboardEvent) (shortcuts : list (KeyboardShortcut Action))
  : list Action :=
  match first_match m event shortcuts with
  | Some shortcut => [action shortcut]
  | None => []
  end.

Lemma matches_chord {Action} event (shortcut : KeyboardShortcut Action) :
  matches event shortcut = chord_match event shortcut.
Proof.
  unfold matches, chord_match, same_key, agrees.
  destruct (String.eqb _ _); [|done]. simpl.
  destruct (flag (ctrl shortcut)), (flag (alt shortcut)),
    (flag (shift shortcut)), (ctrlKey event), (metaKey event),
    (altKey event), (shiftKey event); done.
Qed.

Lemma dispatch_first {Action} event (shortcuts : list (KeyboardShortcut Action)) :
  dispatch event shortcuts
  = match first_match chord_match event shortcuts with
    | Some shortcut => [PreventDefault; Invoke (action shortcut)]
    | None => []
    end.
Proof.
  unfold first_match.
  induction shortcuts as [|s rest IH]; [done|]. simpl.
  rewrite matches_chord. by destruct (chord_match event s).
Qed.

(** C3, as the code has it.  With the dispatcher enabled, for a key event
    whose target is not a text-entry control and a list of entries none of
    which sets [meta], the handler goes through the list in order and
    calls the action of the first entry that matches, and of no other
    (it also prevents the default action of the event); it does nothing
    when no entry matches.  An entry matches when its key and the event's
    key are equal up to case, its [alt] and [shift] flags agree exactly
    with the event, and its [ctrl] flag agrees with "Control or Meta is
    pressed". *)
Theorem first_chord_match_is_called {Action}
    (shortcuts : list (KeyboardShortcut Action)) (event : KeyboardEvent) :
  is_text_entry (target event) = false ->
  Forall (fun shortcut => flag (meta shortcut) = false) shortcuts ->
  handleKeyDown shortcuts true event
  = match first_match chord_match event shortcuts with
    | Some shortcut => [PreventDefault; Invoke (action shortcut)]
    | None => []
    end
  /\ invoked (handleKeyDown shortcuts true event)
     = calls_first chord_match event shortcuts.
Proof.
  intros Htarget _. unfold handleKeyDown, calls_first. simpl.
  rewrite Htarget, dispatch_first.
  by destruct (first_match chord_match event shortcuts).
Qed.

Definition plain_target : HTMLElement :=
  {| tagName := "DIV"; isContentEditable := false |}.

(* Ctrl+K, as [getDefaultShortcuts] declares it. *)
Definition search_shortcut : KeyboardShortcut string :=
  {| key := "k"; ctrl := Some true; alt := None; shift := None; meta := None;
     action := "search"%string; description := "Search / Command palette";
     category := general |}.

(* K, without a modifier. *)
Definition previous_shortcut : KeyboardShortcut string :=
  {| key := "k"; ctrl := Some false; alt := None; shift := None; meta := None;
     action := "prevSection"%string; description := "Previous section";
     category := navigation_ |}.

(* Command+K on a page element that is not a text-entry control. *)
Definition command_k : KeyboardEvent :=
  {| event_key := "k"; ctrlKey := false; metaKey := true; altKey := false;
     shiftKey := false; target := plain_target |}.

Lemma first_chord_match_witness :
  is_text_entry (target command_k) = false
  /\ Forall (fun shortcut => flag (meta shortcut) = false)
       [search_shortcut; previous_shortcut]
  /\ handleKeyDown [search_shortcut; previous_shortcut] true command_k
     = [PreventDefault; Invoke "search"%string].
Proof.
  split; [reflexivity|]. split; [by repeat constructor|].
  exact (proj1 (first_chord_match_is_called
                  [search_shortcut; previous_shortcut] command_k
                  eq_refl ltac:(by repeat constructor))).
Defined.

(** C3, as the specification states it, fails: on Command+K the handler
    calls the action of the Ctrl+K entry, although the entry's [ctrl] flag
    is set and Control is not pressed, and its [meta] flag is left out and
    Meta is pressed; under the stated match no entry matches. *)
Lemma stated_match_counterexample :
  is_text_entry (target command_k) = false
  /\ invoked (handleKeyDown [search_shortcut; previous_shortcut] true command_k)
     = ["search"%string]
  /\ calls_first stated_match command_k [search_shortcut; previous_shortcut]
     = []
  /\ invoked (handleKeyDown [search_shortcut; previous_shortcut] true command_k)
     <> calls_first stated_match command_k [search_shortcut; previous_shortcut].
Proof. repeat split; done. Qed.

(** C9.  For a key event whose target is an [INPUT], a [TEXTAREA] or a
    content-editable element, the handler does nothing: it calls no action
    (and does not prevent the default), whatever the entries, the key and
    the modifiers, enabled or not. *)
Theorem text_entry_suppresses_shortcuts {Action}
    (shortcuts : list (KeyboardShortcut Action)) (enabled : bool)
    (event : KeyboardEvent) :
  tagName (target event) = "INPUT"%string
  \/ tagName (target event) = "TEXTAREA"%string
  \/ isContentEditable (target event) = true ->
  handleKeyDown shortcuts enabled event = []
  /\ invoked (handleKeyDown shortcuts enabled event) = [].
Proof.
  intros H.
  assert (Ht : is_text_entry (target event) = true).
  { unfold is_text_entry. destruct H as [-> | [-> | ->]]; [done|done|].
    by rewrite !orb_true_r. }
  unfold handleKeyDown. rewrite Ht. by destruct enabled.
Qed.

(* Ctrl+K typed into a text field. *)
Definition ctrl_k_in_input : KeyboardEvent :=
  {| event_key := "k"; ctrlKey := true; metaKey := false; altKey := false;
     shiftKey := false;
     target := {| tagName := "INPUT"; isContentEditable := false |} |}.

Lemma text_entry_witness :
  (tagName (target ctrl_k_in_input) = "INPUT"%string
   \/ tagName (target ctrl_k_in_input) = "TEXTAREA"%string
   \/ isContentEditable (target ctrl_k_in_input) = true)
  /\ matches ctrl_k_in_input search_shortcut = true
  /\ handleKeyDown [search_shortcut] true ctrl_k_in_input = [].
Proof.
  split; [by left|]. split; [reflexivity|].
  exact (proj1 (text_entry_suppresses_shortcuts [search_shortcut] true
                  ctrl_k_in_input (or_introl eq_refl))).
Defined.

End ShortcutFacts.

(** * The orchestrators *)

Module ServiceFacts.

Section Runs.

Context {World : Type}.
Variable analysis_client : AnalyzeArgs -> World -> ending * World.
Variable model_provider :
  GenerateRequest -> World -> outcome string * World.

(** A progress callback that only records its arguments. *)
Definition record_progress : Q -> string -> M World unit :=
  fun progress currentFile => emit (Progress progress currentFile).

(** The calls of the analysis client for a list of requests, made one
    after the other: each call begins in the world that the call before
    it has left.  The result is how the calls ended, in order, and the
    world after the last of them. *)
Fixpoint client_calls (requests : list AnalyzeArgs) (w : World)
  : list ending * World :=
  match requests with
  | [] => ([], w)
  | request :: rest =>
      let '(how, w1) := analysis_client request w in
      let '(hows, w2) := client_calls rest w1 in
      (how :: hows, w2)
  end.

(* What a call throws, when it does not return. *)
Definition thrown_by (how : ending) : option string :=
  match how with
  | analysed _ => None
  | unreadable error => Some error
  | failed _ message => Some (failure message)
  end.

(* The outcome of a call for its caller. *)
Definition settled (how : ending) : outcome AnalysisResult :=
  match how with
  | analysed result => Returned result
  | unreadable error => Thrown error
  | failed _ message => Thrown (failure message)
  end.

(** What the log shows of one call: what the analysis wrote to the
    console when it had caught something, and how the call settled. *)
Definition call_events (request : AnalyzeArgs) (how : ending) : list Event :=
  match how with
  | failed error _ => [ConsoleError "Error calling Gemini API:" error]
  | _ => []
  end
  ++ [Analyze request (settled how)].

(** The results of the calls that returned, in order. *)
Definition successes (hows : list ending) : list AnalysisResult :=
  omap (fun how => match how with
                   | analysed result => Some result
                   | _ => None
                   end) hows.

(** What the log of a batch run must show for the requests from index [i]
    on, of [total], when the calls end as [hows]: for each image its
    progress report, then its analysis, then the logged error if the
    analysis threw. *)
Fixpoint batch_events (total i : nat) (requests : list AnalyzeArgs)
    (hows : list ending) : list Event :=
  match requests, hows with
  | request :: requests', how :: hows' =>
      [Progress (percent i total) (file_name (imageFile request))]
      ++ call_events request how
      ++ match thrown_by how with
         | Some error =>
             [ConsoleError
                ("Failed to analyze " +:+ file_name (imageFile request) +:+ ":")
                error]
         | None => []
         end
      ++ batch_events total (S i) requests' hows'
  | _, _ => []
  end.

Lemma client_calls_length requests w :
  length (fst (client_calls requests w)) = length requests.
Proof.
  revert w. induction requests as [|request requests IH]; intros w; [done|].
  cbn [client_calls]. destruct (analysis_client request w) as [how w1].
  specialize (IH w1). destruct (client_calls requests w1) as [hows w2].
  simpl in *. by rewrite IH.
Qed.

Lemma batch_loop_run (args : BatchArgs World) files :
  onProgress args = Some record_progress ->
  forall i results st,
    let requests := map (batch_request args) files in
    batch_loop analysis_client args i files results st
    = (Returned (results ++ successes (fst (client_calls requests (world st)))),
       {| world := snd (client_calls requests (world st));
          log := log st
                 ++ batch_events (length (imageFiles args)) i requests
                      (fst (client_calls requests (world st))) |}).
Proof.
  intros Hcb. induction files as [|file files IH]; intros i results st.
  - simpl. unfold ret. rewrite !app_nil_r. by destruct st.
  - cbn [batch_loop map client_calls]. unfold bind at 1, report. rewrite Hcb.
    unfold record_progress, emit. cbn [world log].
    unfold bind at 1, try_catch, bind at 1, actionAnalyzeScreenshotEnhanced.
    cbn [world log].
    destruct (analysis_client (batch_request args file) (world st))
      as [[result|error|error message] w1] eqn:Hcall.
    + unfold ret at 1. rewrite IH. cbn [world log].
      destruct (client_calls (map (batch_request args) files) w1)
        as [hows w2].
      cbn [fst snd successes omap list_omap batch_events call_events
             thrown_by settled app].
      by rewrite <- !app_assoc.
    + unfold console_error, emit, bind at 1. cbn [world log]. unfold ret at 1.
      rewrite IH. cbn [world log].
      destruct (client_calls (map (batch_request args) files) w1)
        as [hows w2].
      cbn [fst snd successes omap list_omap batch_events call_events
             thrown_by settled app batch_request imageFile].
      by rewrite <- !app_assoc.
    + unfold console_error, emit, bind at 1. cbn [world log]. unfold ret at 1.
      rewrite IH. cbn [world log].
      destruct (client_calls (map (batch_request args) files) w1)
        as [hows w2].
      cbn [fst snd successes omap list_omap batch_events call_events
             thrown_by settled app batch_request imageFile].
      by rewrite <- !app_assoc.
Qed.

Lemma successes_length hows : (length (successes hows) <= length hows)%nat.
Proof.
  induction hows as [|[r|e|e m] hows IH]; simpl; [lia|..]; cbn; simpl; lia.
Qed.


(** ** The comparison *)

Definition quiet (ev : Event) : Prop :=
  match ev with
  | Generate _ _ => False
  | _ => True
  end.

(** The log of analyses that all returned. *)
Definition returned_events (requests : list AnalyzeArgs)
    (analyses : list AnalysisResult) : list Event :=
  zip_with (fun request analysis => Analyze request (Returned analysis))
    requests analyses.

(** The loop over the competitor images: to its end, when every call
    returns; otherwise to the first call that does not. *)
Lemma competitor_loop_run (args : ComparisonArgs) files :
  forall acc st,
    let requests := map (competitor_request args) files in
    match competitor_loop analysis_client args files acc st with
    | (Returned all, st') =>
        exists analyses,
          all = acc ++ analyses
          /\ client_calls requests (world st)
             = (map analysed analyses, world st')
          /\ log st' = log st ++ returned_events requests analyses
    | (Thrown error, st') =>
        exists earlier how,
          (length earlier < length requests)%nat
          /\ client_calls (take (S (length earlier)) requests) (world st)
             = (map analysed earlier ++ [how], world st')
          /\ thrown_by how = Some error
          /\ log st'
             = log st ++ returned_events requests earlier
               ++ match requests !! length earlier with
                  | Some request => call_events request how
                  | None => []
                  end
    end.
Proof.
  induction files as [|file files IH]; intros acc st; cbv zeta.
  - exists []. by rewrite !app_nil_r.
  - cbn [competitor_loop map client_calls].
    unfold bind, actionAnalyzeScreenshotEnhanced.
    destruct (analysis_client (competitor_request args file) (world st))
      as [[analysis|error|error message] w1] eqn:Hcall.
    + match goal with
      | |- context [competitor_loop _ _ _ ?r ?s] =>
          specialize (IH r s);
          destruct (competitor_loop analysis_client args files r s)
            as [[all|error] st']
      end; cbn [log world] in IH; cbv zeta in IH.
      * destruct IH as (analyses & -> & Hcalls & ->).
        exists (analysis :: analyses). rewrite <- !app_assoc.
        split; [done|]. rewrite Hcalls. by split.
      * destruct IH as (earlier & how & Hlen & Hcalls & Hthrown & ->).
        exists (analysis :: earlier), how.
        cbn [length take map client_calls app lookup list_lookup].
        rewrite Hcall, Hcalls.
        split; [lia|]. split; [done|]. split; [done|].
        by rewrite <- !app_assoc.
    + exists [], (unreadable error).
      cbn [length take map client_calls app lookup list_lookup].
      rewrite Hcall. split; [lia|]. by repeat split.
    + exists [], (failed error message).
      cbn [length take map client_calls app lookup list_lookup].
      rewrite Hcall. split; [lia|]. by repeat split.
Qed.

Definition synthesis_failure (request : GenerateRequest) (error : string)
  : list Event :=
  [Generate request (Thrown error);
   ConsoleError "Failed to generate competitive insights:" error].

Lemma insights_run yourAnalysis competitorAnalyses keywords st :
  let request := insights_request yourAnalysis competitorAnalyses in
  match generateCompetitiveInsights model_provider yourAnalysis
          competitorAnalyses keywords st with
  | (Returned found, st') =>
      (exists error,
         found = VArr []
         /\ model_provider request (world st) = (Thrown error, world st')
         /\ log st' = log st ++ synthesis_failure request error)
      \/ (exists response events,
            Forall quiet events
            /\ log st' = log st ++ Generate request (Returned response)
                                   :: events)
  | (Thrown _, _) => False
  end.
Proof.
  intros request. unfold generateCompetitiveInsights, try_catch, bind at 1.
  unfold generateContent. fold request.
  destruct (model_provider request (world st)) as [[response|error] w1].
  - destruct (JSON.parse (trim response)) as [parsed|].
    + destruct (get_prop parsed "insights") as [[found|]|].
      * right. exists response, []. by split.
      * right. exists response, []. by split.
      * right. exists response,
          [ConsoleError "Failed to generate competitive insights:" "TypeError"].
        split; [by repeat constructor|].
        cbn. by rewrite <- app_assoc.
    + right. exists response,
        [ConsoleError "Failed to generate competitive insights:" "SyntaxError"].
      split; [by repeat constructor|].
      cbn. by rewrite <- app_assoc.
  - left. exists error. split; [done|]. split; [done|].
    cbn. unfold synthesis_failure. by rewrite <- app_assoc.
Qed.

Lemma quiet_not_generate events request out :
  Forall quiet events -> Generate request out ∈ events -> False.
Proof.
  intros Hq Hin. rewrite Forall_forall in Hq. exact (Hq _ Hin).
Qed.

Lemma returned_events_quiet requests analyses :
  Forall quiet (returned_events requests analyses).
Proof.
  unfold returned_events. revert analyses.
  induction requests as [|r requests IH]; intros [|a analyses]; simpl;
    constructor; auto. exact I.
Qed.

Lemma call_events_quiet request how : Forall quiet (call_events request how).
Proof. destruct how; by repeat constructor. Qed.

(** C5.  In a run of [actionCompetitorComparison] in which the model call
    that synthesises the insights throws, the function does not throw.
    The analysis was called for the own page and then once for every
    competitor image, in order and one call after the other, each
    competitor image with [generateVariants] false and with the label
    "Competitor" in the place of the website URL; every one of these calls
    returned.  The model provider was then called with the request made
    from these analyses, and threw.  The function returns the analysis of
    the own page and the analyses of all the competitor images, with the
    empty list as insights, and the log shows the analyses, the failed
    model call and the logged error, and nothing else. *)
Theorem synthesis_failure_is_absorbed (args : ComparisonArgs) (w : World)
    (outcome_ : outcome ComparisonResult) (final : State World)
    (request : GenerateRequest) (error : string) :
  actionCompetitorComparison analysis_client model_provider args (init w)
  = (outcome_, final) ->
  Generate request (Thrown error) ∈ log final ->
  let yours_request :=
    {| imageFile := yourScreenshot args;
       args_websiteUrl := comparison_websiteUrl args;
       args_keywords := comparison_keywords args;
       args_targetAudience := comparison_targetAudience args;
       brandVoice := None;
       generateVariants := true;
       competitorUrls := [] |} in
  let competitor file :=
    {| imageFile := file;
       args_websiteUrl := "Competitor";
       args_keywords := comparison_keywords args;
       args_targetAudience := comparison_targetAudience args;
       brandVoice := None;
       generateVariants := false;
       competitorUrls := [] |} in
  let requests := yours_request :: map competitor (competitorScreenshots args) in
  exists yours theirs w1,
    client_calls requests w = (map analysed (yours :: theirs), w1)
    /\ model_provider (insights_request yours theirs) w1
       = (Thrown error, world final)
    /\ outcome_ = Returned {| yourAnalysis := yours;
                              competitorAnalyses := theirs;
                              insights := VArr [] |}
    /\ length theirs = length (competitorScreenshots args)
    /\ log final
       = returned_events requests (yours :: theirs)
         ++ synthesis_failure (insights_request yours theirs) error
    /\ request = insights_request yours theirs.
Proof.
  intros Hrun Hin yours_request competitor requests. revert Hrun Hin.
  unfold actionCompetitorComparison, bind at 1,
    actionAnalyzeScreenshotEnhanced at 1. cbn [init world log app].
  change (your_request args) with yours_request.
  unfold requests. cbn [client_calls].
  destruct (analysis_client yours_request w) as [[yours|e0|e0 m0] w1].
  2:{ intros [= <- <-] Hin. cbn [log] in Hin.
      apply list_elem_of_singleton in Hin. discriminate. }
  2:{ intros [= <- <-] Hin. cbn [log] in Hin.
      apply elem_of_cons in Hin as [?|Hin]; [discriminate|].
      apply list_elem_of_singleton in Hin. discriminate. }
  unfold bind at 1.
  match goal with
  | |- context [competitor_loop _ _ _ ?r ?s] =>
      pose proof (competitor_loop_run args (competitorScreenshots args) r s)
        as Hloop;
      destruct (competitor_loop analysis_client args
                  (competitorScreenshots args) r s) as [[all|e1] st1]
  end; cbn [log world app] in Hloop; cbv zeta in Hloop.
  2:{ destruct Hloop as (earlier & how & _ & _ & _ & Hlog).
      intros [= <- <-] Hin. rewrite Hlog in Hin.
      apply elem_of_cons in Hin as [?|Hin]; [discriminate|].
      apply elem_of_app in Hin as [Hin|Hin].
      - destruct (quiet_not_generate _ _ _ (returned_events_quiet _ _) Hin).
      - destruct (_ !! _); [|by apply elem_of_nil in Hin].
        destruct (quiet_not_generate _ _ _ (call_events_quiet _ _) Hin). }
  destruct Hloop as (theirs & -> & Hcalls & Hlog). cbn [app].
  change (map (competitor_request args) (competitorScreenshots args))
    with (map competitor (competitorScreenshots args)) in Hcalls, Hlog.
  rewrite Hcalls.
  unfold bind at 1.
  pose proof (insights_run yours theirs (comparison_keywords args) st1)
    as Hsyn. cbv zeta in Hsyn.
  destruct (generateCompetitiveInsights model_provider yours theirs
              (comparison_keywords args) st1) as [[found|e2] st2];
    [|done].
  unfold ret. intros [= <- <-] Hin.
  assert (Hquiet : forall ev,
            ev ∈ log st1 -> ev <> Generate request (Thrown error)).
  { intros ev Hev ->. rewrite Hlog in Hev.
    apply elem_of_cons in Hev as [?|Hev]; [discriminate|].
    exact (quiet_not_generate _ _ _ (returned_events_quiet _ _) Hev). }
  assert (Hlen : length theirs = length (competitorScreenshots args)).
  { apply (f_equal fst), (f_equal length) in Hcalls.
    rewrite client_calls_length in Hcalls. cbn [fst] in Hcalls.
    by rewrite !length_map in Hcalls. }
  destruct Hsyn as [(e3 & -> & Hcall & Hlog2)|(response & events & Hq & Hlog2)];
    rewrite Hlog2 in Hin |- *;
    apply elem_of_app in Hin as [Hin|Hin];
    try (by destruct (Hquiet _ Hin)).
  - apply elem_of_cons in Hin as [[= -> ->]|Hin].
    + exists yours, theirs, (world st1). cbn [map].
      rewrite Hlog. by rewrite <- app_comm_cons.
    + apply list_elem_of_singleton in Hin. discriminate.
  - apply elem_of_cons in Hin as [?|Hin]; [discriminate|].
    destruct (quiet_not_generate _ _ _ Hq Hin).
Qed.

End Runs.

End ServiceFacts.

(** * Runs on concrete inputs *)

Module Examples.

Import JSON HistoryFacts PreferencesFacts ImportFacts CompareFacts
  ExportCSVFacts ExportJSONFacts ServiceFacts.

Definition a_section (i l : string) (score : number) (content : string)
  : DetectedSection :=
  {| id := i; type := hero; label := l;
     position := {| x := 0; y := 0; width := 100; height := 20 |};
     currentContent := None; suggestedContent := content;
     contentVariants := None; seoScore := score;
     keywords := ["seo"; "growth"]%string;
     characterCount := Z.of_nat (String.length content);
     readabilityScore := None; sentimentScore := None;
     brandVoiceMatch := None; technicalSeoIssues := None;
     accessibilityIssues := None |}.

Definition an_analysis (overall : number) (secs : list DetectedSection)
  : AnalysisResult :=
  {| sections := secs; overallSeoScore := overall;
     recommendations := ["Add alt texts"%string];
     pageType := "Landing Page"; imageUrl := "blob:1";
     imageFileName := Some "home.png"%string; timestamp := Some 1700000000000;
     technicalSeo := None; competitorInsights := None;
     brandVoiceAnalysis := None; performanceMetrics := None |}.

(** ** JSON *)

Example stringify_object :
  JSON.stringify (to_js {| x := 1; y := -2; width := 30; height := 0 |})
  = String "{" (String dquote "x" +:+ String dquote ":1,"
      +:+ String dquote "y" +:+ String dquote ":-2,"
      +:+ String dquote "width" +:+ String dquote ":30,"
      +:+ String dquote "height" +:+ String dquote ":0}").
Proof. reflexivity. Qed.

Example parse_rejects : JSON.parse "{ nope" = None /\ JSON.parse "" = None.
Proof. split; reflexivity. Qed.

Example parse_numbers :
  JSON.parse " [1.50e3, -0, 12] " = Some (VArr [VNum 150 1; VNum 0 0; VInt 12]).
Proof. reflexivity. Qed.

(** ** compareAnalyses: A rises from 50 to 70, B falls from 80 to 60, C is
    new, D is gone, E keeps its score. *)

Definition before : AnalysisResult :=
  an_analysis 60 [a_section "A" "Hero" 50 "x"; a_section "B" "Pricing" 80 "y";
                  a_section "D" "Footer" 10 "z"; a_section "E" "Form" 40 "w"].

Definition after : AnalysisResult :=
  an_analysis 72 [a_section "A" "Hero" 70 "x"; a_section "B" "Pricing" 60 "y";
                  a_section "C" "Quotes" 90 "v"; a_section "E" "Form" 40 "w"].

Example compare_before_after :
  compareAnalyses before after
  = {| seoScoreDelta := 12;
       sectionsAdded := ["Quotes"%string];
       sectionsRemoved := ["Footer"%string];
       sectionsImproved := ["Hero"%string];
       sectionsDeclined := ["Pricing"%string];
       overallImprovement := true |}.
Proof. reflexivity. Qed.

(** ** exportToCSV: a content with a double quote *)

Definition quoting : AnalysisResult :=
  an_analysis 80
    [a_section "A" "Hero" 50 (String "S" (String dquote (String "!" "")))].

Example csv_of_quoting :
  exportToCSV quoting
  = "Section,Type,SEO Score,Keywords,Character Count,Content"
    +:+ String newline "Hero,hero,50,seo; growth,3,"
    +:+ String dquote (String "S" (String dquote (String dquote "!")))
    +:+ String dquote "".
Proof. reflexivity. Qed.

(** ** exportToJSON: the object of a typed result, with integers only *)

Example export_of_before :
  Memory.parse (exportToJSON (in_memory before))
  = Some (Memory.Object (in_memory before)).
Proof. vm_compute. reflexivity. Qed.

(** ** History: 52 saves *)

Definition nth_call (n : nat) : SaveCall :=
  {| call_result := an_analysis (Z.of_nat n) [];
     call_config := {| websiteUrl := "https://example.com";
                       config_keywords := ["seo"%string];
                       targetAudience := "developers" |};
     call_env := {| now_id := 1700000000000 + Z.of_nat n;
                    random_suffix := "k3j9x2a";
                    now_timestamp := 1700000000000 + Z.of_nat n |} |}.

Definition fifty_two_calls : list SaveCall := map nth_call (seq 0 52).

Lemma history_after_52_saves :
  exists stored,
    getAnalysisHistory (save_all fifty_two_calls ∅) = VArr stored
    /\ length stored = 50%nat
    /\ stored !! 0%nat = Some (entry_of (nth_call 51))
    /\ stored !! 1%nat = Some (entry_of (nth_call 50))
    /\ stored !! 49%nat = Some (entry_of (nth_call 2)).
Proof.
  destruct (history_keeps_the_50_newest fifty_two_calls) as (Hget & Hlen & Hat).
  eexists. split; [exact Hget|]. split; [exact Hlen|].
  split; [|split]; rewrite Hat by (vm_compute; lia); reflexivity.
Defined.

(** ** Preferences: saving only the theme *)

Example light_theme_saved :
  getPreferences (savePreferences light_theme ∅)
  = to_js {| autoSaveHistory := true;
             defaultExportFormat := format_markdown;
             enableVariants := true;
             variantCount := 3;
             theme := theme_light;
             showAdvancedMetrics := true;
             autoLoadBrandVoice := true |}.
Proof. vm_compute. reflexivity. Qed.

(** ** Import: a payload with 51 entries *)

Definition fifty_one : list value := replicate 51 (VInt 0).

Definition payload_51 : string :=
  JSON.stringify (VObj [("history"%string, VArr fifty_one)]).

Lemma import_witness :
  JSON.parse payload_51 = Some (VObj [("history"%string, VArr fifty_one)])
  /\ get_prop (VObj [("history"%string, VArr fifty_one)]) "history"
     = Some (Some (VArr fifty_one))
  /\ (50 < length fifty_one)%nat
  /\ fst (importHistoryFromJSON payload_51 ∅) = true
  /\ getAnalysisHistory (snd (importHistoryFromJSON payload_51 ∅))
     = VArr fifty_one.
Proof.
  assert (H1 : JSON.parse payload_51
               = Some (VObj [("history"%string, VArr fifty_one)]))
    by (vm_compute; reflexivity).
  assert (H3 : (50 < length fifty_one)%nat) by (vm_compute; lia).
  split; [exact H1|]. split; [reflexivity|]. split; [exact H3|].
  destruct (proj1 (import_ignores_the_cap payload_51 ∅) _ _ H1 eq_refl H3)
    as (Hok & Hget & _).
  split; [exact Hok|exact Hget].
Defined.

(** ** Batch: three images, the second analysis fails *)

Definition file (n : string) : File :=
  {| file_name := n; file_type := "image/png" |}.

(* The world counts the calls made; in the call number 1 the model
   provider throws an [Error] with the message 503. *)
Definition second_fails (args : AnalyzeArgs) (calls : nat) : ending * nat :=
  (if Nat.eqb calls 1 then failed "Error: 503" (Some "503"%string)
   else analysed (an_analysis (Z.of_nat calls) []),
   S calls).

Definition three_images : BatchArgs nat :=
  {| imageFiles := [file "a.png"; file "b.png"; file "c.png"];
     batch_websiteUrl := "https://example.com";
     batch_keywords := ["seo"%string];
     batch_targetAudience := "developers";
     batch_brandVoice := None;
     onProgress := Some record_progress |}.

Example batch_with_a_failure :
  let '(out, final) := actionBatchAnalyze second_fails three_images (init 0%nat) in
  out = Returned [an_analysis 0 []; an_analysis 2 []]
  /\ omap (fun ev => match ev with
                     | Progress p f => Some (p, f)
                     | _ => None
                     end) (log final)
     = [((0 # 1) / (3 # 1) * 100, "a.png"%string);
        ((1 # 1) / (3 # 1) * 100, "b.png"%string);
        ((2 # 1) / (3 # 1) * 100, "c.png"%string);
        (100, "Completed"%string)]%Q
  /\ omap (fun ev => match ev with
                     | ConsoleError message error => Some (message, error)
                     | _ => None
                     end) (log final)
     = [("Error calling Gemini API:", "Error: 503");
        ("Failed to analyze b.png:", "Failed to analyze screenshot: 503")
       ]%string.
Proof. vm_compute. repeat split; reflexivity. Qed.

(** ** Comparison: the synthesis call fails *)

Definition always_returns (args : AnalyzeArgs) (w : unit) : ending * unit :=
  (analysed (an_analysis (if generateVariants args then 70 else 55) []), w).

Definition always_throws (request : GenerateRequest) (w : unit)
  : outcome string * unit :=
  (Thrown "503", w).

Definition two_competitors : ComparisonArgs :=
  {| yourScreenshot := file "mine.png";
     competitorScreenshots := [file "one.png"; file "two.png"];
     comparison_websiteUrl := "https://example.com";
     comparison_keywords := ["seo"%string];
     comparison_targetAudience := "developers" |}.

Definition failed_synthesis_run : outcome ComparisonResult * State unit :=
  actionCompetitorComparison always_returns always_throws two_competitors
    (init tt).

Definition failed_request : GenerateRequest :=
  insights_request (an_analysis 70 []) [an_analysis 55 []; an_analysis 55 []].

Lemma synthesis_failure_witness :
  actionCompetitorComparison always_returns always_throws two_competitors
    (init tt)
  = (fst failed_synthesis_run, snd failed_synthesis_run)
  /\ Generate failed_request (Thrown "503") ∈ log (snd failed_synthesis_run)
  /\ exists yours theirs,
       fst failed_synthesis_run
       = Returned {| yourAnalysis := yours;
                     competitorAnalyses := theirs;
                     insights := VArr [] |}
       /\ length theirs = 2%nat.
Proof.
  assert (H1 : actionCompetitorComparison always_returns always_throws
                 two_competitors (init tt)
               = (fst failed_synthesis_run, snd failed_synthesis_run))
    by apply surjective_pairing.
  assert (H2 : Generate failed_request (Thrown "503")
               ∈ log (snd failed_synthesis_run)).
  { apply list_elem_of_In. vm_compute.
    right. right. right. left. reflexivity. }
  split; [exact H1|]. split; [exact H2|].
  destruct (synthesis_failure_is_absorbed always_returns always_throws
              two_competitors tt _ _ _ _ H1 H2)
    as (yours & theirs & w1 & _ & _ & Hout & Hlen & _).
  exists yours, theirs. split; [exact Hout|exact Hlen].
Defined.

Example failed_synthesis_result :
  fst failed_synthesis_run
  = Returned {| yourAnalysis := an_analysis 70 [];
                competitorAnalyses := [an_analysis 55 []; an_analysis 55 []];
                insights := VArr [] |}.
Proof. vm_compute. reflexivity. Qed.

End Examples.

(** * The persistence layer: single records, clearing, brand voice *)

Module RecordFacts.

Import JSON JSONFacts ToJSFacts HistoryFacts PreferencesFacts ImportFacts.

Lemma getAnalysisHistory_wf ls : wf (getAnalysisHistory ls).
Proof.
  unfold getAnalysisHistory.
  destruct (getItem _ ls) as [data|]; [|by apply wf_arr].
  destruct (String.eqb data ""); [by apply wf_arr|].
  destruct (JSON.parse data) eqn:E; [by eapply parse_wf|by apply wf_arr].
Qed.

Lemma getAnalysisHistory_removeItem ls :
  getAnalysisHistory (removeItem STORAGE_KEYS.ANALYSIS_HISTORY ls) = VArr [].
Proof.
  unfold getAnalysisHistory, getItem, removeItem. by rewrite lookup_delete_eq.
Qed.

(* The [id] of a stored record. *)
Lemma id_of_record (e : AnalysisHistory) :
  get_prop (to_js e) "id" = Some (Some (VStr (history_id e))).
Proof. reflexivity. Qed.

Lemma record_truthy (e : AnalysisHistory) : truthy (Some (to_js e)) = true.
Proof. reflexivity. Qed.

Lemma find_by_id_records id (entries : list AnalysisHistory) :
  find_by_id id (map to_js entries)
  = Returned (to_js <$> List.find (fun e => String.eqb (history_id e) id) entries).
Proof.
  induction entries as [|e entries IH]; [done|].
  cbn [map find_by_id List.find]. rewrite id_of_record. cbn [is_string].
  by destruct (String.eqb (history_id e) id).
Qed.

Lemma filter_out_id_records id (entries : list AnalysisHistory) :
  filter_out_id id (map to_js entries)
  = Some (map to_js
            (List.filter (fun e => negb (String.eqb (history_id e) id)) entries)).
Proof.
  induction entries as [|e entries IH]; [done|].
  cbn [map filter_out_id List.filter]. rewrite id_of_record, IH.
  cbn [is_string]. by destruct (String.eqb (history_id e) id).
Qed.

Lemma getAnalysisById_records id ls (entries : list AnalysisHistory) :
  getAnalysisHistory ls = to_js entries ->
  getAnalysisById id ls
  = Returned
      (match List.find (fun e => String.eqb (history_id e) id) entries with
       | Some e => to_js e
       | None => VNull
       end).
Proof.
  intros Hget. unfold getAnalysisById. rewrite Hget.
  change (to_js entries) with (VArr (map to_js entries)). cbv beta iota.
  rewrite find_by_id_records.
  by destruct (List.find _ entries) as [e|].
Qed.

Lemma wf_records (entries : list AnalysisHistory) :
  wf (to_js entries).
Proof.
  apply wf_arr, Forall_forall. intros v [e [-> _]]%list_elem_of_fmap.
  apply wf_AnalysisHistory.
Qed.

(** X1.  The record that [saveAnalysisToHistory] has just stored is the one
    that [getAnalysisById] finds under its id, whenever the stored history
    is an array. *)
Theorem saved_record_is_found result config env ls history :
  getAnalysisHistory ls = VArr history ->
  getAnalysisById (history_id (newEntry result config env))
    (saveAnalysisToHistory result config env ls)
  = Returned (to_js (newEntry result config env)).
Proof.
  intros Hget.
  assert (Hwf : Forall wf history).
  { apply wf_arr. rewrite <- Hget. apply getAnalysisHistory_wf. }
  unfold getAnalysisById.
  rewrite (saveAnalysisToHistory_array _ _ _ _ history) by done.
  cbn [take find_by_id]. rewrite id_of_record. cbn [is_string].
  rewrite String.eqb_refl. by rewrite record_truthy.
Qed.

Lemma saved_record_witness :
  getAnalysisById "analysis_7_abc"
    (saveAnalysisToHistory (Examples.an_analysis 10 [])
       {| websiteUrl := ""; config_keywords := []; targetAudience := "" |}
       {| now_id := 7; random_suffix := "abc"; now_timestamp := 8 |} ∅)
  = Returned
      (to_js (newEntry (Examples.an_analysis 10 [])
                {| websiteUrl := ""; config_keywords := [];
                   targetAudience := "" |}
                {| now_id := 7; random_suffix := "abc"; now_timestamp := 8 |})).
Proof.
  exact (saved_record_is_found (Examples.an_analysis 10 [])
           {| websiteUrl := ""; config_keywords := []; targetAudience := "" |}
           {| now_id := 7; random_suffix := "abc"; now_timestamp := 8 |}
           ∅ [] eq_refl).
Defined.

(** X2.  On a history of records, [deleteAnalysisFromHistory] removes every
    record that has the id and keeps the others in their order; after it
    [getAnalysisById] answers [null] for the id, and what it did for any
    other id. *)
Theorem delete_removes_the_id id ls (entries : list AnalysisHistory) :
  getAnalysisHistory ls = to_js entries ->
  let kept :=
    List.filter (fun e => negb (String.eqb (history_id e) id)) entries in
  getAnalysisHistory (deleteAnalysisFromHistory id ls) = to_js kept
  /\ getAnalysisById id (deleteAnalysisFromHistory id ls) = Returned VNull
  /\ forall id', id' <> id ->
       getAnalysisById id' (deleteAnalysisFromHistory id ls)
       = getAnalysisById id' ls.
Proof.
  intros Hget kept.
  assert (Hkept : getAnalysisHistory (deleteAnalysisFromHistory id ls)
                  = to_js kept).
  { unfold deleteAnalysisFromHistory. rewrite Hget.
    change (to_js entries) with (VArr (map to_js entries)). cbv beta iota.
    rewrite filter_out_id_records.
    apply getAnalysisHistory_setItem, wf_records. }
  split; [done|]. split.
  - rewrite (getAnalysisById_records _ _ kept) by done.
    destruct (List.find _ kept) as [e|] eqn:E; [|done].
    apply find_some in E as [Hin He]. apply filter_In in Hin as [_ Hne].
    by rewrite He in Hne.
  - intros id' Hne.
    rewrite (getAnalysisById_records _ _ kept),
      (getAnalysisById_records _ _ entries) by done.
    f_equal. unfold kept. clear Hget Hkept kept.
    induction entries as [|e entries IH]; [done|]. cbn [List.filter List.find].
    destruct (String.eqb_spec (history_id e) id) as [He|He]; cbn [negb].
    + destruct (String.eqb_spec (history_id e) id') as [He'|_]; [congruence|].
      exact IH.
    + cbn [List.find]. by destruct (String.eqb (history_id e) id').
Qed.

Definition first_record : AnalysisHistory :=
  newEntry (Examples.an_analysis 10 [])
    {| websiteUrl := "a.example"; config_keywords := ["seo"%string];
       targetAudience := "devs" |}
    {| now_id := 7; random_suffix := "abc"; now_timestamp := 8 |}.

Definition second_record : AnalysisHistory :=
  newEntry (Examples.an_analysis 20 [])
    {| websiteUrl := "b.example"; config_keywords := [];
       targetAudience := "ops" |}
    {| now_id := 9; random_suffix := "xyz"; now_timestamp := 9 |}.

Definition two_records : Storage :=
  setItem STORAGE_KEYS.ANALYSIS_HISTORY
    (stringify (to_js [second_record; first_record])) ∅.

Lemma delete_witness :
  getAnalysisHistory (deleteAnalysisFromHistory "analysis_9_xyz" two_records)
  = to_js [first_record]
  /\ getAnalysisById "analysis_9_xyz"
       (deleteAnalysisFromHistory "analysis_9_xyz" two_records)
     = Returned VNull.
Proof.
  destruct (delete_removes_the_id "analysis_9_xyz" two_records
              [second_record; first_record]) as (Hkept & Hgone & _).
  - vm_compute. reflexivity.
  - split; [exact Hkept|exact Hgone].
Defined.

(** ** A history that is not an array *)

Lemma not_an_array_save h result config env ls :
  getAnalysisHistory ls = h -> (forall l, h <> VArr l) ->
  saveAnalysisToHistory result config env ls = ls.
Proof.
  intros Hget Hno. unfold saveAnalysisToHistory. rewrite Hget.
  destruct h; try done. by destruct (Hno elems).
Qed.

Lemma not_an_array_save_all h calls ls :
  getAnalysisHistory ls = h -> (forall l, h <> VArr l) ->
  save_all calls ls = ls.
Proof.
  intros Hget Hno. induction calls as [|c calls IH] using rev_ind; [done|].
  unfold save_all in *. rewrite fold_left_app, IH. simpl.
  by apply (not_an_array_save h).
Qed.

(** X3.  [importHistoryFromJSON] does not look at what [history] is.  When the
    payload carries a truthy [history] that is not an array (a string, a
    number, an object), the import succeeds and stores it; from then on
    [getAnalysisHistory] returns that value, every
    [saveAnalysisToHistory] and [deleteAnalysisFromHistory] leaves the
    storage as it is, and [getAnalysisById] throws. *)
Theorem import_of_a_non_array_blocks_the_history jsonString data h ls :
  JSON.parse jsonString = Some data ->
  get_prop data "history" = Some (Some h) ->
  truthy (Some h) = true ->
  (forall l, h <> VArr l) ->
  let imported := snd (importHistoryFromJSON jsonString ls) in
  fst (importHistoryFromJSON jsonString ls) = true
  /\ getAnalysisHistory imported = h
  /\ (forall calls, save_all calls imported = imported)
  /\ (forall id, deleteAnalysisFromHistory id imported = imported)
  /\ (forall id, getAnalysisById id imported = Thrown "TypeError").
Proof.
  intros Hparse Hhist Htruthy Hno imported.
  assert (Hwf : wf h).
  { apply (get_prop_wf data "history"); [by eapply parse_wf|done]. }
  assert (Hget : getAnalysisHistory imported = h).
  { unfold imported, importHistoryFromJSON. rewrite Hparse, Hhist.
    destruct data as [| | | | |ps]; try done. cbn [get_prop snd].
    rewrite !store_if_truthy_other by done.
    unfold store_if_truthy. rewrite Htruthy.
    by apply getAnalysisHistory_setItem. }
  split; [|split; [done|split; [|split]]].
  - unfold importHistoryFromJSON. rewrite Hparse, Hhist.
    by destruct data as [| | | | |ps].
  - intros calls. by apply (not_an_array_save_all h).
  - intros id. unfold deleteAnalysisFromHistory. rewrite Hget.
    destruct h; try done. by destruct (Hno elems).
  - intros id. unfold getAnalysisById. rewrite Hget.
    destruct h; try done. by destruct (Hno elems).
Qed.

Definition odd_payload : string :=
  stringify (VObj [("history"%string, VStr "none")]).

Lemma import_of_a_non_array_witness :
  fst (importHistoryFromJSON odd_payload two_records) = true
  /\ getAnalysisHistory (snd (importHistoryFromJSON odd_payload two_records))
     = VStr "none"
  /\ save_all [Examples.nth_call 1]
       (snd (importHistoryFromJSON odd_payload two_records))
     = snd (importHistoryFromJSON odd_payload two_records).
Proof.
  destruct (import_of_a_non_array_blocks_the_history odd_payload
              (VObj [("history"%string, VStr "none")]) (VStr "none")
              two_records)
    as (Hok & Hget & Hsave & _); [reflexivity..|done|].
  split; [exact Hok|]. split; [exact Hget|]. apply Hsave.
Defined.

(** X4.  [clearAnalysisHistory] empties the history whatever was stored, also
    a value that is not an array: the next [saveAnalysisToHistory] leaves
    exactly its own record.  Preferences and brand voice stay. *)
Theorem clear_resets_the_history ls :
  getAnalysisHistory (clearAnalysisHistory ls) = VArr []
  /\ (forall result config env,
        getAnalysisHistory
          (saveAnalysisToHistory result config env (clearAnalysisHistory ls))
        = VArr [to_js (newEntry result config env)])
  /\ getPreferences (clearAnalysisHistory ls) = getPreferences ls
  /\ getBrandVoice (clearAnalysisHistory ls) = getBrandVoice ls.
Proof.
  assert (Hclear : getAnalysisHistory (clearAnalysisHistory ls) = VArr [])
    by apply getAnalysisHistory_removeItem.
  split; [done|]. split; [|split].
  - intros result config env.
    by rewrite (saveAnalysisToHistory_array _ _ _ _ []).
  - unfold getPreferences, clearAnalysisHistory, removeItem, getItem.
    by rewrite lookup_delete_ne.
  - unfold getBrandVoice, clearAnalysisHistory, removeItem, getItem.
    by rewrite lookup_delete_ne.
Qed.

(** ** Brand voice *)

Lemma wf_SentenceStructure (s : SentenceStructure) : wf (to_js s).
Proof. exact I. Qed.

#[local] Hint Resolve wf_SentenceStructure : wf_js.

Lemma wf_BrandVoiceProfile (p : BrandVoiceProfile) : wf (to_js p).
Proof. unfold to_js, BrandVoiceProfile_to_js. wf_object. Qed.

Lemma getBrandVoice_wf ls : wf (getBrandVoice ls).
Proof.
  unfold getBrandVoice.
  destruct (getItem _ ls) as [data|]; [|done].
  destruct (String.eqb data ""); [done|].
  destruct (JSON.parse data) eqn:E; [by eapply parse_wf|done].
Qed.

Lemma getBrandVoice_setItem ls v :
  wf v ->
  getBrandVoice (setItem STORAGE_KEYS.BRAND_VOICE (stringify v) ls) = v.
Proof.
  intros Hwf. unfold getBrandVoice, getItem, setItem.
  rewrite lookup_insert_eq, stringify_truthy. by rewrite parse_stringify.
Qed.


End RecordFacts.

(** * The persistence layer: recent keywords and audiences *)

Module RecentFacts.

Import JSON JSONFacts ToJSFacts HistoryFacts.

(** What one call makes of the list: an entry that is in the list changes
    nothing; a new one goes to the front, and the list is cut after [cap]
    entries. *)
Definition push_recent (cap : nat) (recent : list string) (s : string)
  : list string :=
  if bool_decide (s ∈ recent) then recent else take cap (s :: recent).

(* The calls, in the order they are made. *)
Definition add_keywords (keywords : list string) (ls : Storage) : Storage :=
  fold_left (fun ls keyword => addRecentKeyword keyword ls) keywords ls.

Definition add_audiences (audiences : list string) (ls : Storage) : Storage :=
  fold_left (fun ls audience => addRecentAudience audience ls) audiences ls.

Lemma includes_strings s (recent : list string) :
  includes s (map VStr recent) = bool_decide (s ∈ recent).
Proof.
  unfold includes. induction recent as [|s' recent IH]; [done|].
  rewrite map_cons. cbn [existsb]. rewrite IH. cbn [is_string].
  destruct (String.eqb_spec s' s) as [->|Hne]; simpl.
  - symmetry. apply bool_decide_eq_true_2. by left.
  - apply bool_decide_ext. rewrite elem_of_cons.
    split; [by right|]. by intros [->|?].
Qed.

Lemma wf_strings (recent : list string) : wf (VArr (map VStr recent)).
Proof.
  apply wf_arr, Forall_forall. by intros v [s [-> _]]%list_elem_of_fmap.
Qed.

Lemma cap_take_any {A} cap (l : list A) :
  (if (cap <? length l)%nat then take cap l else l) = take cap l.
Proof.
  destruct (Nat.ltb_spec cap (length l)); [done|].
  by rewrite take_ge by lia.
Qed.

Lemma getRecentKeywords_setItem ls v :
  wf v ->
  getRecentKeywords (setItem STORAGE_KEYS.RECENT_KEYWORDS (stringify v) ls) = v.
Proof.
  intros Hwf. unfold getRecentKeywords, getItem, setItem.
  rewrite lookup_insert_eq, stringify_truthy. by rewrite parse_stringify.
Qed.

Lemma getRecentAudiences_setItem ls v :
  wf v ->
  getRecentAudiences (setItem STORAGE_KEYS.RECENT_AUDIENCES (stringify v) ls)
  = v.
Proof.
  intros Hwf. unfold getRecentAudiences, getItem, setItem.
  rewrite lookup_insert_eq, stringify_truthy. by rewrite parse_stringify.
Qed.

Lemma addRecentKeyword_known keyword ls (recent : list string) :
  getRecentKeywords ls = to_js recent -> keyword ∈ recent ->
  addRecentKeyword keyword ls = ls.
Proof.
  intros Hget Hin. unfold addRecentKeyword. rewrite Hget.
  change (to_js recent) with (VArr (map VStr recent)). cbv beta iota.
  by rewrite includes_strings, bool_decide_eq_true_2.
Qed.

Lemma addRecentKeyword_new keyword ls (recent : list string) :
  getRecentKeywords ls = to_js recent -> keyword ∉ recent ->
  getRecentKeywords (addRecentKeyword keyword ls)
  = to_js (take 20 (keyword :: recent)).
Proof.
  intros Hget Hin. unfold addRecentKeyword. rewrite Hget.
  change (to_js recent) with (VArr (map VStr recent)). cbv beta iota.
  rewrite includes_strings, bool_decide_eq_false_2 by done. cbn [negb].
  rewrite cap_take_any.
  change (VStr keyword :: map VStr recent) with (map VStr (keyword :: recent)).
  rewrite <- fmap_take. apply getRecentKeywords_setItem, wf_strings.
Qed.

Lemma addRecentKeyword_step keyword ls (recent : list string) :
  getRecentKeywords ls = to_js recent ->
  getRecentKeywords (addRecentKeyword keyword ls)
  = to_js (push_recent 20 recent keyword).
Proof.
  intros Hget. unfold push_recent.
  destruct (decide (keyword ∈ recent)) as [Hin|Hin].
  - rewrite bool_decide_eq_true_2 by done.
    by rewrite (addRecentKeyword_known _ _ recent).
  - rewrite bool_decide_eq_false_2 by done. by apply addRecentKeyword_new.
Qed.

Lemma addRecentAudience_known audience ls (recent : list string) :
  getRecentAudiences ls = to_js recent -> audience ∈ recent ->
  addRecentAudience audience ls = ls.
Proof.
  intros Hget Hin. unfold addRecentAudience. rewrite Hget.
  change (to_js recent) with (VArr (map VStr recent)). cbv beta iota.
  by rewrite includes_strings, bool_decide_eq_true_2.
Qed.

Lemma addRecentAudience_new audience ls (recent : list string) :
  getRecentAudiences ls = to_js recent -> audience ∉ recent ->
  getRecentAudiences (addRecentAudience audience ls)
  = to_js (take 10 (audience :: recent)).
Proof.
  intros Hget Hin. unfold addRecentAudience. rewrite Hget.
  change (to_js recent) with (VArr (map VStr recent)). cbv beta iota.
  rewrite includes_strings, bool_decide_eq_false_2 by done. cbn [negb].
  rewrite cap_take_any.
  change (VStr audience :: map VStr recent) with (map VStr (audience :: recent)).
  rewrite <- fmap_take. apply getRecentAudiences_setItem, wf_strings.
Qed.

Lemma addRecentAudience_step audience ls (recent : list string) :
  getRecentAudiences ls = to_js recent ->
  getRecentAudiences (addRecentAudience audience ls)
  = to_js (push_recent 10 recent audience).
Proof.
  intros Hget. unfold push_recent.
  destruct (decide (audience ∈ recent)) as [Hin|Hin].
  - rewrite bool_decide_eq_true_2 by done.
    by rewrite (addRecentAudience_known _ _ recent).
  - rewrite bool_decide_eq_false_2 by done. by apply addRecentAudience_new.
Qed.

(** The list after a sequence of calls. *)
Lemma push_recent_NoDup cap recent s :
  NoDup recent -> NoDup (push_recent cap recent s).
Proof.
  intros Hnd. unfold push_recent. case_bool_decide as Hin; [done|].
  eapply sublist_NoDup; [|apply sublist_take]. by constructor.
Qed.

Lemma push_recent_length cap recent s :
  (length recent <= cap)%nat -> (length (push_recent cap recent s) <= cap)%nat.
Proof.
  intros Hle. unfold push_recent. case_bool_decide; [done|].
  rewrite length_take. lia.
Qed.

Lemma push_recent_elem cap recent s k :
  k ∈ push_recent cap recent s -> k = s \/ k ∈ recent.
Proof.
  unfold push_recent. case_bool_decide; [by right|].
  intros Hk. apply (subseteq_take cap (s :: recent)) in Hk.
  by apply elem_of_cons in Hk.
Qed.

Lemma push_recent_has cap recent s :
  (0 < cap)%nat -> s ∈ push_recent cap recent s.
Proof.
  intros Hcap. unfold push_recent. case_bool_decide; [done|].
  destruct cap; [lia|]. simpl. by left.
Qed.

Lemma pushed_all cap (items : list string) :
  (0 < cap)%nat ->
  let recent := fold_left (push_recent cap) items [] in
  NoDup recent /\ (length recent <= cap)%nat
  /\ (forall k, k ∈ recent -> k ∈ items)
  /\ (forall k, last items = Some k -> k ∈ recent).
Proof.
  intros Hcap. induction items as [|s items IH] using rev_ind.
  - simpl. split; [constructor|]. split; [lia|]. by split.
  - rewrite fold_left_app. cbn [fold_left].
    destruct IH as (Hnd & Hlen & Hsub & _).
    split; [by apply push_recent_NoDup|].
    split; [by apply push_recent_length|]. split.
    + intros k [->|Hk]%push_recent_elem; rewrite elem_of_app.
      * right. by left.
      * left. by apply Hsub.
    + intros k. rewrite last_snoc. intros [= <-]. by apply push_recent_has.
Qed.

Lemma add_keywords_recent keywords :
  getRecentKeywords (add_keywords keywords ∅)
  = to_js (fold_left (push_recent 20) keywords []).
Proof.
  induction keywords as [|k keywords IH] using rev_ind; [reflexivity|].
  unfold add_keywords in *. rewrite !fold_left_app. cbn [fold_left].
  by apply addRecentKeyword_step.
Qed.

Lemma add_audiences_recent audiences :
  getRecentAudiences (add_audiences audiences ∅)
  = to_js (fold_left (push_recent 10) audiences []).
Proof.
  induction audiences as [|a audiences IH] using rev_ind; [reflexivity|].
  unfold add_audiences in *. rewrite !fold_left_app. cbn [fold_left].
  by apply addRecentAudience_step.
Qed.

(** X6.  After any sequence of [addRecentKeyword] on an empty storage, the
    stored list holds keywords that were added, each once, at most 20 of
    them, the keyword of the last call among them.  Adding a keyword of
    the list again changes nothing (it keeps its place); adding a new one
    puts it first and drops what comes after the 20th place. *)
Theorem recent_keywords_are_distinct_and_capped (keywords : list string) :
  let st := add_keywords keywords ∅ in
  exists recent : list string,
    getRecentKeywords st = to_js recent
    /\ NoDup recent /\ (length recent <= 20)%nat
    /\ (forall k, k ∈ recent -> k ∈ keywords)
    /\ (forall k, last keywords = Some k -> k ∈ recent)
    /\ (forall k, k ∈ recent -> addRecentKeyword k st = st)
    /\ (forall k, k ∉ recent ->
          getRecentKeywords (addRecentKeyword k st)
          = to_js (take 20 (k :: recent))).
Proof.
  intros st. exists (fold_left (push_recent 20) keywords []).
  pose proof (add_keywords_recent keywords) as Hget.
  destruct (pushed_all 20 keywords) as (Hnd & Hlen & Hsub & Hlast); [lia|].
  repeat split; try done.
  - intros k Hk. by apply (addRecentKeyword_known _ _ _ Hget).
  - intros k Hk. by apply addRecentKeyword_new.
Qed.

(** X7.  The same for [addRecentAudience], with 10 places: after any
    sequence of calls on an empty storage the stored list holds audiences
    that were added, each once, at most 10 of them, the audience of the
    last call among them; adding one of them again changes nothing, and
    a new one goes first and pushes out what comes after the 10th
    place. *)
Theorem recent_audiences_are_distinct_and_capped (audiences : list string) :
  let st := add_audiences audiences ∅ in
  exists recent : list string,
    getRecentAudiences st = to_js recent
    /\ NoDup recent /\ (length recent <= 10)%nat
    /\ (forall a, a ∈ recent -> a ∈ audiences)
    /\ (forall a, last audiences = Some a -> a ∈ recent)
    /\ (forall a, a ∈ recent -> addRecentAudience a st = st)
    /\ (forall a, a ∉ recent ->
          getRecentAudiences (addRecentAudience a st)
          = to_js (take 10 (a :: recent))).
Proof.
  intros st. exists (fold_left (push_recent 10) audiences []).
  pose proof (add_audiences_recent audiences) as Hget.
  destruct (pushed_all 10 audiences) as (Hnd & Hlen & Hsub & Hlast); [lia|].
  repeat split; try done.
  - intros a Ha. by apply (addRecentAudience_known _ _ _ Hget).
  - intros a Ha. by apply addRecentAudience_new.
Qed.

End RecentFacts.

(** * The persistence layer: backup and restore *)

Module BackupFacts.

Import JSON JSONFacts ToJSFacts HistoryFacts PreferencesFacts ImportFacts
  CompareFacts RecordFacts.

(** Assigning over the keys that are there replaces the values in place. *)
Lemma assoc_set_in_place {V} k (v v' : V) (p q : list (string * V)) :
  k ∉ map fst p ->
  assoc_set k v' (p ++ (k, v) :: q) = p ++ (k, v') :: q.
Proof.
  induction p as [|[k0 v0] p IH]; simpl.
  - intros _. by rewrite String.eqb_refl.
  - intros [Hne Hk]%not_elem_of_cons.
    rewrite (proj2 (String.eqb_neq k k0)) by done. by rewrite IH.
Qed.

Lemma assoc_assign_same_keys {V} (p d d' : list (string * V)) :
  map fst d' = map fst d -> NoDup (map fst (p ++ d)) ->
  assoc_assign (p ++ d) d' = p ++ d'.
Proof.
  unfold assoc_assign. revert p d.
  induction d' as [|[k v'] d' IH]; intros p [|[k0 v] d] Hkeys Hnd; try done.
  simpl in Hkeys. injection Hkeys as <- Hkeys. simpl.
  rewrite map_app in Hnd. simpl in Hnd.
  apply NoDup_app in Hnd as (Hp & Hdisj & Hd).
  rewrite assoc_set_in_place by (intros Hin; apply (Hdisj _ Hin); by left).
  replace (p ++ (k, v') :: d) with ((p ++ [(k, v')]) ++ d)
    by by rewrite <- app_assoc.
  rewrite (IH _ d Hkeys); [by rewrite <- app_assoc|].
  rewrite <- app_assoc, map_app. simpl. apply NoDup_app. by split.
Qed.

Lemma assoc_set_app {V} k (v : V) (a t : list (string * V)) :
  assoc_set k v (a ++ t)
  = if bool_decide (k ∈ map fst a) then assoc_set k v a ++ t
    else a ++ assoc_set k v t.
Proof.
  induction a as [|[k0 v0] a IH]; [done|]. simpl.
  destruct (String.eqb_spec k k0) as [->|Hne].
  - rewrite bool_decide_eq_true_2; [done|]. by left.
  - rewrite IH. destruct (decide (k ∈ map fst a)) as [Hin|Hin].
    + rewrite !bool_decide_eq_true_2; [done|by right|done].
    + rewrite !bool_decide_eq_false_2; [done| |done].
      by intros [?|?]%elem_of_cons.
Qed.

(** What is assigned to [d] keeps the keys of [d] in front. *)
Lemma assoc_assign_front {V} (d s : list (string * V)) :
  exists d' t, assoc_assign d s = d' ++ t /\ map fst d' = map fst d.
Proof.
  induction s as [|[k v] s IH] using rev_ind.
  - exists d, []. by rewrite app_nil_r.
  - destruct IH as (d' & t & Heq & Hkeys).
    unfold assoc_assign in *. rewrite fold_left_app. simpl.
    rewrite Heq, assoc_set_app.
    destruct (decide (k ∈ map fst d')) as [Hin|Hin].
    + rewrite bool_decide_eq_true_2 by done.
      exists (assoc_set k v d'), t. split; [done|].
      rewrite <- Hkeys, assoc_set_keys_list.
      by rewrite bool_decide_eq_true_2.
    + rewrite bool_decide_eq_false_2 by done. by exists d', (assoc_set k v t).
Qed.

Lemma assoc_assign_again {V} (d s : list (string * V)) :
  NoDup (map fst d) ->
  assoc_assign d (assoc_assign d s) = assoc_assign d s.
Proof.
  intros Hd.
  assert (Hnd : NoDup (map fst (assoc_assign d s))).
  { unfold assoc_assign. revert d Hd.
    induction s as [|[k v] s IH]; intros d Hd; [done|]. simpl.
    apply IH. by apply assoc_set_keys. }
  destruct (assoc_assign_front d s) as (d' & t & Heq & Hkeys).
  rewrite Heq in *. unfold assoc_assign at 1. rewrite fold_left_app.
  fold (assoc_assign d d').
  pose proof (assoc_assign_same_keys [] d d' Hkeys Hd) as Hsame.
  simpl in Hsame. rewrite Hsame.
  fold (assoc_assign d' t). by apply assoc_assign_fresh.
Qed.

(** Overlaying the defaults with what [getPreferences] returned gives the
    same object again. *)
Lemma getPreferences_again ls :
  spread [to_js DEFAULT_PREFERENCES; getPreferences ls] = getPreferences ls.
Proof.
  rewrite defaults_js, spread_two by apply defaults_nodup.
  unfold getPreferences.
  destruct (getItem STORAGE_KEYS.PREFERENCES ls) as [data|];
    [destruct (String.eqb data "")|];
    [| destruct (JSON.parse data) as [stored|] |]; try reflexivity.
  rewrite defaults_js, spread_two by apply defaults_nodup.
  cbn [own_props]. f_equal. apply assoc_assign_again, defaults_nodup.
Qed.

Lemma getBrandVoice_other k s ls :
  k <> STORAGE_KEYS.BRAND_VOICE ->
  getBrandVoice (setItem k s ls) = getBrandVoice ls.
Proof.
  intros Hk. unfold getBrandVoice, getItem, setItem.
  by rewrite lookup_insert_ne.
Qed.

Lemma getPreferences_other k s ls :
  k <> STORAGE_KEYS.PREFERENCES ->
  getPreferences (setItem k s ls) = getPreferences ls.
Proof.
  intros Hk. unfold getPreferences, getItem, setItem.
  by rewrite lookup_insert_ne.
Qed.

(* The object that [exportHistoryAsJSON] serialises. *)
Definition backup (now : number) (ls : Storage) : value :=
  VObj [("exportedAt"%string, to_js now);
        ("version"%string, VStr "1.0");
        ("history"%string, getAnalysisHistory ls);
        ("brandVoice"%string, getBrandVoice ls);
        ("preferences"%string, getPreferences ls)].

Lemma parse_backup now ls :
  JSON.parse (exportHistoryAsJSON now ls) = Some (backup now ls).
Proof.
  unfold exportHistoryAsJSON. apply parse_stringify_indent2.
  apply wf_obj. split; [compute_done|].
  repeat constructor; simpl.
  - apply getAnalysisHistory_wf.
  - apply getBrandVoice_wf.
  - apply getPreferences_shape.
Qed.

(** X8.  Restoring a backup.  [importHistoryFromJSON], given the text that
    [exportHistoryAsJSON] produced from a storage, succeeds on any target
    storage; afterwards the preferences are those of the source, and so is
    the history when the source had an array.  A brand voice of the source
    is restored; when the source had none, the brand voice of the target is
    left as it was, not cleared. *)
Theorem backup_is_restored (now : number) (source target : Storage) :
  let restored :=
    importHistoryFromJSON (exportHistoryAsJSON now source) target in
  fst restored = true
  /\ getPreferences (snd restored) = getPreferences source
  /\ (forall l, getAnalysisHistory source = VArr l ->
        getAnalysisHistory (snd restored) = VArr l)
  /\ (truthy (Some (getBrandVoice source)) = true ->
        getBrandVoice (snd restored) = getBrandVoice source)
  /\ (getBrandVoice source = VNull ->
        getBrandVoice (snd restored) = getBrandVoice target).
Proof.
  intros restored. unfold restored, importHistoryFromJSON.
  rewrite parse_backup. unfold backup. cbn [get_prop assoc_get String.eqb
    Ascii.eqb Bool.eqb fst snd].
  pose proof (getPreferences_shape source) as (Hwf & ps & Hps & _).
  assert (Hpref : truthy (Some (getPreferences source)) = true)
    by by rewrite Hps.
  split; [done|]. split; [|split; [|split]].
  - unfold store_if_truthy at 1. rewrite Hpref.
    rewrite getPreferences_setItem by done. apply getPreferences_again.
  - intros l Hl. rewrite store_if_truthy_other by done.
    rewrite store_if_truthy_other by done.
    rewrite Hl. cbn [store_if_truthy truthy].
    apply getAnalysisHistory_setItem. rewrite <- Hl.
    apply getAnalysisHistory_wf.
  - intros Hvoice. unfold store_if_truthy at 1. rewrite Hpref.
    rewrite getBrandVoice_other by done.
    unfold store_if_truthy at 1. rewrite Hvoice.
    apply getBrandVoice_setItem, getBrandVoice_wf.
  - intros Hvoice. unfold store_if_truthy at 1. rewrite Hpref.
    rewrite getBrandVoice_other by done. rewrite Hvoice.
    cbn [store_if_truthy truthy].
    match goal with |- context [if ?b then _ else _] => destruct b end;
      [by apply getBrandVoice_other|done].
Qed.

End BackupFacts.

(** * The default shortcuts *)

Module DefaultShortcutFacts.

Import ShortcutFacts.

(** Two entries ask for the same chord: the same key up to case and the
    same modifiers. *)
Definition same_chord {Action} (a b : KeyboardShortcut Action) : bool :=
  String.eqb (toLowerCase (key a)) (toLowerCase (key b))
  && Bool.eqb (flag (ctrl a)) (flag (ctrl b))
  && Bool.eqb (flag (alt a)) (flag (alt b))
  && Bool.eqb (flag (shift a)) (flag (shift b)).

Fixpoint distinct_chords {Action} (shortcuts : list (KeyboardShortcut Action))
  : bool :=
  match shortcuts with
  | [] => true
  | a :: rest =>
      forallb (fun b => negb (same_chord a b)) rest && distinct_chords rest
  end.

Lemma matches_same_chord {Action} event (a b : KeyboardShortcut Action) :
  matches event a = true -> matches event b = true -> same_chord a b = true.
Proof.
  unfold matches, same_chord.
  destruct (String.eqb_spec (toLowerCase (event_key event))
              (toLowerCase (key a))) as [Ha|]; [|done].
  destruct (String.eqb_spec (toLowerCase (event_key event))
              (toLowerCase (key b))) as [Hb|]; [|done].
  rewrite <- Ha, <- Hb, String.eqb_refl.
  destruct (flag (ctrl a)), (flag (ctrl b)), (flag (alt a)), (flag (alt b)),
    (flag (shift a)), (flag (shift b)), (ctrlKey event), (metaKey event),
    (altKey event), (shiftKey event); done.
Qed.

(** In a list of distinct chords the entry that matches is the one that
    the loop reaches. *)
Lemma dispatch_distinct {Action} event
    (shortcuts : list (KeyboardShortcut Action)) shortcut :
  distinct_chords shortcuts = true ->
  shortcut ∈ shortcuts -> matches event shortcut = true ->
  dispatch event shortcuts = [PreventDefault; Invoke (action shortcut)]
  /\ forall other, other ∈ shortcuts -> matches event other = true ->
       other = shortcut.
Proof.
  induction shortcuts as [|a rest IH]; intros Hd Hin Hm.
  - by apply elem_of_nil in Hin.
  - cbn [distinct_chords] in Hd. apply andb_true_iff in Hd as [Ha Hrest].
    rewrite forallb_forall in Ha.
    assert (Hone : forall b, b ∈ rest -> matches event a = true ->
                     matches event b = true -> False).
    { intros b Hb Hma Hmb. apply list_elem_of_In, Ha in Hb.
      by rewrite (matches_same_chord event a b) in Hb. }
    cbn [dispatch]. apply elem_of_cons in Hin as [->|Hin].
    + rewrite Hm. split; [done|].
      intros other [->|Ho]%elem_of_cons Hmo; [done|].
      destruct (Hone other Ho Hm Hmo).
    + destruct (matches event a) eqn:Hma; [destruct (Hone _ Hin eq_refl Hm)|].
      destruct (IH Hrest Hin Hm) as [Hrun Huniq]. split; [done|].
      intros other [->|Ho]%elem_of_cons Hmo; [congruence|by apply Huniq].
Qed.

Lemma default_chords_distinct {Action} (noop : Action) actions :
  distinct_chords (getDefaultShortcuts noop actions) = true.
Proof. reflexivity. Qed.

(** X9.  Every default shortcut fires on its chord, wherever it stands in the
    list: for a key event outside text-entry controls that matches a
    default entry, the handler prevents the default action of the event
    and calls the action of that entry; no other default entry matches
    the event. *)
Theorem default_shortcuts_fire_on_their_chord {Action} (noop : Action)
    (actions : DefaultActions Action) (event : KeyboardEvent)
    (shortcut : KeyboardShortcut Action) :
  shortcut ∈ getDefaultShortcuts noop actions ->
  matches event shortcut = true ->
  is_text_entry (target event) = false ->
  handleKeyDown (getDefaultShortcuts noop actions) true event
  = [PreventDefault; Invoke (action shortcut)]
  /\ forall other,
       other ∈ getDefaultShortcuts noop actions ->
       matches event other = true -> other = shortcut.
Proof.
  intros Hin Hm Htarget. unfold handleKeyDown. cbn [negb]. rewrite Htarget.
  apply dispatch_distinct; [apply default_chords_distinct|done..].
Qed.

Definition named_actions : DefaultActions string :=
  {| analyze := Some "analyze"%string; export_ := Some "export"%string;
     copy := Some "copy"%string; nextSection := Some "next"%string;
     prevSection := Some "prev"%string; toggleHistory := None;
     toggleSettings := None; newAnalysis := None; toggleHelp := None;
     search := Some "search"%string |}.

(* K without a modifier, outside text-entry controls. *)
Definition plain_k : KeyboardEvent :=
  {| event_key := "K"; ctrlKey := false; metaKey := false; altKey := false;
     shiftKey := false; target := plain_target |}.

Lemma default_shortcuts_witness :
  handleKeyDown (getDefaultShortcuts "noop"%string named_actions) true plain_k
  = [PreventDefault; Invoke "prev"%string].
Proof.
  refine (proj1 (default_shortcuts_fire_on_their_chord "noop"%string
                   named_actions plain_k
                   {| key := "k"; ctrl := Some false; alt := None;
                      shift := None; meta := None; action := "prev"%string;
                      description := "Previous section";
                      category := navigation_ |} _ eq_refl eq_refl)).
  unfold getDefaultShortcuts, named_actions. simpl.
  do 5 apply list_elem_of_further. apply list_elem_of_here.
Defined.

(* No action supplied. *)
Definition no_actions {Action} : DefaultActions Action :=
  {| analyze := None; export_ := None; copy := None; nextSection := None;
     prevSection := None; toggleHistory := None; toggleSettings := None;
     newAnalysis := None; toggleHelp := None; search := None |}.

(** X10.  The chords of the default shortcuts are taken from the page also
    when no action stands behind them: with no action supplied, a key
    event that matches a default entry still has its default action
    prevented, and only the empty function is called. *)
Theorem unassigned_chords_are_still_taken {Action} (noop : Action)
    (event : KeyboardEvent) (shortcut : KeyboardShortcut Action) :
  shortcut ∈ getDefaultShortcuts noop no_actions ->
  matches event shortcut = true ->
  is_text_entry (target event) = false ->
  handleKeyDown (getDefaultShortcuts noop no_actions) true event
  = [PreventDefault; Invoke noop].
Proof.
  intros Hin Hm Htarget. unfold handleKeyDown. cbn [negb]. rewrite Htarget.
  destruct (dispatch_distinct event _ shortcut
              (default_chords_distinct noop no_actions) Hin Hm) as [-> _].
  do 2 f_equal. unfold getDefaultShortcuts, no_actions in Hin. cbn in Hin.
  repeat (apply elem_of_cons in Hin as [->|Hin]; [done|]).
  by apply elem_of_nil in Hin.
Qed.

(* Ctrl+S outside text-entry controls. *)
Definition ctrl_s : KeyboardEvent :=
  {| event_key := "s"; ctrlKey := true; metaKey := false; altKey := false;
     shiftKey := false; target := plain_target |}.

Lemma unassigned_chords_witness :
  handleKeyDown (getDefaultShortcuts "noop"%string no_actions) true ctrl_s
  = [PreventDefault; Invoke "noop"%string].
Proof.
  refine (unassigned_chords_are_still_taken "noop"%string ctrl_s
            {| key := "s"; ctrl := Some true; alt := None; shift := None;
               meta := None; action := "noop"%string;
               description := "Save / Export"; category := export |}
            _ eq_refl eq_refl).
  unfold getDefaultShortcuts, no_actions. simpl.
  do 10 apply list_elem_of_further. apply list_elem_of_here.
Defined.

End DefaultShortcutFacts.

(** * Shortcut labels *)

Module LabelFacts.

Definition plus : ascii := "+"%char.

(* A key that does not contain the separator of the label. *)
Definition plain (s : string) : Prop := plus ∉ chars s.

(* A string of ASCII characters: every byte of its text is below 128. *)
Definition ascii_only (s : string) : Prop :=
  Forall (fun c => (nat_of_ascii c < 128)%nat) (chars s).

Lemma lower_upper_char c : lower_char (upper_char c) = lower_char c.
Proof. by destruct c as [[] [] [] [] [] [] [] []]. Qed.

Lemma toLowerCase_toUpperCase s : toLowerCase (toUpperCase s) = toLowerCase s.
Proof.
  induction s as [|c s IH]; [done|]. simpl. by rewrite lower_upper_char, IH.
Qed.

(* No small letter is left. *)
Definition small (c : ascii) : bool :=
  (Nat.leb 97 (nat_of_ascii c) && Nat.leb (nat_of_ascii c) 122)%bool.

Lemma upper_char_not_lower c : small (upper_char c) = true -> False.
Proof.
  destruct c as [[] [] [] [] [] [] [] []]; intros H; vm_compute in H;
    discriminate H.
Qed.

Lemma upper_char_plus c : upper_char c = plus -> c = plus.
Proof. by destruct c as [[] [] [] [] [] [] [] []]. Qed.

Lemma plain_toUpperCase s : plain s -> plain (toUpperCase s).
Proof.
  unfold plain. induction s as [|c s IH]; [done|]. simpl.
  intros [Hc Hs]%not_elem_of_cons. apply not_elem_of_cons. split; [|auto].
  intros H. symmetry in H. by apply upper_char_plus in H.
Qed.

(* What follows a part inside a label: nothing, or the separator. *)
Definition follows (r : string) : Prop :=
  r = EmptyString \/ exists r', r = String plus r'.

Lemma part_inj x y r1 r2 :
  plain x -> plain y -> follows r1 -> follows r2 ->
  x +:+ r1 = y +:+ r2 -> x = y /\ r1 = r2.
Proof.
  unfold plain. revert y. induction x as [|c x IH]; intros [|d y] Hx Hy H1 H2.
  - done.
  - change (r1 = String d (y +:+ r2) -> EmptyString = String d y /\ r1 = r2).
    intros ->. destruct H1 as [?|[r' [= Hd _]]]; [done|].
    destruct Hy. simpl. rewrite Hd. by left.
  - change (String c (x +:+ r1) = r2 -> String c x = EmptyString /\ r1 = r2).
    intros <-. destruct H2 as [?|[r' [= Hc _]]]; [done|].
    destruct Hx. simpl. rewrite Hc. by left.
  - change (String c (x +:+ r1) = String d (y +:+ r2)
            -> String c x = String d y /\ r1 = r2).
    intros [= -> Heq]. simpl in Hx, Hy.
    apply not_elem_of_cons in Hx as [_ Hx].
    apply not_elem_of_cons in Hy as [_ Hy].
    by destruct (IH y Hx Hy H1 H2 Heq) as [-> ->].
Qed.

Lemma append_empty x : x +:+ EmptyString = x.
Proof.
  induction x as [|c x IH]; [done|].
  change (String c (x +:+ EmptyString) = String c x). by rewrite IH.
Qed.

Lemma join_cons sep x (l : list string) :
  join sep (x :: l)
  = x +:+ match l with [] => EmptyString | _ => sep +:+ join sep l end.
Proof. destruct l; [|done]. by rewrite append_empty. Qed.

Lemma join_follows (l : list string) :
  follows match l with [] => EmptyString | _ => "+" +:+ join "+" l end.
Proof. destruct l; [by left|right; by eexists]. Qed.

Lemma join_inj (l1 l2 : list string) :
  Forall plain l1 -> Forall plain l2 ->
  l1 <> [] -> l2 <> [] ->
  join "+" l1 = join "+" l2 -> l1 = l2.
Proof.
  intros H1. revert l2.
  induction H1 as [|x l1 Hx H1 IH]; intros l2 H2 Hn1 Hn2; [done|].
  destruct H2 as [|y l2 Hy H2]; [done|]. rewrite !join_cons. intros Heq.
  apply part_inj in Heq as [-> Hrest]; [|done|done|apply join_follows..].
  f_equal. destruct l1 as [|x1 l1], l2 as [|y1 l2]; try done.
  apply IH; [done..|]. by injection Hrest.
Qed.

(* The parts of a label. *)
Definition parts {Action} (shortcut : KeyboardShortcut Action) : list string :=
  (if flag (ctrl shortcut) then ["Ctrl"] else [])
  ++ (if flag (alt shortcut) then ["Alt"] else [])
  ++ (if flag (shift shortcut) then ["Shift"] else [])
  ++ (if flag (meta shortcut) then ["⌘"] else [])
  ++ [toUpperCase (key shortcut)].

Lemma formatShortcut_parts {Action} (shortcut : KeyboardShortcut Action) :
  formatShortcut shortcut = join "+" (parts shortcut).
Proof.
  unfold formatShortcut, parts.
  by destruct (flag (ctrl shortcut)), (flag (alt shortcut)),
    (flag (shift shortcut)), (flag (meta shortcut)).
Qed.

Lemma parts_plain {Action} (shortcut : KeyboardShortcut Action) :
  plain (key shortcut) -> Forall plain (parts shortcut).
Proof.
  intros Hkey. apply plain_toUpperCase in Hkey. unfold parts.
  assert (Hnames : plain "Ctrl" /\ plain "Alt" /\ plain "Shift" /\ plain "⌘").
  { unfold plain. repeat split; intros H; simpl in H;
      repeat (apply elem_of_cons in H as [?|H]; [done|]);
      by apply elem_of_nil in H. }
  destruct Hnames as (? & ? & ? & ?).
  destruct (flag (ctrl shortcut)), (flag (alt shortcut)),
    (flag (shift shortcut)), (flag (meta shortcut));
    repeat constructor; done.
Qed.

Lemma parts_not_nil {Action} (shortcut : KeyboardShortcut Action) :
  parts shortcut <> [].
Proof.
  unfold parts.
  by destruct (flag (ctrl shortcut)), (flag (alt shortcut)),
    (flag (shift shortcut)), (flag (meta shortcut)).
Qed.

(** X11.  The label tells the chord, for keys written in ASCII.  Two entries
    whose keys consist of ASCII characters other than [+] and whose
    labels are equal set the same modifiers and have the same key up to
    case; the handler therefore treats them alike: every key event
    matches both or neither.  (Beyond ASCII the upper case of a key can
    be the upper case of another key that the handler tells apart.) *)
Theorem equal_labels_match_the_same_events {Action}
    (a b : KeyboardShortcut Action) :
  ascii_only (key a) -> ascii_only (key b) ->
  plain (key a) -> plain (key b) ->
  formatShortcut a = formatShortcut b ->
  flag (ctrl a) = flag (ctrl b) /\ flag (alt a) = flag (alt b)
  /\ flag (shift a) = flag (shift b) /\ flag (meta a) = flag (meta b)
  /\ toLowerCase (key a) = toLowerCase (key b)
  /\ forall event, matches event a = matches event b.
Proof.
  intros _ _ Ha Hb. rewrite !formatShortcut_parts. intros Heq.
  apply join_inj in Heq;
    [|by apply parts_plain|by apply parts_plain|apply parts_not_nil..].
  assert (Hup : forall s, toUpperCase s <> "Ctrl"%string
                          /\ toUpperCase s <> "Alt"%string
                          /\ toUpperCase s <> "Shift"%string).
  { intros s. repeat split; intros H;
      destruct s as [|c1 [|c2 s]]; try discriminate;
      injection H as _ H2 _;
      apply (upper_char_not_lower c2); by rewrite H2. }
  assert (Hflags : flag (ctrl a) = flag (ctrl b) /\ flag (alt a) = flag (alt b)
                   /\ flag (shift a) = flag (shift b)
                   /\ flag (meta a) = flag (meta b)
                   /\ toUpperCase (key a) = toUpperCase (key b)).
  { unfold parts in Heq.
    destruct (Hup (key a)) as (? & ? & ?), (Hup (key b)) as (? & ? & ?).
    destruct (flag (ctrl a)), (flag (alt a)), (flag (shift a)),
      (flag (meta a)), (flag (ctrl b)), (flag (alt b)), (flag (shift b)),
      (flag (meta b)); simpl in Heq; simplify_eq; try done. }
  destruct Hflags as (Hc & Hal & Hs & Hm & Hk).
  assert (Hlow : toLowerCase (key a) = toLowerCase (key b))
    by by rewrite <- (toLowerCase_toUpperCase (key a)), Hk,
         toLowerCase_toUpperCase.
  repeat split; try done.
  intros event. unfold matches. by rewrite Hc, Hal, Hs, Hlow.
Qed.

Definition upper_k : KeyboardShortcut unit :=
  {| key := "K"; ctrl := Some true; alt := Some false; shift := None;
     meta := None; action := tt; description := "Search";
     category := general |}.

Definition lower_k : KeyboardShortcut unit :=
  {| key := "k"; ctrl := Some true; alt := None; shift := None;
     meta := Some false; action := tt; description := "Find";
     category := navigation_ |}.

Lemma equal_labels_witness :
  formatShortcut upper_k = "Ctrl+K"%string
  /\ formatShortcut lower_k = "Ctrl+K"%string
  /\ matches ShortcutFacts.command_k upper_k
     = matches ShortcutFacts.command_k lower_k.
Proof.
  split; [reflexivity|]. split; [reflexivity|].
  assert (Hk : ascii_only "K" /\ ascii_only "k")
    by (split; repeat constructor; simpl; lia).
  destruct (equal_labels_match_the_same_events upper_k lower_k
              (proj1 Hk) (proj2 Hk))
    as (_ & _ & _ & _ & _ & Hsame);
    [unfold plain; simpl; compute_done..|reflexivity|apply Hsame].
Defined.

End LabelFacts.

(** * The comparison: a failed analysis, and what becomes of the model's
      answer *)

Module ComparisonFacts.

Import ServiceFacts.

Section Runs.

Context {World : Type}.
Variable analysis_client : AnalyzeArgs -> World -> ending * World.
Variable model_provider :
  GenerateRequest -> World -> outcome string * World.

(* An analysis that returned. *)
Definition returned_analysis (ev : Event) : Prop :=
  match ev with
  | Analyze _ (Returned _) => True
  | _ => False
  end.

Lemma returned_events_returned requests analyses :
  Forall returned_analysis (returned_events requests analyses).
Proof.
  unfold returned_events. revert analyses.
  induction requests as [|r requests IH]; intros [|a analyses]; simpl;
    constructor; auto. exact I.
Qed.

Lemma thrown_by_settled how error :
  thrown_by how = Some error -> settled how = Thrown error.
Proof. destruct how; simpl; congruence. Qed.

(* The only analysis that a failed call leaves in the log is its own. *)
Lemma call_events_thrown request how request' error :
  Analyze request' (Thrown error) ∈ call_events request how ->
  request' = request /\ settled how = Thrown error.
Proof.
  unfold call_events. intros [Hin|Hin]%elem_of_app.
  - destruct how; [by apply elem_of_nil in Hin..|].
    apply list_elem_of_singleton in Hin. discriminate.
  - apply list_elem_of_singleton in Hin. by injection Hin as -> ->.
Qed.

(* Anything but an analysis. *)
Definition no_analysis (ev : Event) : Prop :=
  match ev with
  | Analyze _ _ => False
  | _ => True
  end.

Lemma insights_log yourAnalysis competitorAnalyses keywords st :
  exists events,
    Forall no_analysis events
    /\ log (snd (generateCompetitiveInsights model_provider yourAnalysis
                   competitorAnalyses keywords st))
       = log st ++ events.
Proof.
  unfold generateCompetitiveInsights, try_catch, bind at 1, generateContent.
  destruct (model_provider _ (world st)) as [[response|error] w1].
  - destruct (JSON.parse (trim response)) as [parsed|].
    + destruct (get_prop parsed "insights") as [[member|]|];
        eexists; (split; [|cbn; try rewrite <- app_assoc; reflexivity]);
        by repeat constructor.
    + eexists. split; [|cbn; rewrite <- app_assoc; reflexivity].
      by repeat constructor.
  - eexists. split; [|cbn; rewrite <- app_assoc; reflexivity].
    by repeat constructor.
Qed.

Lemma returned_not_thrown events request error :
  Forall returned_analysis events ->
  Analyze request (Thrown error) ∈ events -> False.
Proof.
  intros Hall Hin. rewrite Forall_forall in Hall. exact (Hall _ Hin).
Qed.

(** X12.  A run of [actionCompetitorComparison] in which an analysis throws
    ends there.  The analyses that were called are those of the own page
    and of the competitor images up to the one that threw, in order and
    one after the other; all of them but the last returned.  The
    function throws what the last one threw, and it has done nothing
    else: the images after the failed one are not analysed, the model is
    not asked for insights, and the only thing written to the console is
    what the failed analysis wrote itself when it had caught
    something. *)
Theorem failed_analysis_ends_the_comparison (args : ComparisonArgs)
    (w : World) (outcome_ : outcome ComparisonResult) (final : State World)
    (request : AnalyzeArgs) (error : string) :
  actionCompetitorComparison analysis_client model_provider args (init w)
  = (outcome_, final) ->
  Analyze request (Thrown error) ∈ log final ->
  let requests :=
    your_request args
    :: map (competitor_request args) (competitorScreenshots args) in
  exists earlier how,
    (length earlier <= length (competitorScreenshots args))%nat
    /\ client_calls analysis_client (take (S (length earlier)) requests) w
       = (map analysed earlier ++ [how], world final)
    /\ requests !! length earlier = Some request
    /\ thrown_by how = Some error
    /\ outcome_ = Thrown error
    /\ log final = returned_events requests earlier ++ call_events request how.
Proof.
  intros Hrun Hin requests. revert Hrun Hin.
  unfold actionCompetitorComparison, bind at 1,
    actionAnalyzeScreenshotEnhanced at 1. cbn [init world log app].
  destruct (analysis_client (your_request args) w)
    as [[yours|e0|e0 m0] w1] eqn:Hcall.
  2,3: intros [= <- <-] Hin; cbn [log] in Hin;
       match goal with
       | |- context [your_request] =>
           match type of Hcall with
           | _ = (?how, _) =>
               apply (call_events_thrown (your_request args) how) in Hin
                 as [-> [= <-]];
               exists [], how; cbn [length take client_calls requests];
               rewrite Hcall; repeat split; simpl; lia || done
           end
       end.
  unfold bind at 1.
  match goal with
  | |- context [competitor_loop _ _ _ ?r ?s] =>
      pose proof (competitor_loop_run analysis_client args
                    (competitorScreenshots args) r s) as Hloop;
      destruct (competitor_loop analysis_client args
                  (competitorScreenshots args) r s) as [[all|e1] st1]
  end; cbn [log world app] in Hloop; cbv zeta in Hloop.
  - destruct Hloop as (theirs & -> & Hcalls & Hlog). cbn [app].
    unfold bind at 1.
    pose proof (insights_run model_provider yours theirs
                  (comparison_keywords args) st1) as Hsyn.
    cbv zeta in Hsyn.
    destruct (insights_log yours theirs (comparison_keywords args) st1)
      as (events & Hquiet & Hlog2).
    destruct (generateCompetitiveInsights model_provider yours theirs
                (comparison_keywords args) st1) as [[found|e2] st2];
      [|done].
    unfold ret. intros [= <- <-] Hin. exfalso. cbn [snd] in Hlog2.
    rewrite Hlog2, Hlog in Hin.
    apply elem_of_app in Hin as [Hin|Hin].
    + apply elem_of_cons in Hin as [?|Hin]; [discriminate|].
      exact (returned_not_thrown _ _ _
               (returned_events_returned _ _) Hin).
    + rewrite Forall_forall in Hquiet. exact (Hquiet _ Hin).
  - destruct Hloop as (earlier & how & Hlen & Hcalls & Hthrown & Hlog).
    intros [= <- <-] Hin. rewrite Hlog in Hin |- *.
    rewrite length_map in Hlen.
    destruct (lookup_lt_is_Some_2
                (map (competitor_request args) (competitorScreenshots args))
                (length earlier)) as [failed_request Hat];
      [by rewrite length_map|].
    rewrite Hat in Hin |- *.
    assert (Hlast : request = failed_request /\ error = e1).
    { apply elem_of_cons in Hin as [?|Hin]; [discriminate|].
      apply elem_of_app in Hin as [Hin|Hin].
      - destruct (returned_not_thrown _ _ _
                    (returned_events_returned _ _) Hin).
      - apply call_events_thrown in Hin as [-> Hsettled].
        rewrite (thrown_by_settled _ _ Hthrown) in Hsettled.
        by injection Hsettled. }
    destruct Hlast as [-> ->].
    exists (yours :: earlier), how.
    cbn [length take client_calls requests map app lookup list_lookup].
    rewrite Hcall, Hcalls. repeat split; try done; lia.
Qed.

(** X13.  [generateCompetitiveInsights] never throws, whatever the model
    provider does.  What it returns is the [insights] member of the
    object that the answer denotes, when there is one and it is truthy;
    in every other case the empty list: when the call throws, when the
    answer is not JSON, when it is [null], and also when it is a JSON
    array, the form that the prompt asks for. *)
Theorem insights_are_the_insights_member (yourAnalysis : AnalysisResult)
    (competitorAnalyses : list AnalysisResult) (keywords : list string)
    (st : State World) :
  let request := insights_request yourAnalysis competitorAnalyses in
  exists found st',
    generateCompetitiveInsights model_provider yourAnalysis
      competitorAnalyses keywords st
    = (Returned found, st')
    /\ (forall error w,
          model_provider request (world st) = (Thrown error, w) ->
          found = VArr [])
    /\ (forall response w,
          model_provider request (world st) = (Returned response, w) ->
          found
          = match JSON.parse (trim response) with
            | Some (VObj props) =>
                match assoc_get "insights" props with
                | Some member =>
                    if truthy (Some member) then member else VArr []
                | None => VArr []
                end
            | _ => VArr []
            end).
Proof.
  intros request. unfold generateCompetitiveInsights, try_catch, bind at 1.
  unfold generateContent. fold request.
  destruct (model_provider request (world st)) as [[response|error] w1].
  - destruct (JSON.parse (trim response)) as [parsed|] eqn:Hparse.
    + destruct (get_prop parsed "insights") as [[member|]|] eqn:Hprop.
      * eexists _, _. split; [reflexivity|]. split; [done|].
        intros ? ? [= <- <-]. rewrite Hparse.
        destruct parsed; try done. simpl in Hprop.
        injection Hprop as ->. done.
      * eexists _, _. split; [reflexivity|]. split; [done|].
        intros ? ? [= <- <-]. rewrite Hparse.
        destruct parsed; try done. simpl in Hprop.
        injection Hprop as ->. done.
      * eexists _, _. split; [reflexivity|]. split; [done|].
        intros ? ? [= <- <-]. rewrite Hparse. by destruct parsed.
    + eexists _, _. split; [reflexivity|]. split; [done|].
      intros ? ? [= <- <-]. by rewrite Hparse.
  - eexists _, _. split; [reflexivity|]. split; [done|]. done.
Qed.

End Runs.

(* In the analysis of the second competitor image the model provider
   throws an [Error] with the message 429. *)
Definition third_call_fails (args : AnalyzeArgs) (calls : nat)
  : ending * nat :=
  (if Nat.eqb calls 2 then failed "Error: 429" (Some "429"%string)
   else analysed (Examples.an_analysis (Z.of_nat calls) []),
   S calls).

Definition ended_run : outcome ComparisonResult * State nat :=
  actionCompetitorComparison third_call_fails
    (fun request calls => (Returned "[]"%string, calls))
    Examples.two_competitors (init 0%nat).

Lemma failed_analysis_witness :
  fst ended_run = Thrown "Failed to analyze screenshot: 429"
  /\ log (snd ended_run)
     = [Analyze (your_request Examples.two_competitors)
          (Returned (Examples.an_analysis 0 []));
        Analyze (competitor_request Examples.two_competitors
                   (Examples.file "one.png"))
          (Returned (Examples.an_analysis 1 []));
        ConsoleError "Error calling Gemini API:" "Error: 429";
        Analyze (competitor_request Examples.two_competitors
                   (Examples.file "two.png"))
          (Thrown "Failed to analyze screenshot: 429")].
Proof.
  assert (Hin : Analyze (competitor_request Examples.two_competitors
                           (Examples.file "two.png"))
                  (Thrown "Failed to analyze screenshot: 429")
                ∈ log (snd ended_run)).
  { apply list_elem_of_In. vm_compute. right. right. right. left.
    reflexivity. }
  destruct (failed_analysis_ends_the_comparison third_call_fails
              (fun request calls => (Returned "[]"%string, calls))
              Examples.two_competitors 0%nat (fst ended_run) (snd ended_run)
              _ _ (surjective_pairing _) Hin)
    as (earlier & how & _ & _ & _ & _ & Hout & _).
  split; [exact Hout|]. vm_compute. reflexivity.
Defined.

End ComparisonFacts.

(** * The search field of the history panel *)

Module PanelFacts.

Import LabelFacts.

Lemma prefix_app sub b : String.prefix sub (sub +:+ b) = true.
Proof.
  induction sub as [|c sub IH]; [by destruct b|].
  change (String.prefix (String c sub) (String c (sub +:+ b)) = true).
  simpl. by destruct (ascii_dec c c).
Qed.

Lemma prefix_split sub s :
  String.prefix sub s = true -> exists b, s = sub +:+ b.
Proof.
  revert s. induction sub as [|c sub IH]; intros s; [by exists s|].
  destruct s as [|d s]; [done|]. simpl.
  destruct (ascii_dec c d) as [->|]; [|done].
  intros [b ->]%IH. by exists b.
Qed.

(** [s.includes(sub)]: [sub] stands somewhere inside [s]. *)
Lemma str_includes_spec s sub :
  str_includes s sub = true <-> exists a b, s = a +:+ sub +:+ b.
Proof.
  split.
  - induction s as [|c s IH]; cbn [str_includes].
    + rewrite orb_false_r. intros [b ->]%prefix_split. by exists EmptyString, b.
    + intros [[b ->]%prefix_split|(a & b & ->)%IH]%orb_true_iff.
      * by exists EmptyString, b.
      * by exists (String c a), b.
  - intros (a & b & ->). induction a as [|c a IH].
    + change (str_includes (sub +:+ b) sub = true).
      destruct (sub +:+ b) eqn:E; cbn [str_includes];
        rewrite <- ?E, prefix_app; done.
    + change (str_includes (String c (a +:+ sub +:+ b)) sub = true).
      cbn [str_includes]. rewrite IH. apply orb_true_r.
Qed.

Lemma append_assoc (a b c : string) : (a +:+ b) +:+ c = a +:+ b +:+ c.
Proof.
  induction a as [|x a IH]; [done|].
  change (String x ((a +:+ b) +:+ c) = String x (a +:+ b +:+ c)).
  by rewrite IH.
Qed.

Lemma str_includes_trans s mid sub :
  str_includes s mid = true -> str_includes mid sub = true ->
  str_includes s sub = true.
Proof.
  rewrite !str_includes_spec. intros (a & b & ->) (a' & b' & ->).
  exists (a +:+ a'), (b' +:+ b). by rewrite !append_assoc.
Qed.

Lemma toLowerCase_app a b :
  toLowerCase (a +:+ b) = toLowerCase a +:+ toLowerCase b.
Proof.
  induction a as [|x a IH]; [done|].
  change (String (lower_char x) (toLowerCase (a +:+ b))
          = String (lower_char x) (toLowerCase a +:+ toLowerCase b)).
  by rewrite IH.
Qed.

Lemma str_includes_empty sub : str_includes "" sub = true -> sub = EmptyString.
Proof. cbn [str_includes]. rewrite orb_false_r. by destruct sub. Qed.

Lemma toLowerCase_empty s : toLowerCase s = EmptyString -> s = EmptyString.
Proof. by destruct s. Qed.

(* What the search field asks of a record. *)
Definition found (filter : string) (item : AnalysisHistory) : bool :=
  str_includes (toLowerCase (websiteUrl (config item))) (toLowerCase filter)
  || some (fun k => str_includes (toLowerCase k) (toLowerCase filter))
       (config_keywords (config item))
  || str_includes (toLowerCase (targetAudience (config item)))
       (toLowerCase filter).

Lemma found_shorter shorter longer item :
  str_includes (toLowerCase longer) (toLowerCase shorter) = true ->
  found longer item = true -> found shorter item = true.
Proof.
  intros Hsub. unfold found, some.
  rewrite !orb_true_iff, !existsb_exists.
  intros [[H|(k & Hk & H)]|H].
  - left. left. by eapply str_includes_trans.
  - left. right. exists k. split; [done|]. by eapply str_includes_trans.
  - right. by eapply str_includes_trans.
Qed.

Lemma filter_filter_weaker {A} (p q : A -> bool) l :
  (forall x, p x = true -> q x = true) ->
  List.filter p (List.filter q l) = List.filter p l.
Proof.
  intros Hpq. induction l as [|x l IH]; [done|]. simpl.
  destruct (q x) eqn:Hq; simpl.
  - by rewrite IH.
  - destruct (p x) eqn:Hp; [|done]. apply Hpq in Hp. congruence.
Qed.

Lemma filter_sublist {A} (p : A -> bool) l : List.filter p l `sublist_of` l.
Proof.
  induction l as [|x l IH]; [done|]. simpl.
  destruct (p x); by constructor.
Qed.

(** X14.  Typing on in the search field only narrows the list.  When the new
    text of the field, put in lower case, contains the old one, put in
    lower case, every record shown for the new text was shown for the old
    one, in the same order, and searching the new text among the records
    shown before gives what a fresh search gives.  The records shown are
    always records of the history, in their order. *)
Theorem longer_search_narrows (shorter longer : string)
    (history : list AnalysisHistory) :
  str_includes (toLowerCase longer) (toLowerCase shorter) = true ->
  filteredHistory longer (filteredHistory shorter history)
  = filteredHistory longer history
  /\ filteredHistory longer history
     `sublist_of` filteredHistory shorter history
  /\ filteredHistory shorter history `sublist_of` history.
Proof.
  intros Hsub.
  assert (Hnarrow :
            filteredHistory longer (filteredHistory shorter history)
            = filteredHistory longer history).
  { unfold filteredHistory.
    destruct (String.eqb_spec shorter "") as [->|Hs]; [done|].
    destruct (String.eqb_spec longer "") as [->|Hl]; simpl.
    - by apply str_includes_empty, toLowerCase_empty in Hsub.
    - apply filter_filter_weaker. intros item.
      apply (found_shorter shorter longer item Hsub). }
  split; [done|]. split.
  - rewrite <- Hnarrow. unfold filteredHistory at 1.
    destruct (negb _); [apply filter_sublist|done].
  - unfold filteredHistory. destruct (negb _); [apply filter_sublist|done].
Qed.

Definition a_record (url audience : string) (kws : list string)
  : AnalysisHistory :=
  {| history_id := "analysis_1_a"; result := Examples.an_analysis 50 [];
     history_timestamp := 1;
     config := {| websiteUrl := url; config_keywords := kws;
                  targetAudience := audience |} |}.

Definition some_history : list AnalysisHistory :=
  [a_record "https://shop.example" "Buyers" ["SEO"; "Checkout"]%string;
   a_record "https://blog.example" "Readers" ["writing"]%string;
   a_record "" "Shoppers" []].

Lemma longer_search_witness :
  filteredHistory "sho" some_history
  = [a_record "https://shop.example" "Buyers" ["SEO"; "Checkout"]%string;
     a_record "" "Shoppers" []]
  /\ filteredHistory "SHOP." (filteredHistory "sho" some_history)
     = filteredHistory "SHOP." some_history.
Proof.
  split; [reflexivity|].
  exact (proj1 (longer_search_narrows "sho" "SHOP." some_history eq_refl)).
Defined.

End PanelFacts.

(** * Statistics over the history *)

Module StatisticsFacts.

Import PreferencesFacts.

(** ** Counting *)

(* counts.get(k) || 0 *)
Definition get0 (k : string) (counts : list (string * number)) : number :=
  default 0 (assoc_get k counts).

(* How often [k] stands in [ks]. *)
Definition occurrences (k : string) (ks : list string) : number :=
  Z.of_nat (length (List.filter (String.eqb k) ks)).

Definition total (l : list number) : number := fold_right Z.add 0 l.

Lemma count_up_get0 counts k k' :
  get0 k (count_up counts k')
  = get0 k counts + (if String.eqb k k' then 1 else 0).
Proof.
  unfold count_up, get0. rewrite assoc_get_set.
  destruct (String.eqb_spec k k') as [->|_]; [|lia].
  destruct (assoc_get k' counts) as [n|]; simpl; [|lia].
  destruct (Z.eqb_spec n 0); lia.
Qed.

Lemma tally_get0 ks counts k :
  get0 k (fold_left count_up ks counts) = get0 k counts + occurrences k ks.
Proof.
  revert counts. induction ks as [|k' ks IH]; intros counts.
  - unfold occurrences. simpl. lia.
  - cbn [fold_left]. rewrite IH, count_up_get0. unfold occurrences. simpl.
    destruct (String.eqb k k'); simpl; lia.
Qed.

Lemma tally_keys ks counts :
  NoDup (map fst counts) ->
  NoDup (map fst (fold_left count_up ks counts))
  /\ forall k, k ∈ map fst (fold_left count_up ks counts)
               <-> k ∈ ks \/ k ∈ map fst counts.
Proof.
  revert counts. induction ks as [|k' ks IH]; intros counts Hnd.
  - split; [done|]. intros k. rewrite elem_of_nil. tauto.
  - cbn [fold_left].
    destruct (JSONFacts.assoc_set_keys k'
                (match assoc_get k' counts with
                 | Some n => if n =? 0 then 0 else n
                 | None => 0
                 end + 1) counts Hnd) as [Hnd' Hkeys].
    destruct (IH (count_up counts k') Hnd') as [IH1 IH2].
    split; [done|]. intros k. rewrite IH2. unfold count_up.
    rewrite Hkeys, elem_of_cons. tauto.
Qed.

Lemma occurrences_elem k ks : k ∈ ks -> 0 < occurrences k ks.
Proof.
  unfold occurrences. induction ks as [|k' ks IH]; [by intros ?%elem_of_nil|].
  simpl. intros [->|Hin]%elem_of_cons.
  - rewrite String.eqb_refl. simpl. lia.
  - destruct (String.eqb k k'); simpl; [lia|auto].
Qed.

Lemma assoc_get_elem {V} k (v : V) ps :
  NoDup (map fst ps) -> (k, v) ∈ ps -> assoc_get k ps = Some v.
Proof.
  induction ps as [|[k0 v0] ps IH]; [by intros _ ?%elem_of_nil|]. simpl.
  intros [Hk0 Hnd]%NoDup_cons [[= -> ->]|Hin]%elem_of_cons.
  - by rewrite String.eqb_refl.
  - destruct (String.eqb_spec k k0) as [->|_]; [|auto].
    destruct Hk0. apply list_elem_of_fmap. by exists (k0, v).
Qed.

(** The entries of a tally that starts empty: every string that was
    counted, once, with the number of times it was counted. *)
Lemma tally_entries ks :
  let counts := fold_left count_up ks [] in
  NoDup (map fst counts)
  /\ (forall k, k ∈ map fst counts <-> k ∈ ks)
  /\ (forall k n, (k, n) ∈ counts -> n = occurrences k ks).
Proof.
  cbv zeta. destruct (tally_keys ks []) as [Hnd Hkeys]; [constructor|].
  split; [done|]. split.
  - intros k. rewrite (Hkeys k). simpl. rewrite elem_of_nil. tauto.
  - intros k n Hin. apply (assoc_get_elem _ _ _ Hnd) in Hin.
    pose proof (tally_get0 ks [] k) as Hget. unfold get0 in Hget.
    rewrite Hin in Hget. simpl in Hget. lia.
Qed.

Lemma assoc_set_total k v counts :
  total (map snd (assoc_set k v counts))
  = total (map snd counts) - get0 k counts + v.
Proof.
  unfold get0. induction counts as [|[k0 n0] counts IH]; simpl; [lia|].
  destruct (String.eqb k k0); simpl; lia.
Qed.

Lemma tally_total ks counts :
  total (map snd (fold_left count_up ks counts))
  = total (map snd counts) + Z.of_nat (length ks).
Proof.
  revert counts. induction ks as [|k ks IH]; intros counts.
  - simpl. lia.
  - cbn [fold_left]. rewrite IH. unfold count_up.
    rewrite assoc_set_total. unfold get0.
    destruct (assoc_get k counts) as [n|]; simpl length; simpl default;
      [destruct (Z.eqb_spec n 0)|]; lia.
Qed.

Lemma fold_left_sum {A} (f : A -> number) l acc :
  fold_left (fun sum item => sum + f item) l acc = acc + total (map f l).
Proof.
  revert acc. induction l as [|x l IH]; intros acc; simpl; [lia|].
  rewrite IH. lia.
Qed.

(** ** Sorting *)

(* By falling count. *)
Fixpoint falling {A} (count : A -> number) (l : list A) : Prop :=
  match l with
  | [] => True
  | x :: rest => Forall (fun y => count y <= count x) rest /\ falling count rest
  end.

Lemma insert_falling_perm {A} (count : A -> number) x l :
  insert_falling count x l ≡ₚ x :: l.
Proof.
  induction l as [|y l IH]; [done|]. simpl.
  destruct (count x <? count y); [|done].
  rewrite IH. apply Permutation_swap.
Qed.

Lemma sort_falling_perm {A} (count : A -> number) l :
  sort_falling count l ≡ₚ l.
Proof.
  induction l as [|x l IH]; [done|]. cbn [sort_falling fold_right].
  fold (sort_falling count l). by rewrite insert_falling_perm, IH.
Qed.

Lemma insert_falling_sorted {A} (count : A -> number) x l :
  falling count l -> falling count (insert_falling count x l).
Proof.
  induction l as [|y l IH]; [by repeat constructor|]. simpl.
  intros [Hy Hl]. destruct (Z.ltb_spec (count x) (count y)) as [Hlt|Hge].
  - simpl. split; [|auto].
    rewrite (insert_falling_perm count x l). constructor; [lia|done].
  - simpl. split; [|done]. constructor; [lia|].
    eapply Forall_impl; [exact Hy|]. simpl. intros z Hz. lia.
Qed.

Lemma sort_falling_sorted {A} (count : A -> number) l :
  falling count (sort_falling count l).
Proof.
  induction l as [|x l IH]; [done|]. by apply insert_falling_sorted.
Qed.

(** The sort is stable: the entries of any one count keep their order. *)
Lemma insert_falling_stable {A} (count : A -> number) n x l :
  List.filter (fun y => count y =? n) (insert_falling count x l)
  = List.filter (fun y => count y =? n) (x :: l).
Proof.
  induction l as [|y l IH]; [done|]. cbn [insert_falling].
  destruct (Z.ltb_spec (count x) (count y)) as [Hlt|Hge]; [|done].
  cbn [List.filter] in *. rewrite IH.
  destruct (Z.eqb_spec (count x) n), (Z.eqb_spec (count y) n); try done. lia.
Qed.

Lemma sort_falling_stable {A} (count : A -> number) n l :
  List.filter (fun y => count y =? n) (sort_falling count l)
  = List.filter (fun y => count y =? n) l.
Proof.
  induction l as [|x l IH]; [done|]. cbn [sort_falling fold_right].
  fold (sort_falling count l). rewrite insert_falling_stable.
  cbn [List.filter]. by rewrite IH.
Qed.

Lemma falling_app {A} (count : A -> number) l1 l2 :
  falling count (l1 ++ l2) ->
  falling count l1
  /\ forall a b, a ∈ l1 -> b ∈ l2 -> count b <= count a.
Proof.
  induction l1 as [|x l1 IH]; simpl.
  - intros _. split; [done|]. by intros a b ?%elem_of_nil.
  - intros [Hx Hrest]. destruct (IH Hrest) as [IH1 IH2].
    apply Forall_app in Hx as [Hx1 Hx2]. split; [done|].
    intros a b [->|Ha]%elem_of_cons Hb; [|by apply IH2].
    rewrite Forall_forall in Hx2. by apply Hx2.
Qed.

Lemma falling_lookup {A} (count : A -> number) l i j a b :
  falling count l -> (i < j)%nat -> l !! i = Some a -> l !! j = Some b ->
  count b <= count a.
Proof.
  revert i j. induction l as [|x l IH]; intros i j; [done|].
  intros [Hx Hl] Hij Ha Hb. destruct j as [|j]; [lia|].
  destruct i as [|i]; simpl in Ha, Hb.
  - injection Ha as ->. rewrite Forall_forall in Hx.
    apply Hx. by eapply list_elem_of_lookup_2.
  - apply (IH i j); [done|lia|done..].
Qed.

Section Dates.

Variable toLocaleDateString : number -> string.
Variable sort_by_date : list DateCount -> list DateCount.

(* All keywords of the history, record by record. *)
Definition all_keywords (history : list AnalysisHistory) : list string :=
  flat_map (fun item => config_keywords (config item)) history.

Lemma keyword_tally history counts :
  fold_left
    (fun counts item =>
       fold_left count_up (config_keywords (config item)) counts)
    history counts
  = fold_left count_up (all_keywords history) counts.
Proof.
  revert counts. induction history as [|item history IH]; intros counts;
    [done|].
  cbn [fold_left all_keywords flat_map]. rewrite fold_left_app. apply IH.
Qed.

Lemma page_type_tally history counts :
  fold_left (fun counts item => count_up counts (pageType (result item)))
    history counts
  = fold_left count_up (map (fun item => pageType (result item)) history)
      counts.
Proof.
  revert counts. induction history as [|item history IH]; intros counts;
    [done|]. cbn [fold_left map]. apply IH.
Qed.

(** X15.  [topKeywords] holds the most frequent keywords of the history: at
    most 10 entries, no keyword twice, each with the number of times the
    keyword stands in the configurations of the history, by falling
    count.  A keyword of the history that is left out is left out because
    there are 10 entries, none of them rarer than it. *)
Theorem top_keywords_are_the_most_frequent (history : list AnalysisHistory) :
  let all := all_keywords history in
  let top :=
    topKeywords
      (getAnalysisStatistics toLocaleDateString sort_by_date history) in
  (length top <= 10)%nat
  /\ NoDup (map keyword top)
  /\ (forall e, e ∈ top ->
        keyword e ∈ all /\ keyword_count e = occurrences (keyword e) all)
  /\ (forall i j a b,
        (i < j)%nat -> top !! i = Some a -> top !! j = Some b ->
        keyword_count b <= keyword_count a)
  /\ (forall k, k ∈ all -> k ∉ map keyword top ->
        length top = 10%nat
        /\ forall e, e ∈ top -> occurrences k all <= keyword_count e).
Proof.
  cbv zeta. unfold getAnalysisStatistics.
  destruct history as [|item0 history0].
  { simpl. split; [lia|].
    split; [constructor|]. split; [by intros e ?%elem_of_nil|].
    split; [by intros [] [] ? ?|]. by intros k ?%elem_of_nil. }
  cbn [length Nat.eqb topKeywords]. rewrite keyword_tally.
  set (all := all_keywords (item0 :: history0)).
  destruct (tally_entries all) as (Hnd & Hkeys & Hcount). cbv zeta in *.
  set (counts := fold_left count_up all []) in *.
  set (entries := map (fun '(keyword, count) =>
                         {| keyword := keyword; keyword_count := count |})
                    counts) in *.
  set (sorted := sort_falling keyword_count entries) in *.
  set (top := take 10 sorted).
  assert (Hperm : sorted ≡ₚ entries) by apply sort_falling_perm.
  assert (Hnames : keyword <$> entries = map fst counts).
  { change (map keyword entries = map fst counts).
    unfold entries. rewrite map_map. apply map_ext. by intros []. }
  assert (Hentry : forall e, e ∈ sorted ->
            keyword e ∈ all /\ keyword_count e = occurrences (keyword e) all).
  { intros e He. rewrite Hperm in He.
    apply list_elem_of_fmap in He as [[k n] [-> Hin]]. simpl. split.
    - apply Hkeys. apply list_elem_of_fmap. by exists (k, n).
    - by apply Hcount. }
  assert (Hsorted : falling keyword_count sorted) by apply sort_falling_sorted.
  assert (Hsplit : sorted = top ++ drop 10 sorted)
    by (unfold top; by rewrite take_drop).
  split; [unfold top; rewrite length_take; lia|]. split; [|split; [|split]].
  - eapply sublist_NoDup; [|apply fmap_sublist, sublist_take].
    fold sorted. rewrite Hperm, Hnames. exact Hnd.
  - intros e He. apply Hentry. rewrite Hsplit. apply elem_of_app. by left.
  - intros i j a b Hij Ha Hb.
    apply (falling_lookup keyword_count sorted i j); [done..| |].
    + rewrite Hsplit. by apply lookup_app_l_Some.
    + rewrite Hsplit. by apply lookup_app_l_Some.
  - intros k Hk Hout.
    assert (Hin : {| keyword := k; keyword_count := occurrences k all |}
                  ∈ sorted).
    { rewrite Hperm. apply Hkeys in Hk.
      apply list_elem_of_fmap in Hk as [[k' n] [Hk' Hin]].
      simpl in Hk'. subst k'. rewrite <- (Hcount _ _ Hin).
      apply list_elem_of_fmap. by exists (k, n). }
    rewrite Hsplit in Hin. apply elem_of_app in Hin as [Hin|Hin].
    { destruct Hout. apply list_elem_of_fmap. eexists.
      split; [|exact Hin]. done. }
    rewrite Hsplit in Hsorted. apply falling_app in Hsorted as [_ Hsorted].
    split.
    + unfold top. rewrite length_take.
      destruct (decide (length sorted <= 10)%nat) as [Hshort|]; [|lia].
      rewrite drop_ge in Hin by done. by apply elem_of_nil in Hin.
    + intros e He. exact (Hsorted _ _ He Hin).
Qed.

(** X16.  The page types partition the history: [topPageTypes] names every
    page type of the history once, with the number of records that have
    it, by falling count, and the counts add up to [totalAnalyses], the
    number of records.  On an empty history the number is zero and the
    list is empty. *)
Theorem page_type_counts_add_up (history : list AnalysisHistory) :
  let stats := getAnalysisStatistics toLocaleDateString sort_by_date history in
  let types := map (fun item => pageType (result item)) history in
  totalAnalyses stats = Z.of_nat (length history)
  /\ total (map type_count (topPageTypes stats)) = totalAnalyses stats
  /\ NoDup (map page_type (topPageTypes stats))
  /\ (forall t, t ∈ map page_type (topPageTypes stats) <-> t ∈ types)
  /\ (forall e, e ∈ topPageTypes stats ->
        type_count e = occurrences (page_type e) types)
  /\ (forall i j a b,
        (i < j)%nat -> topPageTypes stats !! i = Some a ->
        topPageTypes stats !! j = Some b -> type_count b <= type_count a)
  /\ (history = [] -> totalAnalyses stats = 0 /\ topPageTypes stats = []).
Proof.
  cbv zeta. unfold getAnalysisStatistics.
  destruct history as [|item0 history0].
  { simpl. split; [done|].
    split; [done|]. split; [constructor|]. split; [done|].
    split; [by intros e ?%elem_of_nil|]. split; [by intros [] [] ? ?|].
    done. }
  cbn [length Nat.eqb totalAnalyses topPageTypes].
  rewrite page_type_tally.
  set (history := item0 :: history0).
  set (types := map (fun item => pageType (result item)) history).
  destruct (tally_entries types) as (Hnd & Hkeys & Hcount). cbv zeta in *.
  pose proof (tally_total types []) as Htotal.
  set (counts := fold_left count_up types []) in *.
  set (entries := map (fun '(type, count) =>
                         {| page_type := type; type_count := count |})
                    counts) in *.
  set (sorted := sort_falling type_count entries) in *.
  assert (Hperm : sorted ≡ₚ entries) by apply sort_falling_perm.
  assert (Hnames : page_type <$> entries = map fst counts).
  { change (map page_type entries = map fst counts).
    unfold entries. rewrite map_map. apply map_ext. by intros []. }
  assert (Hcounts : map type_count entries = map snd counts).
  { unfold entries. rewrite map_map. apply map_ext. by intros []. }
  split; [done|]. split; [|split; [|split; [|split; [|split]]]].
  - transitivity (total (map type_count entries)).
    + unfold total. apply foldr_permutation_proper; [apply _..| |].
      * intros a b c. lia.
      * by apply fmap_Permutation.
    + rewrite Hcounts, Htotal. unfold types. simpl. rewrite length_map. lia.
  - change (NoDup (page_type <$> sorted)). rewrite Hperm, Hnames. exact Hnd.
  - intros t. change (t ∈ page_type <$> sorted <-> t ∈ types).
    rewrite Hperm, Hnames. apply Hkeys.
  - intros e He. rewrite Hperm in He.
    apply list_elem_of_fmap in He as [[k n] [-> Hin]]. simpl.
    by apply Hcount.
  - intros i j a b. apply falling_lookup, sort_falling_sorted.
  - done.
Qed.

End Dates.

(** Three records: keywords a b, c b, b a d; page types Landing, Blog,
    Landing; scores 10, 20, 40. *)
Definition record_of (kws : list string) (type : string) (score : number)
  : AnalysisHistory :=
  {| history_id := "analysis_1_a";
     result := {| sections := []; overallSeoScore := score;
                  recommendations := []; pageType := type; imageUrl := "";
                  imageFileName := None; timestamp := None;
                  technicalSeo := None; competitorInsights := None;
                  brandVoiceAnalysis := None; performanceMetrics := None |};
     history_timestamp := 1700000000000;
     config := {| websiteUrl := ""; config_keywords := kws;
                  targetAudience := "" |} |}.

Example statistics_of_three_records :
  let stats :=
    getAnalysisStatistics (fun _ => "11/14/2023"%string) (fun days => days)
      [record_of ["a"; "b"]%string "Landing" 10;
       record_of ["c"; "b"]%string "Blog" 20;
       record_of ["b"; "a"; "d"]%string "Landing" 40] in
  totalAnalyses stats = 3
  /\ topKeywords stats
     = [{| keyword := "b"; keyword_count := 3 |};
        {| keyword := "a"; keyword_count := 2 |};
        {| keyword := "c"; keyword_count := 1 |};
        {| keyword := "d"; keyword_count := 1 |}]
  /\ topPageTypes stats
     = [{| page_type := "Landing"; type_count := 2 |};
        {| page_type := "Blog"; type_count := 1 |}].
Proof. vm_compute. repeat split. Qed.

End StatisticsFacts.

(** * Comparing two analyses: the comparison turned around *)

Module CompareMoreFacts.

Import JSONFacts CompareFacts StatisticsFacts.

Lemma omap_none {A B} (f : A -> option B) (l : list A) :
  (forall x, x ∈ l -> f x = None) -> omap f l = [].
Proof.
  induction l as [|x l IH]; intros H; [done|]. csimpl.
  rewrite (H x) by (by left). apply IH. intros y Hy. apply H. by right.
Qed.


End CompareMoreFacts.

(** * What the writers of the persistence layer leave alone *)

Module FrameFacts.

Import StorageUtils.STORAGE_KEYS.

(** X18.  Every writer of the persistence layer changes the entry of its
    own key only: the history functions that of the history, and
    [savePreferences], the brand voice functions, [addRecentKeyword] and
    [addRecentAudience] each their own.  What is stored under any other
    key stays as it is. *)
Theorem writers_keep_to_their_key (k : string) (ls : Storage) :
  (k <> ANALYSIS_HISTORY ->
   forall result config env id,
     saveAnalysisToHistory result config env ls !! k = ls !! k
     /\ deleteAnalysisFromHistory id ls !! k = ls !! k
     /\ clearAnalysisHistory ls !! k = ls !! k)
  /\ (k <> PREFERENCES ->
      forall preferences, savePreferences preferences ls !! k = ls !! k)
  /\ (k <> BRAND_VOICE ->
      forall profile,
        saveBrandVoice profile ls !! k = ls !! k
        /\ clearBrandVoice ls !! k = ls !! k)
  /\ (k <> RECENT_KEYWORDS ->
      forall keyword, addRecentKeyword keyword ls !! k = ls !! k)
  /\ (k <> RECENT_AUDIENCES ->
      forall audience, addRecentAudience audience ls !! k = ls !! k).
Proof.
  split; [|split; [|split; [|split]]]; intros Hk.
  - intros result config env id. split; [|split].
    + unfold saveAnalysisToHistory, setItem.
      destruct (getAnalysisHistory ls); try done.
      by rewrite lookup_insert_ne.
    + unfold deleteAnalysisFromHistory, setItem.
      destruct (getAnalysisHistory ls); try done.
      destruct (filter_out_id id elems); [|done].
      by rewrite lookup_insert_ne.
    + unfold clearAnalysisHistory, removeItem. by rewrite lookup_delete_ne.
  - intros preferences. unfold savePreferences, setItem.
    by rewrite lookup_insert_ne.
  - intros profile. split.
    + unfold saveBrandVoice, setItem. by rewrite lookup_insert_ne.
    + unfold clearBrandVoice, removeItem. by rewrite lookup_delete_ne.
  - intros keyword. unfold addRecentKeyword, setItem.
    destruct (getRecentKeywords ls); try done.
    destruct (negb _); [|done]. by rewrite lookup_insert_ne.
  - intros audience. unfold addRecentAudience, setItem.
    destruct (getRecentAudiences ls); try done.
    destruct (negb _); [|done]. by rewrite lookup_insert_ne.
Qed.

End FrameFacts.

(** * The ids of the records *)

Module IdFacts.

Import JSON JSONFacts.

Lemma chars_app a b : chars (a +:+ b) = chars a ++ chars b.
Proof.
  unfold chars. induction a as [|c a IH]; [done|].
  change (c :: list_ascii_of_string (a +:+ b)
          = c :: list_ascii_of_string a ++ list_ascii_of_string b).
  by rewrite IH.
Qed.

Lemma chars_text l : chars (text l) = l.
Proof. apply list_ascii_of_string_of_list_ascii. Qed.

Lemma chars_inj a b : chars a = chars b -> a = b.
Proof.
  intros H. apply (f_equal string_of_list_ascii) in H.
  unfold chars in H. by rewrite !string_of_list_ascii_of_string in H.
Qed.

(* The digits and what follows the underscore are read back from the
   text. *)
Lemma digits_then_rest d1 d2 (s1 s2 : list ascii) :
  digits_of_uint d1 ++ "_"%char :: s1 = digits_of_uint d2 ++ "_"%char :: s2 ->
  d1 = d2 /\ s1 = s2.
Proof.
  intros Heq.
  destruct (digits_of_uint_spec d1 ("_"%char :: s1)) as [H1 U1]; [done|].
  destruct (digits_of_uint_spec d2 ("_"%char :: s2)) as [H2 U2]; [done|].
  rewrite Heq, H2 in H1. injection H1 as Hd Hs.
  split; [|done]. by rewrite <- U1, <- U2, Hd.
Qed.

Lemma number_then_rest n1 n2 (s1 s2 : list ascii) :
  print_int n1 ++ "_"%char :: s1 = print_int n2 ++ "_"%char :: s2 ->
  n1 = n2 /\ s1 = s2.
Proof.
  destruct (print_int_spec n1) as (neg1 & d1 & -> & _ & (c1 & t1 & E1 & D1) & ->).
  destruct (print_int_spec n2) as (neg2 & d2 & -> & _ & (c2 & t2 & E2 & D2) & ->).
  destruct neg1, neg2; simpl.
  - intros [= H]. by apply digits_then_rest in H as [-> ->].
  - rewrite E2. simpl. intros [= <- _].
    apply is_digit_not_minus in D2. discriminate.
  - rewrite E1. simpl. intros [= -> _].
    apply is_digit_not_minus in D1. discriminate.
  - intros H. by apply digits_then_rest in H as [-> ->].
Qed.

(** X19.  The id of a record tells the instant and the random suffix it
    was made of: two calls of [saveAnalysisToHistory] give their records
    the same id exactly when [Date.now()] answered the same instant and
    the random suffix was the same in both. *)
Theorem record_ids_tell_instant_and_suffix
    (result1 result2 : AnalysisResult) (config1 config2 : HistoryConfig)
    (env1 env2 : SaveEnv) :
  history_id (newEntry result1 config1 env1)
  = history_id (newEntry result2 config2 env2)
  <-> now_id env1 = now_id env2 /\ random_suffix env1 = random_suffix env2.
Proof.
  unfold newEntry. cbn [history_id]. split; [|by intros [-> ->]].
  intros H. apply (f_equal chars) in H.
  rewrite !chars_app in H. apply app_inv_head in H.
  unfold Number_toString in H. rewrite !chars_text in H.
  change (chars "_") with ["_"%char] in H.
  change (?l ++ ["_"%char] ++ ?s) with (l ++ "_"%char :: s) in H.
  apply number_then_rest in H as [Hn Hs]. split; [done|].
  by apply chars_inj.
Qed.

End IdFacts.

(** * The analysis of one screenshot *)

Module AnalysisClientFacts.

Import JSON JSONFacts PreferencesFacts AnalysisClient.

Section Client.

Context {World : Type}.
Variable readAsDataURL : File -> World -> settled string * World.
Variable generateContent :
  AnalysisRequest -> World -> settled (option string) * World.
Variable createObjectURL : File -> World -> string * World.
Variable Date_now : World -> number * World.
Variable TypeError_message : string.
Variable SyntaxError_message : string -> string.

Abbreviation analyse :=
  (actionAnalyzeScreenshotEnhanced readAsDataURL generateContent
     createObjectURL Date_now TypeError_message SyntaxError_message).

Lemma call_and_parse_object args imageBase64 w analysis w' :
  call_and_parse generateContent createObjectURL Date_now TypeError_message
    SyntaxError_message args imageBase64 w
  = (resolved analysis, w') ->
  exists props, analysis = VObj props.
Proof.
  unfold call_and_parse.
  destruct (generateContent _ w) as [[[response_text|]|error] w1]; try done.
  destruct (JSON.parse (trim response_text)) as [result|]; [|done].
  destruct (createObjectURL _ w1) as [imageUrl w2].
  destruct (Date_now w2) as [timestamp w3]. intros [= <- _]. by eexists.
Qed.

(** X20.  How the analysis of a screenshot ends.  When it returns, it
    returns an object and nothing was logged.  When it throws, then
    either the file could not be read, and what is thrown is what the
    reader gave, the model was not asked and nothing was logged; or the
    model was asked once and the failure was logged once, and what is
    thrown is an [Error] whose message is "An unknown error occurred
    during analysis." or begins with "Failed to analyze screenshot: ". *)
Theorem analysis_ends_in_one_of_three_ways (args : AnalyzeArgs) (w : World) :
  match analyse args w with
  | (resolved analysis, _, events) =>
      (exists props, analysis = VObj props)
      /\ exists request, events = [Read (imageFile args); Asked request]
  | (rejected error, _, events) =>
      (fst (readAsDataURL (imageFile args) w) = rejected error
       /\ events = [Read (imageFile args)])
      \/ (exists message request cause,
            error = an_Error message
            /\ (message = "An unknown error occurred during analysis."%string
                \/ String.prefix "Failed to analyze screenshot: " message
                   = true)
            /\ events = [Read (imageFile args); Asked request;
                         Logged "Error calling Gemini API:" cause])
  end.
Proof.
  unfold actionAnalyzeScreenshotEnhanced.
  destruct (readAsDataURL (imageFile args) w) as [[result|error] w1];
    [|by left].
  destruct (call_and_parse _ _ _ _ _ _ _ w1) as [[analysis|error] w2] eqn:E.
  - split; [by eapply call_and_parse_object|by eexists].
  - right. destruct error as [message|what].
    + exists ("Failed to analyze screenshot: " +:+ message)%string.
      eexists _, _. split; [done|]. split; [|done]. right.
      apply PanelFacts.prefix_app.
    + eexists _, _, _. split; [done|]. split; [by left|done].
Qed.

(** X21.  The answer of the model is passed on unchecked, under three
    fields of the function's own.  Whatever JSON text the model answers
    with, the function returns an object; its [imageUrl] is the object
    URL made for the file, its [imageFileName] the name of the file and
    its [timestamp] the instant of the clock, also when the answer
    carries members of these names; every other member of an answer
    that is an object is in the result as it was answered. *)
Theorem answer_is_passed_on_under_local_fields (args : AnalyzeArgs)
    (w w1 w2 : World) (dataURL response_text : string) (answer : value) :
  readAsDataURL (imageFile args) w = (resolved dataURL, w1) ->
  generateContent (analysis_request args (split "," dataURL !! 1%nat)) w1
  = (resolved (Some response_text), w2) ->
  JSON.parse (trim response_text) = Some answer ->
  exists props w',
    analyse args w
    = (resolved (VObj props), w',
       [Read (imageFile args);
        Asked (analysis_request args (split "," dataURL !! 1%nat))])
    /\ assoc_get "imageUrl" props
       = Some (VStr (fst (createObjectURL (imageFile args) w2)))
    /\ assoc_get "imageFileName" props
       = Some (VStr (file_name (imageFile args)))
    /\ assoc_get "timestamp" props
       = Some (VInt (fst (Date_now (snd (createObjectURL (imageFile args)
                                           w2)))))
    /\ forall members k,
         answer = VObj members ->
         k <> "imageUrl"%string -> k <> "imageFileName"%string ->
         k <> "timestamp"%string ->
         assoc_get k props = assoc_get k members.
Proof.
  intros Hread Hcall Hparse.
  unfold actionAnalyzeScreenshotEnhanced, call_and_parse.
  rewrite Hread, Hcall, Hparse.
  destruct (createObjectURL (imageFile args) w2) as [imageUrl w3].
  cbn [fst snd]. destruct (Date_now w3) as [timestamp w4]. cbn [fst snd].
  unfold spread. cbn [fold_left own_props].
  eexists _, _. split; [reflexivity|].
  assert (Hlocal : forall (own : list (string * value)) k,
            assoc_get k
              (assoc_assign own
                 [("imageUrl"%string, VStr imageUrl);
                  ("imageFileName"%string, VStr (file_name (imageFile args)));
                  ("timestamp"%string, VInt timestamp)])
            = match assoc_get k
                      [("imageUrl"%string, VStr imageUrl);
                       ("imageFileName"%string,
                        VStr (file_name (imageFile args)));
                       ("timestamp"%string, VInt timestamp)] with
              | Some v => Some v
              | None => assoc_get k own
              end).
  { intros own k. apply assoc_get_assign. compute_done. }
  split; [by rewrite Hlocal|]. split; [by rewrite Hlocal|].
  split; [by rewrite Hlocal|].
  intros members k -> H1 H2 H3. rewrite Hlocal. cbn [assoc_get].
  rewrite !(proj2 (String.eqb_neq _ _)) by done.
  cbn [own_props]. rewrite assoc_assign_nil; [done|].
  apply parse_wf in Hparse. by apply wf_obj in Hparse as [? _].
Qed.

End Client.

(** A run: the model answers with an object that carries an [imageUrl]
    of its own. *)
Definition a_file : File := {| file_name := "home.png"; file_type := "image/png" |}.

Definition a_request : AnalyzeArgs :=
  {| imageFile := a_file; args_websiteUrl := "";
     args_keywords := ["seo"%string]; args_targetAudience := "developers";
     brandVoice := None; generateVariants := true; competitorUrls := [] |}.

Definition an_answer : value :=
  VObj [("pageType"%string, VStr "Landing Page");
        ("imageUrl"%string, VStr "https://elsewhere.example/x.png")].

Definition reads (f : File) (w : nat) : settled string * nat :=
  (resolved "data:image/png;base64,AAAA"%string, S w).

Definition answers (request : AnalysisRequest) (w : nat)
  : settled (option string) * nat :=
  (resolved (Some (stringify_indent2 an_answer)), S w).

Definition makes_url (f : File) (w : nat) : string * nat :=
  ("blob:1"%string, S w).

Definition clock (w : nat) : number * nat := (1700000000000, S w).

Lemma answer_witness :
  fst (fst (actionAnalyzeScreenshotEnhanced reads answers makes_url clock
              "no text" (fun _ => "bad JSON"%string) a_request 0%nat))
  = resolved (VObj [("pageType"%string, VStr "Landing Page");
                    ("imageUrl"%string, VStr "blob:1");
                    ("imageFileName"%string, VStr "home.png");
                    ("timestamp"%string, VInt 1700000000000)]).
Proof.
  destruct (answer_is_passed_on_under_local_fields reads answers makes_url
              clock "no text" (fun _ => "bad JSON"%string) a_request
              0%nat 1%nat 2%nat "data:image/png;base64,AAAA"
              (stringify_indent2 an_answer) an_answer eq_refl eq_refl)
    as (props & w' & Hrun & _); [vm_compute; reflexivity|].
  vm_compute. reflexivity.
Defined.

End AnalysisClientFacts.

(** * The batch: the progress that is reported *)

Module ProgressFacts.

Import ServiceFacts.

Lemma percent_lt i j total :
  (i < j)%nat -> (0 < total)%nat -> (percent i total < percent j total)%Q.
Proof.
  intros Hij Htotal. unfold percent.
  apply Qmult_lt_compat_r; [reflexivity|].
  apply Qmult_lt_compat_r.
  - apply Qinv_lt_0_compat. change 0%Q with (inject_Z 0).
    rewrite <- Zlt_Qlt. lia.
  - rewrite <- Zlt_Qlt. lia.
Qed.

Lemma percent_below i total :
  (i < total)%nat -> (percent i total < 100)%Q.
Proof.
  intros Hi. unfold percent.
  apply Qlt_le_trans with (y := (1 * 100)%Q); [|by compute].
  apply Qmult_lt_compat_r; [reflexivity|].
  apply Qlt_shift_div_r.
  - change 0%Q with (inject_Z 0). rewrite <- Zlt_Qlt. lia.
  - rewrite Qmult_1_l, <- Zlt_Qlt. lia.
Qed.

Lemma percent_first total : (0 <= percent 0 total)%Q.
Proof.
  unfold percent, Qdiv. rewrite !Qmult_0_l. apply Qle_refl.
Qed.

(* The progress values of a log, in order. *)
Definition reported (events : list Event) : list Q :=
  omap (fun ev => match ev with
                  | Progress progress _ => Some progress
                  | _ => None
                  end) events.

Lemma reported_app a b : reported (a ++ b) = reported a ++ reported b.
Proof. unfold reported. by rewrite omap_app. Qed.

Section Runs.

Context {World : Type}.
Variable analysis_client : AnalyzeArgs -> World -> ending * World.

Lemma reported_batch_events total requests :
  forall i hows,
    length hows = length requests ->
    reported (batch_events total i requests hows)
    = map (fun j => percent j total) (seq i (length requests)).
Proof.
  induction requests as [|request requests IH]; intros i [|how hows];
    try done.
  intros [= Hlen]. cbn [batch_events length seq map].
  rewrite !reported_app, (IH (S i) hows Hlen).
  by destruct how.
Qed.

(** X22.  The progress that [actionBatchAnalyze] reports to a callback
    rises: for [n] images it reports [n + 1] values, [i / n * 100] before
    the image of index [i] and 100 at the end, each greater than the one
    before, from 0 to 100, whether analyses fail or not. *)
Theorem progress_rises_to_100 (files : list File)
    (websiteUrl : string) (keywords : list string) (targetAudience : string)
    (voice : option BrandVoiceProfile) (w : World) :
  let args :=
    {| imageFiles := files;
       batch_websiteUrl := websiteUrl;
       batch_keywords := keywords;
       batch_targetAudience := targetAudience;
       batch_brandVoice := voice;
       onProgress := Some record_progress |} in
  let values :=
    reported (log (snd (actionBatchAnalyze analysis_client args (init w)))) in
  values
  = map (fun i => percent i (length files)) (seq 0 (length files)) ++ [100%Q]
  /\ (forall i j p q,
        (i < j)%nat -> values !! i = Some p -> values !! j = Some q ->
        (p < q)%Q)
  /\ (forall p, p ∈ values -> (0 <= p <= 100)%Q).
Proof.
  intros args values.
  assert (Hvalues : values
            = map (fun i => percent i (length files)) (seq 0 (length files))
              ++ [100%Q]).
  { unfold values.
    unfold actionBatchAnalyze, bind at 1. cbn [imageFiles args].
    change (batch_loop analysis_client _ 0 files [] (init w))
      with (batch_loop analysis_client args 0 files [] (init w)).
    rewrite (batch_loop_run analysis_client args files eq_refl).
    cbn [imageFiles args init world log app].
    match goal with
    | |- context [batch_events _ _ ?requests (fst ?calls)] =>
        change (reported (batch_events (length files) 0 requests (fst calls)
                          ++ [Progress 100 "Completed"])
                = map (fun i => percent i (length files))
                    (seq 0 (length files))
                  ++ [100%Q]);
        rewrite reported_app, (reported_batch_events _ requests 0 (fst calls))
          by apply client_calls_length
    end.
    by rewrite length_map. }
  split; [done|]. rewrite Hvalues. clear Hvalues values.
  set (n := length files).
  assert (Hat : forall i p,
            (map (fun i => percent i n) (seq 0 n) ++ [100%Q]) !! i = Some p ->
            ((i < n)%nat /\ p = percent i n) \/ (i = n /\ p = 100%Q)).
  { intros i p Hp. apply lookup_app_Some in Hp as [Hp|[Hge Hp]].
    - left. apply list_lookup_fmap_Some in Hp as (k & -> & Hk).
      apply lookup_seq in Hk as [-> Hk]. by split.
    - right. rewrite length_map, length_seq in Hge, Hp.
      apply list_lookup_singleton_Some in Hp as [Hi <-]. split; [lia|done]. }
  split.
  - intros i j p q Hij Hp Hq.
    destruct (Hat _ _ Hp) as [[Hi ->]|[-> ->]],
             (Hat _ _ Hq) as [[Hj ->]|[-> ->]]; try lia.
    + apply percent_lt; lia.
    + by apply percent_below.
  - intros p [i Hp]%list_elem_of_lookup.
    destruct (Hat _ _ Hp) as [[Hi ->]|[-> ->]]; [|done].
    split; [|by apply Qlt_le_weak, percent_below].
    destruct i as [|i]; [apply percent_first|].
    eapply Qle_trans; [apply percent_first|].
    apply Qlt_le_weak, percent_lt; lia.
Qed.

End Runs.

End ProgressFacts.

(** * Import: what is reported *)

Module ImportMoreFacts.

Import JSON.

(** X23.  [importHistoryFromJSON] reports a failure exactly when the text
    is not JSON or denotes [null], and a failed import leaves the storage
    as it was.  Any other text is reported as a success, also when it
    carries nothing to import: without a truthy [history], [brandVoice]
    or [preferences] the storage is left as it was, and [true] is
    returned. *)
Theorem import_fails_only_on_bad_text (jsonString : string) (ls : Storage) :
  (fst (importHistoryFromJSON jsonString ls) = false
   <-> JSON.parse jsonString = None \/ JSON.parse jsonString = Some VNull)
  /\ (fst (importHistoryFromJSON jsonString ls) = false ->
      snd (importHistoryFromJSON jsonString ls) = ls)
  /\ (forall data,
        JSON.parse jsonString = Some data ->
        (forall k member,
           k ∈ ["history"; "brandVoice"; "preferences"]%string ->
           get_prop data k = Some (Some member) ->
           truthy (Some member) = false) ->
        snd (importHistoryFromJSON jsonString ls) = ls).
Proof.
  unfold importHistoryFromJSON.
  destruct (JSON.parse jsonString) as [data|]; [|by repeat split; auto].
  destruct data as [|b|m e|s|l|ps]; cbn [get_prop fst snd].
  1: by repeat split; auto.
  1-4: repeat split; try done; intros [?|?]; done.
  split; [|split].
  - split; [done|]. intros [?|?]; done.
  - done.
  - intros data [= <-] Hfalsy. cbn [get_prop] in Hfalsy.
    assert (Hskip : forall k ls',
              k ∈ ["history"; "brandVoice"; "preferences"]%string ->
              forall key, store_if_truthy key (assoc_get k ps) ls' = ls').
    { intros k ls' Hk key. unfold store_if_truthy.
      destruct (assoc_get k ps) as [member|] eqn:E; [|done].
      by rewrite (Hfalsy k member Hk (f_equal Some E)). }
    rewrite !Hskip; [done|..]; compute_done.
Qed.

End ImportMoreFacts.

(** * Refining a content *)

Module RefineFacts.

Import IdFacts.

(** ** String.prototype.trim *)

Lemma trim_start_spaces l :
  exists spaces,
    l = spaces ++ trim_start l /\ Forall (fun c => is_space c = true) spaces.
Proof.
  induction l as [|c l (spaces & IH & Hall)]; [by exists []|]. simpl.
  destruct (is_space c) eqn:Hc.
  - exists (c :: spaces). split; [by rewrite IH at 1|by constructor].
  - by exists [].
Qed.

Lemma trim_start_head l c r : trim_start l = c :: r -> is_space c = false.
Proof.
  induction l as [|c' l IH]; [done|]. simpl.
  destruct (is_space c') eqn:Hc; [done|]. by intros [= <- _].
Qed.

(* No white space at either end. *)
Definition trimmed (s : string) : Prop :=
  (forall c r, chars s = c :: r -> is_space c = false)
  /\ (forall c r, chars s = r ++ [c] -> is_space c = false).

Lemma trim_trimmed s : trimmed (trim s).
Proof.
  unfold trimmed, trim. rewrite chars_text.
  set (front := trim_start (chars s)).
  destruct (trim_start_spaces (rev front)) as (spaces & Hrev & _).
  set (back := trim_start (rev front)) in *. split.
  - intros c r Hc.
    assert (Hfront : front = c :: r ++ rev spaces).
    { rewrite <- (rev_involutive front), Hrev, rev_app_distr, Hc. done. }
    by apply (trim_start_head (chars s) c (r ++ rev spaces)).
  - intros c r Hc. apply (f_equal (@rev ascii)) in Hc.
    rewrite rev_involutive, rev_app_distr in Hc. simpl in Hc.
    by apply (trim_start_head (rev front) c (rev r)).
Qed.

Section Runs.

Context {World : Type}.
Variable model_provider :
  GenerateRequest -> World -> outcome string * World.


End Runs.

End RefineFacts.
